(** * Expressive-animation engine of mochi-live: model and properties

    A shallow embedding of the avatar engine's TypeScript sources:

    - the formant classifier [frequencyToViseme] and the [VisemeSmoother]
      (weighted scoring revision), together with the earlier band/centroid
      revision of the classifier;
    - the [BlinkController] state machine;
    - [playAnimation] and the animation-trigger effect of the VRM scene;
    - the per-frame expression update of [animate];
    - [loadMixamoAnimation], the Mixamo-to-VRM retargeter.

    Conventions.  JavaScript numbers are modelled as exact rationals [Q]
    (with the non-finite values added where the retargeter can produce
    them), so every statement below is about the arithmetic the code
    writes down, not about IEEE-754 rounding.  [Date.now()] timestamps are
    integers [Z] (milliseconds) and are passed in explicitly, as are the
    results of [Math.random()].  A [Uint8Array] is a [list byte]. *)

From Stdlib Require Import ZArith QArith Qround Qminmax Qabs.
From Stdlib Require Import List Sorted Lia Lqa Bool.
From Stdlib.Strings Require Import Byte Ascii String.
From stdpp Require Import gmap strings.
Import ListNotations.
Open Scope Q_scope.

(* ===================================================================== *)
(** * Part I: the model                                                   *)
(* ===================================================================== *)

(** ** Numbers *)

(** [x < y] on JavaScript numbers, as a boolean. *)
Definition Qltb (x y : Q) : bool := negb (Qle_bool y x).

(** [Math.round]: the nearest integer, halves rounded up. *)
Definition js_round (x : Q) : Z := Qfloor (x + (1 # 2)).

(** Storing into a [Uint8Array] keeps the low eight bits. *)
Definition u8 (n : Z) : byte :=
  match Byte.of_N (Z.to_N (n mod 256)) with
  | Some b => b
  | None => x00
  end.

(** Reading a [Uint8Array] element as a number. *)
Definition sample (b : byte) : Q := inject_Z (Z.of_N (Byte.to_N b)).

(** ** Visemes *)

Inductive VisemeType : Set := aa | ee | ih | oh | ou | neutral.

Definition VisemeType_eqb (a b : VisemeType) : bool :=
  match a, b with
  | aa, aa | ee, ee | ih, ih | oh, oh | ou, ou | neutral, neutral => true
  | _, _ => false
  end.

(** The object [{ viseme, intensity }] returned by classifier and smoother. *)
Record VisemeEstimate : Type := mkEstimate {
  viseme : VisemeType;
  intensity : Q
}.

(** Two estimates denote the same JavaScript value. *)
Definition est_equiv (a b : VisemeEstimate) : Prop :=
  viseme a = viseme b /\ intensity a == intensity b.

(** The literal [['aa', 'ee', 'ih', 'oh', 'ou']] the loops range over. *)
Definition allVisemes : list VisemeType := [aa; ee; ih; oh; ou].

(** ** Signal classifier (formant revision) *)

Module Classifier.

Record FormantRange : Type := mkFormants {
  f1 : Q * Q;
  f2 : Q * Q
}.

Definition FORMANT_RANGES (v : VisemeType) : option FormantRange :=
  match v with
  | aa => Some (mkFormants (650, 900) (1100, 1400))
  | ee => Some (mkFormants (500, 700) (1700, 2200))
  | ih => Some (mkFormants (200, 400) (1900, 2500))
  | oh => Some (mkFormants (400, 600) (800, 1300))
  | ou => Some (mkFormants (300, 450) (700, 1100))
  | neutral => None
  end.

Definition sampleRate : Q := 44100.
Definition MIN_SCORE_THRESHOLD : Q := 20.

(** [frequencyData[i]], for an index the loop keeps in range: at least
    [startBin], which is not negative for the bands in use, and below
    [length] by the loop guard. *)
Definition at_bin (frequencyData : list byte) (i : Z) : Q :=
  sample (nth (Z.to_nat i) frequencyData x00).

Definition binWidth (frequencyData : list byte) (rate : Q) : Q :=
  (rate / 2) / inject_Z (Z.of_nat (length frequencyData)).

Definition startBin (frequencyData : list byte) (startHz rate : Q) : Z :=
  Qfloor (startHz / binWidth frequencyData rate).

Definition endBin (frequencyData : list byte) (endHz rate : Q) : Z :=
  Qceiling (endHz / binWidth frequencyData rate).

(** The loop [for (i = startBin; i <= endBin && i < binCount; i++)],
    carrying [sum] and [count].  [fuel] bounds the number of iterations;
    [binCount - startBin] of them always reach the loop's own exit. *)
Fixpoint band_loop (fuel : nat) (frequencyData : list byte)
    (last binCount i : Z) (sum : Q) (count : Z) : Q * Z :=
  match fuel with
  | O => (sum, count)
  | S fuel' =>
      if (i <=? last)%Z && (i <? binCount)%Z
      then band_loop fuel' frequencyData last binCount (i + 1)%Z
             (sum + at_bin frequencyData i) (count + 1)%Z
      else (sum, count)
  end.

Definition getAmplitudeInBand (frequencyData : list byte)
    (startHz endHz rate : Q) : Q :=
  let binCount := Z.of_nat (length frequencyData) in
  let first := startBin frequencyData startHz rate in
  let last := endBin frequencyData endHz rate in
  let '(sum, count) :=
    band_loop (Z.to_nat (binCount - first)) frequencyData
      last binCount first 0 0%Z in
  if (0 <? count)%Z then sum / inject_Z count else 0.

(** The first loop over the five visemes: it fills the [scores] record. *)
Definition set_score (scores : VisemeType -> Q) (v : VisemeType) (x : Q)
  : VisemeType -> Q :=
  fun w => if VisemeType_eqb w v then x else scores w.

Definition score_step (frequencyData : list byte)
    (scores : VisemeType -> Q) (v : VisemeType) : VisemeType -> Q :=
  match FORMANT_RANGES v with
  | None => scores
  | Some formants =>
      let f1Amplitude :=
        getAmplitudeInBand frequencyData
          (fst (f1 formants)) (snd (f1 formants)) sampleRate in
      let f2Amplitude :=
        getAmplitudeInBand frequencyData
          (fst (f2 formants)) (snd (f2 formants)) sampleRate in
      set_score scores v (f1Amplitude + f2Amplitude)
  end.

Definition compute_scores (frequencyData : list byte) : VisemeType -> Q :=
  fold_left (score_step frequencyData) allVisemes (fun _ => 0).

(** The second loop: [if (scores[viseme] > maxScore) ...]. *)
Definition max_step (scores : VisemeType -> Q)
    (acc : Q * VisemeType) (v : VisemeType) : Q * VisemeType :=
  if Qltb (fst acc) (scores v) then (scores v, v) else acc.

Definition find_max (scores : VisemeType -> Q) : Q * VisemeType :=
  fold_left (max_step scores) allVisemes (0, neutral).

Definition totalAmplitude (frequencyData : list byte) : Q :=
  fold_left (fun total b => total + sample b) frequencyData 0.

Definition frequencyToViseme (frequencyData : option (list byte))
  : VisemeEstimate :=
  match frequencyData with
  | None => mkEstimate neutral 0
  | Some [] => mkEstimate neutral 0
  | Some data =>
      let avgAmplitude :=
        totalAmplitude data / inject_Z (Z.of_nat (length data)) in
      if Qltb avgAmplitude 10 then mkEstimate neutral 0
      else
        let scores := compute_scores data in
        let '(maxScore, detectedViseme) := find_max scores in
        let detectedViseme :=
          if Qltb maxScore MIN_SCORE_THRESHOLD then neutral
          else detectedViseme in
        mkEstimate detectedViseme (Qmin 1 (maxScore / 150))
  end.

(** *** The classifier as the specification words it

    Bands are half-open bin ranges [[bin minHz, bin maxHz)] with
    [bin Hz = round (Hz / (sampleRate / 2 / binCount))]; everything else
    is as above.  Used only to compare against [frequencyToViseme]. *)

Definition spec_bin (frequencyData : list byte) (hz : Q) : Z :=
  js_round (hz / binWidth frequencyData sampleRate).

Definition spec_band_mean (frequencyData : list byte) (minHz maxHz : Q) : Q :=
  let lo := Z.to_nat (spec_bin frequencyData minHz) in
  let hi := Z.to_nat (spec_bin frequencyData maxHz) in
  let bins := firstn (hi - lo) (skipn lo frequencyData) in
  match bins with
  | [] => 0
  | _ => fold_right (fun b s => sample b + s) 0 bins
         / inject_Z (Z.of_nat (length bins))
  end.

Definition spec_score (frequencyData : list byte) (v : VisemeType) : Q :=
  match FORMANT_RANGES v with
  | None => 0
  | Some formants =>
      spec_band_mean frequencyData (fst (f1 formants)) (snd (f1 formants))
      + spec_band_mean frequencyData (fst (f2 formants)) (snd (f2 formants))
  end.

Definition spec_classify (frequencyData : option (list byte))
  : VisemeEstimate :=
  match frequencyData with
  | None => mkEstimate neutral 0
  | Some [] => mkEstimate neutral 0
  | Some data =>
      if Qltb (totalAmplitude data / inject_Z (Z.of_nat (length data))) 10
      then mkEstimate neutral 0
      else
        let '(maxScore, best) := find_max (spec_score data) in
        mkEstimate (if Qltb maxScore MIN_SCORE_THRESHOLD then neutral else best)
                   (Qmin 1 (maxScore / 150))
  end.

(** *** Declarative reading of a band

    The bins the loop of [getAmplitudeInBand] visits: indices from
    [floor (startHz / binWidth)] to [ceil (endHz / binWidth)], both
    included, cut at the end of the frame. *)

Definition band_bins (frequencyData : list byte) (startHz endHz : Q)
  : list byte :=
  let first := startBin frequencyData startHz sampleRate in
  let last := endBin frequencyData endHz sampleRate in
  firstn (Z.to_nat (last - first + 1)) (skipn (Z.to_nat first) frequencyData).

Definition sum_samples (bins : list byte) : Q :=
  fold_right (fun b s => sample b + s) 0 bins.

Definition mean_samples (bins : list byte) : Q :=
  match bins with
  | [] => 0
  | _ => sum_samples bins / inject_Z (Z.of_nat (length bins))
  end.

Definition band_score (frequencyData : list byte) (v : VisemeType) : Q :=
  match FORMANT_RANGES v with
  | None => 0
  | Some formants =>
      mean_samples
        (band_bins frequencyData (fst (f1 formants)) (snd (f1 formants)))
      + mean_samples
          (band_bins frequencyData (fst (f2 formants)) (snd (f2 formants)))
  end.

(** The slice the loop still has to visit when its counter is [i]. *)
Definition rest_of_band (frequencyData : list byte) (last i : Z) : list byte :=
  firstn (Z.to_nat (last - i + 1)) (skipn (Z.to_nat i) frequencyData).

(** What the first loop stores for [v], read off the loop body. *)
Definition raw_score (frequencyData : list byte) (v : VisemeType) : Q :=
  match FORMANT_RANGES v with
  | None => 0
  | Some formants =>
      getAmplitudeInBand frequencyData
        (fst (f1 formants)) (snd (f1 formants)) sampleRate
      + getAmplitudeInBand frequencyData
          (fst (f2 formants)) (snd (f2 formants)) sampleRate
  end.

(** Example frames. *)
Definition frame_of (l : list Z) : list byte := map u8 l.

(** 1024 bins at level 10 with a single peak of 255 in bin 66: the bin
    width is 11025/512 Hz, so 1400 Hz falls into bin 65 (at 65.02). *)
Definition frame_peak66 : list byte :=
  frame_of (repeat 10%Z 66 ++ [255%Z] ++ repeat 10%Z 957).

(** 1024 bins: level 5 up to 2.7 kHz, which covers every formant band,
    and level 100 above. *)
Definition frame_high_only : list byte :=
  frame_of (repeat 5%Z 128 ++ repeat 100%Z 896).

(** 1024 bins at level 3. *)
Definition frame_silent : list byte := frame_of (repeat 3%Z 1024).

End Classifier.

(** ** Signal classifier (band and centroid revision) *)

Module LegacyClassifier.

Record FrequencyFeatures : Type := mkFeatures {
  lowFreq : Q;
  midFreq : Q;
  highFreq : Q;
  volume : Q;
  centroid : Q
}.

(** The running sums and counts of the loop of [extractFeatures]. *)
Record Sums : Type := mkSums {
  low : Q; mid : Q; high : Q;
  lowCount : Z; midCount : Z; highCount : Z;
  totalMagnitude : Q;
  weightedSum : Q
}.

Fixpoint features_loop (binWidth : Q) (i : Z) (bins : list byte) (a : Sums)
  : Sums :=
  match bins with
  | [] => a
  | b :: rest =>
      let frequency := inject_Z i * binWidth in
      let magnitude := sample b in
      let total := totalMagnitude a + magnitude in
      let weighted := weightedSum a + frequency * magnitude in
      let a' :=
        if Qltb frequency 500 then
          mkSums (low a + magnitude) (mid a) (high a)
            (lowCount a + 1) (midCount a) (highCount a) total weighted
        else if Qltb frequency 2000 then
          mkSums (low a) (mid a + magnitude) (high a)
            (lowCount a) (midCount a + 1) (highCount a) total weighted
        else if Qltb frequency 8000 then
          mkSums (low a) (mid a) (high a + magnitude)
            (lowCount a) (midCount a) (highCount a + 1) total weighted
        else
          mkSums (low a) (mid a) (high a)
            (lowCount a) (midCount a) (highCount a) total weighted in
      features_loop binWidth (i + 1) rest a'
  end.

Definition average (sum : Q) (count : Z) : Q :=
  if (0 <? count)%Z then sum / inject_Z count else 0.

Definition extractFeatures (frequencyData : list byte) (sampleRate : Q)
  : FrequencyFeatures :=
  let binCount := inject_Z (Z.of_nat (length frequencyData)) in
  let binWidth := (sampleRate / 2) / binCount in
  let a := features_loop binWidth 0 frequencyData
             (mkSums 0 0 0 0 0 0 0 0) in
  mkFeatures
    (average (low a) (lowCount a))
    (average (mid a) (midCount a))
    (average (high a) (highCount a))
    (totalMagnitude a / binCount)
    (if Qltb 0 (totalMagnitude a)
     then weightedSum a / totalMagnitude a else 0).

Definition frequencyToViseme (frequencyData : option (list byte))
  : VisemeEstimate :=
  match frequencyData with
  | None => mkEstimate neutral 0
  | Some [] => mkEstimate neutral 0
  | Some data =>
      let features := extractFeatures data 44100 in
      if Qltb (volume features) 10 then mkEstimate neutral 0
      else
        let intensity := Qmin 1 (volume features / 100) in
        if Qltb 30 (lowFreq features) && Qltb 25 (midFreq features)
           && Qltb (centroid features) 2000
        then mkEstimate aa intensity
        else if Qltb 30 (midFreq features) && Qltb 20 (highFreq features)
                && Qltb 2500 (centroid features)
        then mkEstimate ee intensity
        else if Qltb 25 (midFreq features) && Qltb 1500 (centroid features)
                && Qltb (centroid features) 2500
        then mkEstimate ih intensity
        else if Qltb 35 (lowFreq features) && Qltb 20 (midFreq features)
                && Qltb (highFreq features) 20
        then mkEstimate oh intensity
        else if Qltb 40 (lowFreq features) && Qltb (centroid features) 1500
        then mkEstimate ou intensity
        else mkEstimate neutral (intensity * (1 # 2))
  end.

(** 64 bins, all at level 20: audible, and no rule applies. *)
Definition frame_flat : list byte := map u8 (repeat 20%Z 64).

End LegacyClassifier.

(** ** Temporal smoother (weighted scoring revision) *)

Module Smoother.

Record HistoryEntry : Type := mkEntry {
  entry_viseme : VisemeType;
  entry_intensity : Q;
  timestamp : Z
}.

Record VisemeSmoother : Type := mkSmoother {
  history : list HistoryEntry;
  lastViseme : VisemeType;
  lastVisemeTime : Z
}.

Definition historySize : nat := 3.
Definition minDuration : Z := 30.

(** A freshly constructed smoother; [reset] puts it back there. *)
Definition initial : VisemeSmoother := mkSmoother [] neutral 0.
Definition reset (_ : VisemeSmoother) : VisemeSmoother := initial.

(** The [Map<VisemeType, number>] of scores: iteration follows the order
    in which keys were first inserted. *)
Definition ScoreMap : Type := list (VisemeType * Q).

Fixpoint map_get (scores : ScoreMap) (v : VisemeType) : option Q :=
  match scores with
  | [] => None
  | (w, x) :: rest => if VisemeType_eqb w v then Some x else map_get rest v
  end.

Fixpoint map_set (scores : ScoreMap) (v : VisemeType) (x : Q) : ScoreMap :=
  match scores with
  | [] => [(v, x)]
  | (w, y) :: rest =>
      if VisemeType_eqb w v then (w, x) :: rest
      else (w, y) :: map_set rest v x
  end.

(** [weight = (i + 1) / this.history.length]. *)
Definition weight (len i : nat) : Q :=
  inject_Z (Z.of_nat i + 1) / inject_Z (Z.of_nat len).

(** The scoring loop over the history, from index [i] on. *)
Fixpoint score_loop (len i : nat) (entries : list HistoryEntry)
    (scores : ScoreMap) (totalIntensity : Q) : ScoreMap * Q :=
  match entries with
  | [] => (scores, totalIntensity)
  | entry :: rest =>
      let currentScore :=
        match map_get scores (entry_viseme entry) with
        | Some x => x
        | None => 0
        end + weight len i in
      score_loop len (S i) rest
        (map_set scores (entry_viseme entry) currentScore)
        (totalIntensity + entry_intensity entry * weight len i)
  end.

(** The loop [for (const [v, score] of scores.entries())]. *)
Definition best_step (acc : Q * VisemeType) (kv : VisemeType * Q)
  : Q * VisemeType :=
  if Qltb (fst acc) (snd kv) then (snd kv, fst kv) else acc.

Definition best_loop (scores : ScoreMap) : Q * VisemeType :=
  fold_left best_step scores (0, neutral).

(** [bestViseme] for a history: the recency-weighted candidate. *)
Definition bestViseme (h : list HistoryEntry) : VisemeType :=
  snd (best_loop (fst (score_loop (length h) 0 h [] 0))).

(** [totalIntensity] for a history. *)
Definition totalIntensity (h : list HistoryEntry) : Q :=
  snd (score_loop (length h) 0 h [] 0).

(** [history[i]]; the guard [length >= 2] keeps both reads below in range. *)
Definition entry_at (h : list HistoryEntry) (i : Z) : option HistoryEntry :=
  if (i <? 0)%Z then None else nth_error h (Z.to_nat i).

(** [history[length - 1].viseme === history[length - 2].viseme]. *)
Definition last_two_agree (h : list HistoryEntry) : bool :=
  let len := Z.of_nat (length h) in
  match entry_at h (len - 1), entry_at h (len - 2) with
  | Some e2, Some e1 => VisemeType_eqb (entry_viseme e2) (entry_viseme e1)
  | _, _ => false
  end.

(** [history.push(...)] followed by the trimming [shift]. *)
Definition push (h : list HistoryEntry) (e : HistoryEntry)
  : list HistoryEntry :=
  let h1 := h ++ [e] in
  if (historySize <? length h1)%nat then tl h1 else h1.

Definition shouldChange (s : VisemeSmoother) (h : list HistoryEntry)
    (intensity : Q) (now : Z) : bool :=
  Qltb (1 # 2) intensity
  || (negb (VisemeType_eqb (bestViseme h) (lastViseme s))
      && (minDuration <? now - lastVisemeTime s)%Z)
  || ((2 <=? length h)%nat && last_two_agree h).

(** [add(viseme, intensity)], with [Date.now()] passed in as [now]. *)
Definition add (s : VisemeSmoother) (v : VisemeType) (intensity : Q)
    (now : Z) : VisemeSmoother * VisemeEstimate :=
  let h := push (history s) (mkEntry v intensity now) in
  if (length h <? 2)%nat then
    (mkSmoother h (lastViseme s) (lastVisemeTime s), mkEstimate v intensity)
  else
    let s' :=
      if shouldChange s h intensity now
      then mkSmoother h (bestViseme h) now
      else mkSmoother h (lastViseme s) (lastVisemeTime s) in
    let avgIntensity := totalIntensity h / inject_Z (Z.of_nat (length h)) in
    (s', mkEstimate (lastViseme s') avgIntensity).

(** Feeding a sequence of (viseme, intensity, time) samples. *)
Fixpoint feed (s : VisemeSmoother) (samples : list (VisemeType * Q * Z))
  : VisemeSmoother * list VisemeEstimate :=
  match samples with
  | [] => (s, [])
  | (v, x, now) :: rest =>
      let '(s1, out) := add s v x now in
      let '(s2, outs) := feed s1 rest in
      (s2, out :: outs)
  end.

(** *** The weighted average as the specification words it

    The average of [xs] where the i-th oldest value carries weight
    [(i + 1) / k]: the weighted sum divided by the sum of the weights. *)

Fixpoint weighted_sums (k : Q) (i : nat) (xs : list Q) : Q * Q :=
  match xs with
  | [] => (0, 0)
  | x :: rest =>
      let w := inject_Z (Z.of_nat i + 1) / k in
      let '(sx, sw) := weighted_sums k (S i) rest in
      (w * x + sx, w + sw)
  end.

Definition weighted_average (k : Q) (xs : list Q) : Q :=
  let '(sx, sw) := weighted_sums k 0 xs in sx / sw.

(** What [add] reports instead: the weighted sum divided by the length. *)
Fixpoint weighted_sum (len i : nat) (xs : list Q) : Q :=
  match xs with
  | [] => 0
  | x :: rest => x * weight len i + weighted_sum len (S i) rest
  end.

(** Example runs. *)
Definition steady_aa : list (VisemeType * Q * Z) :=
  [(aa, 3 # 5, 0%Z); (aa, 3 # 5, 16%Z); (aa, 3 # 5, 32%Z)].

(** Holding 'ee' since t = 100, with one 'aa' frame already seen. *)
Definition held_ee_aa : VisemeSmoother :=
  mkSmoother [mkEntry ee (1 # 5) 100%Z; mkEntry aa (1 # 5) 116%Z] ee 100%Z.

End Smoother.

(** ** Blink state machine *)

Module Blink.

Inductive BlinkState : Set := idle | closing | opening.

Record BlinkController : Type := mkBlink {
  state : BlinkState;
  blinkValue : Q;
  lastBlinkTime : Z;
  blinkStartTime : Z
}.

Definition minCooldown : Z := 2000.
Definition maxCooldown : Z := 4000.
Definition closeDuration : Z := 50.
Definition openDuration : Z := 100.
Definition pauseThreshold : Q := 15 # 100.
Definition blinkChance : Q := 3 # 10.

(** [new BlinkController()] at time [now]. *)
Definition constructor (now : Z) : BlinkController := mkBlink idle 0 now 0.

Definition easeInQuad (t : Q) : Q := t * t.
Definition easeOutQuad (t : Q) : Q := t * (2 - t).

Definition startBlink (c : BlinkController) (now : Z) : BlinkController :=
  mkBlink closing (blinkValue c) now now.

(** [Math.min(1, elapsed / duration)]. *)
Definition progress (elapsed duration : Z) : Q :=
  Qmin 1 (inject_Z elapsed / inject_Z duration).

Definition updateBlinkAnimation (c : BlinkController) (now : Z)
  : BlinkController :=
  let elapsed := (now - blinkStartTime c)%Z in
  match state c with
  | closing =>
      let p := progress elapsed closeDuration in
      if Qle_bool 1 p
      then mkBlink opening (easeInQuad p) (lastBlinkTime c) now
      else mkBlink closing (easeInQuad p) (lastBlinkTime c) (blinkStartTime c)
  | opening =>
      let p := progress elapsed openDuration in
      if Qle_bool 1 p
      then mkBlink idle 0 (lastBlinkTime c) (blinkStartTime c)
      else mkBlink opening (1 - easeOutQuad p) (lastBlinkTime c)
             (blinkStartTime c)
  | idle => c
  end.

(** One frame's inputs: the audio intensity, [Date.now()], and the values
    the two [Math.random()] draws of [update] yield when they are made. *)
Record Tick : Type := mkTick {
  tick_audio : Q;
  tick_now : Z;
  tick_rnd1 : Q;
  tick_rnd2 : Q
}.

Definition update (c : BlinkController) (t : Tick) : BlinkController * Q :=
  let now := tick_now t in
  let timeSinceLastBlink := (now - lastBlinkTime c)%Z in
  match state c with
  | idle =>
      let cooldownPassed := (minCooldown <? timeSinceLastBlink)%Z in
      let isInPause := Qltb (tick_audio t) pauseThreshold in
      let shouldBlink :=
        cooldownPassed && isInPause && Qltb (tick_rnd1 t) blinkChance in
      let forceBlink :=
        (maxCooldown <? timeSinceLastBlink)%Z && Qltb (tick_rnd2 t) (1 # 2) in
      let c' := if shouldBlink || forceBlink then startBlink c now else c in
      (c', blinkValue c')
  | _ =>
      let c' := updateBlinkAnimation c now in
      (c', blinkValue c')
  end.

Definition reset (c : BlinkController) (now : Z) : BlinkController :=
  mkBlink idle 0 now (blinkStartTime c).

(** The controllers a program can hold. *)
Inductive reachable : BlinkController -> Prop :=
| reach_new (now : Z) : reachable (constructor now)
| reach_update (c : BlinkController) (t : Tick) :
    reachable c -> reachable (fst (update c t))
| reach_reset (c : BlinkController) (now : Z) :
    reachable c -> reachable (reset c now).

(** The controller after each of a sequence of frames, with the frame's
    time, up to and including the frame at which it is idle again. *)
Fixpoint cycle (c : BlinkController) (ticks : list Tick)
  : list (Z * BlinkController) :=
  match ticks with
  | [] => []
  | t :: rest =>
      let c' := fst (update c t) in
      (tick_now t, c')
      :: match state c' with
         | idle => []
         | _ => cycle c' rest
         end
  end.

(** The time at which a cycle is over, if the observations reach it. *)
Definition cycle_end (obs : list (Z * BlinkController)) : option Z :=
  match last obs with
  | Some (t, c) => match state c with idle => Some t | _ => None end
  | None => None
  end.

Definition non_decreasing (l : list Q) : Prop := Sorted Qle l.
Definition non_increasing (l : list Q) : Prop :=
  Sorted (fun a b => b <= a) l.

(** Frames every 16 ms. *)
Definition frames_from (t0 : Z) (n : nat) : list Tick :=
  map (fun k => mkTick 0 (t0 + 16 * Z.of_nat k) 0 0) (seq 1 n).

(** A controller built at time 0 whose blink is started by [update] at
    time 5000, the maximum cooldown having passed. *)
Definition started_at_5000 : BlinkController :=
  fst (update (constructor 0) (mkTick 0 5000 0 0)).

End Blink.

(** ** Animation blend controller *)

Module Blend.

Inductive AnimationType : Set :=
  idle | greeting | waveHipHop | northernSoulSpin.

Definition AnimationType_eqb (a b : AnimationType) : bool :=
  match a, b with
  | idle, idle | greeting, greeting | waveHipHop, waveHipHop
  | northernSoulSpin, northernSoulSpin => true
  | _, _ => false
  end.

(** The part of three.js's [AnimationAction] that [playAnimation] and its
    deferred cleanup call: two queries, two field writes and seven
    methods.  The library is not part of the sources; an action is any
    type with these operations. *)
Class AnimationAction (A : Type) : Type := {
  isRunning : A -> bool;
  paused : A -> bool;
  set_enabled : bool -> A -> A;
  set_paused : bool -> A -> A;
  fadeOut : Q -> A -> A;
  fadeIn : Q -> A -> A;
  stop : A -> A;
  reset : A -> A;
  play : A -> A;
  setEffectiveTimeScale : Q -> A -> A;
  setEffectiveWeight : Q -> A -> A
}.

(** What reaches the console from the two functions below. *)
Inductive ConsoleEvent : Type :=
| TriggerReceived (animation : string)
| UnknownAnimation (animation : string)
| TransitionStart (type : AnimationType)
| ActionState (key : AnimationType)
| FadingOutAndStopping (key : AnimationType)
| RestartingIdle
| FadingInIdle
| FadingOutIdle
| Resetting (type : AnimationType)
| FadingIn (type : AnimationType)
| TransitionStarted (type : AnimationType)
| CleanupComplete (key : AnimationType).

(** A pending [setTimeout]: the delay in milliseconds and the action the
    cleanup closure was created for. *)
Record Timer : Type := mkTimer {
  delay_ms : Q;
  timer_key : AnimationType
}.

Section Scene.

Context {A : Type} `{AnimationAction A}.

(** The refs of the scene component, the timers it has scheduled and the
    console output so far. *)
Record Scene : Type := mkScene {
  playAnimationRef : bool;
  idleActionRef : option A;
  greetingActionRef : option A;
  waveHipHopActionRef : option A;
  northernSoulSpinActionRef : option A;
  timers : list Timer;
  console : list ConsoleEvent
}.

(** [animationActions[type]]. *)
Definition action_of (sc : Scene) (type : AnimationType) : option A :=
  match type with
  | idle => idleActionRef sc
  | greeting => greetingActionRef sc
  | waveHipHop => waveHipHopActionRef sc
  | northernSoulSpin => northernSoulSpinActionRef sc
  end.

(** Mutating the action object held under [type]. *)
Definition set_action (sc : Scene) (type : AnimationType) (a : A) : Scene :=
  match type with
  | idle =>
      mkScene (playAnimationRef sc) (Some a) (greetingActionRef sc)
        (waveHipHopActionRef sc) (northernSoulSpinActionRef sc)
        (timers sc) (console sc)
  | greeting =>
      mkScene (playAnimationRef sc) (idleActionRef sc) (Some a)
        (waveHipHopActionRef sc) (northernSoulSpinActionRef sc)
        (timers sc) (console sc)
  | waveHipHop =>
      mkScene (playAnimationRef sc) (idleActionRef sc) (greetingActionRef sc)
        (Some a) (northernSoulSpinActionRef sc) (timers sc) (console sc)
  | northernSoulSpin =>
      mkScene (playAnimationRef sc) (idleActionRef sc) (greetingActionRef sc)
        (waveHipHopActionRef sc) (Some a) (timers sc) (console sc)
  end.

Definition update_action (sc : Scene) (type : AnimationType) (f : A -> A)
  : Scene :=
  match action_of sc type with
  | Some a => set_action sc type (f a)
  | None => sc
  end.

Definition log (e : ConsoleEvent) (sc : Scene) : Scene :=
  mkScene (playAnimationRef sc) (idleActionRef sc) (greetingActionRef sc)
    (waveHipHopActionRef sc) (northernSoulSpinActionRef sc)
    (timers sc) (console sc ++ [e]).

Definition setTimeout (key : AnimationType) (ms : Q) (sc : Scene) : Scene :=
  mkScene (playAnimationRef sc) (idleActionRef sc) (greetingActionRef sc)
    (waveHipHopActionRef sc) (northernSoulSpinActionRef sc)
    (timers sc ++ [mkTimer ms key]) (console sc).

(** The keys of [animationActions], in the order [Object.entries] yields. *)
Definition entries : list AnimationType :=
  [idle; greeting; waveHipHop; northernSoulSpin].

(** The body of the [forEach] that fades the one-shot actions out. *)
Definition fade_out_one_shot (crossfadeDuration : Q) (sc : Scene)
    (key : AnimationType) : Scene :=
  match action_of sc key with
  | Some action =>
      if negb (AnimationType_eqb key idle) then
        let isActive := isRunning action || paused action in
        if isActive then
          let sc := log (FadingOutAndStopping key) sc in
          let sc := update_action sc key (fadeOut crossfadeDuration) in
          setTimeout key (crossfadeDuration * 1000) sc
        else sc
      else sc
  | None => sc
  end.

(** The body of the [forEach] that logs the state of every action. *)
Definition log_state (sc : Scene) (key : AnimationType) : Scene :=
  match action_of sc key with
  | Some _ => log (ActionState key) sc
  | None => sc
  end.

(** The closure handed to [setTimeout]. *)
Definition cleanup (action : A) : A :=
  reset (stop (set_paused false (set_enabled false action))).

Definition playAnimation (type : AnimationType) (crossfadeDuration : Q)
    (sc : Scene) : Scene :=
  match action_of sc type with
  | None => sc
  | Some newAction =>
      let sc := log (TransitionStart type) sc in
      let sc := fold_left log_state entries sc in
      let sc :=
        match type with
        | idle =>
            let sc :=
              fold_left (fade_out_one_shot crossfadeDuration) entries sc in
            if negb (isRunning newAction)
            then update_action (log RestartingIdle sc) idle play
            else log FadingInIdle sc
        | _ =>
            let sc :=
              match idleActionRef sc with
              | Some idleAction =>
                  if isRunning idleAction
                  then update_action (log FadingOutIdle sc) idle
                         (fadeOut crossfadeDuration)
                  else sc
              | None => sc
              end in
            update_action (log (Resetting type) sc) type reset
        end in
      let sc := update_action sc type (set_enabled true) in
      let sc := update_action sc type (setEffectiveTimeScale 1) in
      let sc := update_action sc type (setEffectiveWeight 1) in
      let sc := log (FadingIn type) sc in
      let sc := update_action sc type (fadeIn crossfadeDuration) in
      let sc :=
        match type with
        | idle => sc
        | _ => update_action sc type play
        end in
      log (TransitionStarted type) sc
  end.

(** The closure of timer [t] runs, on the action it captured. *)
Definition fire (t : Timer) (sc : Scene) : Scene :=
  log (CleanupComplete (timer_key t)) (update_action sc (timer_key t) cleanup).

(** A one-shot action that is running or paused. *)
Definition is_active (sc : Scene) (key : AnimationType) : bool :=
  match action_of sc key with
  | Some action => isRunning action || paused action
  | None => false
  end.

Definition one_shots : list AnimationType :=
  [greeting; waveHipHop; northernSoulSpin].

Definition selectNextAnimation : AnimationType := idle.

(** The mixer's 'finished' listener. *)
Definition onFinished (sc : Scene) : Scene :=
  playAnimation selectNextAnimation (1 # 2) sc.

End Scene.

Arguments Scene A : clear implicits.

(** *** Animation triggers *)

Definition lower_ascii (c : ascii) : ascii :=
  let n := nat_of_ascii c in
  if (65 <=? n)%nat && (n <=? 90)%nat then ascii_of_nat (n + 32) else c.

(** [String.prototype.toLowerCase]; the keys of [animationMap] are made
    of ASCII letters no other character lowers to. *)
Fixpoint toLowerCase (s : string) : string :=
  match s with
  | EmptyString => EmptyString
  | String c rest => String (lower_ascii c) (toLowerCase rest)
  end.

(** What [animationMap[name]] evaluates to: one of the literal's own six
    entries, or a member inherited from [Object.prototype] (a function or
    an object: truthy, and no key of [animationActions]), or undefined.
    Of the inherited names only these two are lower case. *)
Inductive Lookup : Type :=
| Own (type : AnimationType)
| Inherited
| Undefined.

Definition animationMap (name : string) : Lookup :=
  if String.eqb name "greeting" then Own greeting
  else if String.eqb name "idle" then Own idle
  else if String.eqb name "hiphopdance" then Own waveHipHop
  else if String.eqb name "wavehiphopdance" then Own waveHipHop
  else if String.eqb name "northernsoulspin" then Own northernSoulSpin
  else if String.eqb name "spin" then Own northernSoulSpin
  else if String.eqb name "constructor" then Inherited
  else if String.eqb name "__proto__" then Inherited
  else Undefined.

Record AnimationTrigger : Type := mkTrigger {
  animation : string;
  trigger_timestamp : Z
}.

(** The effect that runs when the [animationTrigger] prop changes. *)
Definition onAnimationTrigger {A : Type} `{AnimationAction A}
    (animationTrigger : option AnimationTrigger) (sc : Scene A) : Scene A :=
  match animationTrigger with
  | None => sc
  | Some trigger =>
      if negb (playAnimationRef sc) then sc
      else
        let sc := log (TriggerReceived (animation trigger)) sc in
        match animationMap (toLowerCase (animation trigger)) with
        | Own animationType => playAnimation animationType (1 # 2) sc
        | Inherited => sc
        | Undefined => log (UnknownAnimation (animation trigger)) sc
        end
  end.

(** *** The timeline

    [setTimeout(f, ms)] called at time [t] has the browser run [f] at
    [t + ms]: timers that are due run in the order of their due times,
    and in the order they were queued when these are equal.  Nothing in
    the component calls [clearTimeout].  The browser is not part of the
    sources; this is the part of it the deferred cleanup relies on.
    Times are in milliseconds. *)

Record Pending : Type := mkPending {
  due_ms : Q;
  pending_timer : Timer
}.

(** The scene and the timers that have not run yet. *)
Record Page (A : Type) : Type := mkPage {
  page_scene : Scene A;
  pending : list Pending
}.

Arguments mkPage {A} _ _.
Arguments page_scene {A} _.
Arguments pending {A} _.

(** A call [playAnimation(type, d)] made at time [at_ms]: the timers it
    queues become due their delay later. *)
Definition request {A : Type} `{AnimationAction A}
    (at_ms : Q) (type : AnimationType) (d : Q) (p : Page A) : Page A :=
  let sc := playAnimation type d (page_scene p) in
  let queued := skipn (length (timers (page_scene p))) (timers sc) in
  mkPage sc
    (pending p ++ map (fun t => mkPending (at_ms + delay_ms t) t) queued).

Fixpoint insert_due (x : Pending) (l : list Pending) : list Pending :=
  match l with
  | [] => [x]
  | y :: rest =>
      if Qle_bool (due_ms x) (due_ms y) then x :: y :: rest
      else y :: insert_due x rest
  end.

(** Pending timers in the order they run. *)
Definition by_due (l : list Pending) : list Pending :=
  fold_right insert_due [] l.

(** The clock reaches [now_ms]: the timers due by then run, the others
    stay pending. *)
Definition elapse {A : Type} `{AnimationAction A}
    (now_ms : Q) (p : Page A) : Page A :=
  let ready :=
    by_due (List.filter (fun x => Qle_bool (due_ms x) now_ms) (pending p)) in
  mkPage
    (fold_left (fun sc x => fire (pending_timer x) sc) ready (page_scene p))
    (List.filter (fun x => negb (Qle_bool (due_ms x) now_ms)) (pending p)).

(** The pending cleanup of [key] queued by a request made at [at_ms]
    with fade length [d] (in seconds). *)
Definition cleanup_at (at_ms d : Q) (key : AnimationType) : Pending :=
  mkPending (at_ms + d * 1000) (mkTimer (d * 1000) key).

(** *** A recording action

    An implementation of the interface that keeps its two flags and the
    list of calls made on it, for running examples. *)

Inductive Call : Type :=
| CallEnabled (b : bool)
| CallPaused (b : bool)
| CallFadeOut (d : Q)
| CallFadeIn (d : Q)
| CallStop
| CallReset
| CallPlay
| CallTimeScale (s : Q)
| CallWeight (w : Q).

Record Recorder : Type := mkRecorder {
  rec_running : bool;
  rec_paused : bool;
  calls : list Call
}.

Definition record (c : Call) (r : Recorder) : Recorder :=
  mkRecorder (rec_running r) (rec_paused r) (calls r ++ [c]).

#[export] Instance Recorder_action : AnimationAction Recorder := {
  isRunning := rec_running;
  paused := rec_paused;
  set_enabled b := record (CallEnabled b);
  set_paused b r := mkRecorder (rec_running r) b (calls r ++ [CallPaused b]);
  fadeOut d := record (CallFadeOut d);
  fadeIn d := record (CallFadeIn d);
  stop r := mkRecorder false (rec_paused r) (calls r ++ [CallStop]);
  reset r := mkRecorder (rec_running r) false (calls r ++ [CallReset]);
  play r := mkRecorder true (rec_paused r) (calls r ++ [CallPlay]);
  setEffectiveTimeScale s := record (CallTimeScale s);
  setEffectiveWeight w := record (CallWeight w)
}.

(** Idle running, the greeting held on its last frame (paused), the
    hip-hop dance running, the spin never started. *)
Definition busy_scene : Scene Recorder :=
  mkScene true
    (Some (mkRecorder true false []))
    (Some (mkRecorder false true []))
    (Some (mkRecorder true false []))
    (Some (mkRecorder false false []))
    [] [].

(** The background is requested at 0 ms and again at 300 ms, each time
    with a fade of half a second, and the clock reaches 500 ms. *)
Definition idle_requested_twice : Page Recorder :=
  elapse 500
    (request 300 idle (1 # 2)
       (elapse 300
          (request 0 idle (1 # 2) (mkPage busy_scene [])))).

(** Only the idle clip was registered. *)
Definition idle_only_scene : Scene Recorder :=
  mkScene true (Some (mkRecorder true false [])) None None None [] [].

(** The greeting was started, the background was requested while it
    played, and the greeting was requested again before the cleanup
    timer fired. *)
Definition greeting_restarted : Scene Recorder :=
  playAnimation greeting (1 # 2)
    (playAnimation idle (1 # 2)
       (mkScene true
          (Some (mkRecorder true false []))
          (Some (mkRecorder true false []))
          None None [] [])).

End Blend.

(** ** The expression update of the frame loop *)

Module Animate.

(** The expression manager's weights, by expression name. *)
Definition setValue (name : string) (weight : Q) (m : gmap string Q)
  : gmap string Q :=
  <[name := weight]> m.

Definition viseme_name (v : VisemeType) : string :=
  match v with
  | aa => "aa"
  | ee => "ee"
  | ih => "ih"
  | oh => "oh"
  | ou => "ou"
  | neutral => "neutral"
  end.

(** The [setValue] calls of one frame, in program order: the reset of
    all five visemes, the current viseme, the blink. *)
Definition expression_calls (smoothedViseme : VisemeEstimate)
    (blinkValue : Q) : list (string * Q) :=
  map (fun v => (viseme_name v, 0)) allVisemes
  ++ (if negb (VisemeType_eqb (viseme smoothedViseme) neutral)
         && Qltb (1 # 10) (intensity smoothedViseme)
      then [(viseme_name (viseme smoothedViseme), intensity smoothedViseme)]
      else [])
  ++ (if Qltb 0 blinkValue then [("blink", blinkValue)] else []).

Definition apply_calls (calls : list (string * Q)) (m : gmap string Q)
  : gmap string Q :=
  fold_left (fun m call => setValue (fst call) (snd call) m) calls m.

(** The state the frame loop carries between frames. *)
Record Avatar : Type := mkAvatar {
  visemeSmoother : Smoother.VisemeSmoother;
  blinkController : Blink.BlinkController;
  expressions : gmap string Q
}.

(** One pass of [animate] over a loaded avatar: classify the frame,
    smooth, blink, write the expression weights.  [now] is the time the
    smoother reads, [t] carries the time and the random draws of the
    blink controller; its audio intensity is the smoothed one. *)
Definition animate (frequencyData : option (list byte)) (now : Z)
    (t : Blink.Tick) (av : Avatar) : Avatar :=
  let rawViseme := Classifier.frequencyToViseme frequencyData in
  let '(smoother, smoothedViseme) :=
    Smoother.add (visemeSmoother av) (viseme rawViseme) (intensity rawViseme)
      now in
  let '(blink, blinkValue) :=
    Blink.update (blinkController av)
      (Blink.mkTick (intensity smoothedViseme) (Blink.tick_now t)
         (Blink.tick_rnd1 t) (Blink.tick_rnd2 t)) in
  mkAvatar smoother blink
    (apply_calls (expression_calls smoothedViseme blinkValue)
       (expressions av)).

(** What the smoother reports in a call of [animate]. *)
Definition smoothed (frequencyData : option (list byte)) (now : Z)
    (av : Avatar) : VisemeEstimate :=
  let rawViseme := Classifier.frequencyToViseme frequencyData in
  snd (Smoother.add (visemeSmoother av) (viseme rawViseme)
         (intensity rawViseme) now).

(** The blink value [update] returns in a call of [animate]. *)
Definition blinked (frequencyData : option (list byte)) (now : Z)
    (t : Blink.Tick) (av : Avatar) : Q :=
  snd (Blink.update (blinkController av)
         (Blink.mkTick (intensity (smoothed frequencyData now av))
            (Blink.tick_now t) (Blink.tick_rnd1 t) (Blink.tick_rnd2 t))).

(** A fresh avatar, a silent frame, and a soft voiced frame: 16 bins at
    level 12. *)
Definition fresh : Avatar :=
  mkAvatar Smoother.initial (Blink.constructor 0) ∅.

Definition frame_soft : list byte := Classifier.frame_of (repeat 12%Z 16).

Definition frame_quiet : list byte := Classifier.frame_of (repeat 0%Z 16).

(** The avatar after one silent frame at t = 1000. *)
Definition after_silence : Avatar :=
  animate (Some frame_quiet) 1000 (Blink.mkTick 0 1000 (1 # 2) (1 # 2)) fresh.

Definition soft_tick : Blink.Tick := Blink.mkTick 0 1016 (1 # 2) (1 # 2).

End Animate.

(** ** Skeletal retargeter *)

Module Retarget.

(** *** Numbers with the non-finite values

    The retargeter divides by a height that may be [undefined] or zero.
    [undefined] in arithmetic behaves as [NaN].  Signed zeros are not
    distinguished. *)

Inductive num : Type := Fin (q : Q) | PosInf | NegInf | NaN.

Definition of_undefined (x : option Q) : num :=
  match x with
  | Some q => Fin q
  | None => NaN
  end.

Definition nneg (a : num) : num :=
  match a with
  | Fin q => Fin (- q)
  | PosInf => NegInf
  | NegInf => PosInf
  | NaN => NaN
  end.

Definition nabs (a : num) : num :=
  match a with
  | Fin q => Fin (Qabs q)
  | PosInf | NegInf => PosInf
  | NaN => NaN
  end.

Definition nadd (a b : num) : num :=
  match a, b with
  | NaN, _ | _, NaN => NaN
  | Fin x, Fin y => Fin (x + y)
  | PosInf, NegInf | NegInf, PosInf => NaN
  | PosInf, _ | _, PosInf => PosInf
  | NegInf, _ | _, NegInf => NegInf
  end.

Definition nsub (a b : num) : num := nadd a (nneg b).

(** The sign of a number: [Lt] negative, [Eq] zero, [Gt] positive. *)
Definition sign (a : num) : option comparison :=
  match a with
  | Fin q => Some (q ?= 0)
  | PosInf => Some Gt
  | NegInf => Some Lt
  | NaN => None
  end.

Definition signed_inf (sa sb : comparison) : num :=
  match sa, sb with
  | Eq, _ | _, Eq => NaN
  | Gt, Gt | Lt, Lt => PosInf
  | _, _ => NegInf
  end.

Definition nmul (a b : num) : num :=
  match a, b with
  | Fin x, Fin y => Fin (x * y)
  | _, _ =>
      match sign a, sign b with
      | Some sa, Some sb => signed_inf sa sb
      | _, _ => NaN
      end
  end.

Definition ndiv (a b : num) : num :=
  match a, b with
  | NaN, _ | _, NaN => NaN
  | Fin x, Fin y =>
      match y ?= 0 with
      | Eq => match x ?= 0 with Eq => NaN | Gt => PosInf | Lt => NegInf end
      | _ => Fin (x / y)
      end
  | Fin _, _ => Fin 0
  | _, Fin y =>
      match a, y ?= 0 with
      | PosInf, Lt | NegInf, Gt | NegInf, Eq => NegInf
      | _, _ => PosInf
      end
  | _, _ => NaN
  end.

(** *** Quaternions

    [THREE.Quaternion] supplies the product and the inverse; the library
    is not part of the sources, so both are operations of an interface. *)

Record quat : Type := mkQuat { qx : num; qy : num; qz : num; qw : num }.

Class QuaternionOps : Type := {
  multiplyQuaternions : quat -> quat -> quat;
  invert : quat -> quat
}.

(** [new THREE.Quaternion()]. *)
Definition identity : quat := mkQuat (Fin 0) (Fin 0) (Fin 0) (Fin 1).

(** The Hamilton product and the conjugate, for running examples. *)
Definition hamilton (a b : quat) : quat :=
  mkQuat
    (nadd (nadd (nmul (qx a) (qw b)) (nmul (qw a) (qx b)))
          (nsub (nmul (qy a) (qz b)) (nmul (qz a) (qy b))))
    (nadd (nadd (nmul (qy a) (qw b)) (nmul (qw a) (qy b)))
          (nsub (nmul (qz a) (qx b)) (nmul (qx a) (qz b))))
    (nadd (nadd (nmul (qz a) (qw b)) (nmul (qw a) (qz b)))
          (nsub (nmul (qx a) (qy b)) (nmul (qy a) (qx b))))
    (nsub (nsub (nsub (nmul (qw a) (qw b)) (nmul (qx a) (qx b)))
                (nmul (qy a) (qy b)))
          (nmul (qz a) (qz b))).

Definition conjugate (q : quat) : quat :=
  mkQuat (nneg (qx q)) (nneg (qy q)) (nneg (qz q)) (qw q).

#[export] Instance Hamilton : QuaternionOps := {
  multiplyQuaternions := hamilton;
  invert := conjugate
}.

(** *** The donor asset and the target model *)

Inductive TrackKind : Set :=
  QuaternionKeyframeTrack | VectorKeyframeTrack | OtherKeyframeTrack.

Record KeyframeTrack : Type := mkTrack {
  name : string;
  kind : TrackKind;
  times : list Q;
  values : list num
}.

Record AnimationClip : Type := mkClip {
  clip_name : string;
  duration : Q;
  tracks : list KeyframeTrack
}.

(** A node of the FBX scene graph, as far as the retargeter reads it. *)
Record RigNode : Type := mkNode {
  position_y : Q;
  worldQuaternion : quat;
  parentWorldQuaternion : option quat
}.

(** The loaded FBX group: [getObjectByName] and [animations]. *)
Record Asset : Type := mkAsset {
  objects : gmap string RigNode;
  animations : list AnimationClip
}.

Record BoneNode : Type := mkBone {
  bone_name : string;
  bone_world_y : Q
}.

(** The target model: [meta?.metaVersion], [humanoid] with its normalized
    bone nodes, and the world height of [scene]. *)
Record VRM : Type := mkVRM {
  metaVersion : option string;
  humanoid : option (gmap string BoneNode);
  scene_world_y : Q
}.

Definition getNormalizedBoneNode (vrm : VRM) (bone : string)
  : option BoneNode :=
  match humanoid vrm with
  | Some bones => bones !! bone
  | None => None
  end.

Definition mixamoVRMRigMap : gmap string string :=
  list_to_map
    [("mixamorigHips", "hips"); ("mixamorigSpine", "spine");
     ("mixamorigSpine1", "chest"); ("mixamorigSpine2", "upperChest");
     ("mixamorigNeck", "neck"); ("mixamorigHead", "head");
     ("mixamorigLeftShoulder", "leftShoulder");
     ("mixamorigLeftArm", "leftUpperArm");
     ("mixamorigLeftForeArm", "leftLowerArm");
     ("mixamorigLeftHand", "leftHand");
     ("mixamorigLeftHandThumb1", "leftThumbMetacarpal");
     ("mixamorigLeftHandThumb2", "leftThumbProximal");
     ("mixamorigLeftHandThumb3", "leftThumbDistal");
     ("mixamorigLeftHandIndex1", "leftIndexProximal");
     ("mixamorigLeftHandIndex2", "leftIndexIntermediate");
     ("mixamorigLeftHandIndex3", "leftIndexDistal");
     ("mixamorigLeftHandMiddle1", "leftMiddleProximal");
     ("mixamorigLeftHandMiddle2", "leftMiddleIntermediate");
     ("mixamorigLeftHandMiddle3", "leftMiddleDistal");
     ("mixamorigLeftHandRing1", "leftRingProximal");
     ("mixamorigLeftHandRing2", "leftRingIntermediate");
     ("mixamorigLeftHandRing3", "leftRingDistal");
     ("mixamorigLeftHandPinky1", "leftLittleProximal");
     ("mixamorigLeftHandPinky2", "leftLittleIntermediate");
     ("mixamorigLeftHandPinky3", "leftLittleDistal");
     ("mixamorigRightShoulder", "rightShoulder");
     ("mixamorigRightArm", "rightUpperArm");
     ("mixamorigRightForeArm", "rightLowerArm");
     ("mixamorigRightHand", "rightHand");
     ("mixamorigRightHandPinky1", "rightLittleProximal");
     ("mixamorigRightHandPinky2", "rightLittleIntermediate");
     ("mixamorigRightHandPinky3", "rightLittleDistal");
     ("mixamorigRightHandRing1", "rightRingProximal");
     ("mixamorigRightHandRing2", "rightRingIntermediate");
     ("mixamorigRightHandRing3", "rightRingDistal");
     ("mixamorigRightHandMiddle1", "rightMiddleProximal");
     ("mixamorigRightHandMiddle2", "rightMiddleIntermediate");
     ("mixamorigRightHandMiddle3", "rightMiddleDistal");
     ("mixamorigRightHandIndex1", "rightIndexProximal");
     ("mixamorigRightHandIndex2", "rightIndexIntermediate");
     ("mixamorigRightHandIndex3", "rightIndexDistal");
     ("mixamorigRightHandThumb1", "rightThumbMetacarpal");
     ("mixamorigRightHandThumb2", "rightThumbProximal");
     ("mixamorigRightHandThumb3", "rightThumbDistal");
     ("mixamorigLeftUpLeg", "leftUpperLeg");
     ("mixamorigLeftLeg", "leftLowerLeg");
     ("mixamorigLeftFoot", "leftFoot");
     ("mixamorigLeftToeBase", "leftToes");
     ("mixamorigRightUpLeg", "rightUpperLeg");
     ("mixamorigRightLeg", "rightLowerLeg");
     ("mixamorigRightFoot", "rightFoot");
     ("mixamorigRightToeBase", "rightToes")]%string.

(** [s.split('.')]. *)
Fixpoint split_dot (s : string) : list string :=
  match s with
  | EmptyString => [EmptyString]
  | String c rest =>
      if Ascii.eqb c "."%char then EmptyString :: split_dot rest
      else match split_dot rest with
           | [] => [String c EmptyString]
           | w :: ws => String c w :: ws
           end
  end.

(** A value interpolated into a template literal. *)
Definition template (s : option string) : string :=
  match s with
  | Some s => s
  | None => "undefined"
  end.

(** [vrm.meta?.metaVersion === '0']. *)
Definition isVRM0 (vrm : VRM) : bool :=
  match metaVersion vrm with
  | Some v => String.eqb v "0"
  | None => false
  end.

(** *** The retargeting of one clip *)

Section Retargeting.

Context `{QuaternionOps}.

(** [_quatA.fromArray(flat)], [premultiply], [multiply], [toArray]. *)
Definition retarget_quaternion (parentRestWorldRotation restRotationInverse
    : quat) (x y z w : num) : quat :=
  multiplyQuaternions
    (multiplyQuaternions parentRestWorldRotation (mkQuat x y z w))
    restRotationInverse.

Definition components (q : quat) : list num := [qx q; qy q; qz q; qw q].

(** The loop [for (i = 0; i < values.length; i += 4)] with its write-back
    into [track.values].  A last slice shorter than four reads its
    missing components as [undefined] and writes back what fits. *)
Fixpoint retarget_in_place (parentRest restInverse : quat)
    (vals : list num) : list num :=
  match vals with
  | x :: y :: z :: w :: rest =>
      components (retarget_quaternion parentRest restInverse x y z w)
      ++ retarget_in_place parentRest restInverse rest
  | [] => []
  | [x] =>
      firstn 1 (components (retarget_quaternion parentRest restInverse
                              x NaN NaN NaN))
  | [x; y] =>
      firstn 2 (components (retarget_quaternion parentRest restInverse
                              x y NaN NaN))
  | [x; y; z] =>
      firstn 3 (components (retarget_quaternion parentRest restInverse
                              x y z NaN))
  end.

(** The two [values.map] calls that build the new tracks. *)
Definition flip_quaternion (vrm0 : bool) (vals : list num) : list num :=
  imap (fun i v => if vrm0 && (i mod 2 =? 0)%nat then nneg v else v) vals.

Definition scale_vector (vrm0 : bool) (hipsPositionScale : num)
    (vals : list num) : list num :=
  imap (fun i v =>
          nmul (if vrm0 && negb (i mod 3 =? 1)%nat then nneg v else v)
               hipsPositionScale)
       vals.

(** The temporaries shared by all iterations, and the output so far. *)
Record Loop : Type := mkLoop {
  new_tracks : list KeyframeTrack;
  restRotationInverse : quat;
  parentRestWorldRotation : quat
}.

(** [vrmNodeName] of a track: the name of the normalized bone node its
    rig name is bound to, if there is one. *)
Definition vrmNodeName (vrm : VRM) (track : KeyframeTrack) : option string :=
  let mixamoRigName := hd EmptyString (split_dot (name track)) in
  match mixamoVRMRigMap !! mixamoRigName with
  | Some vrmBoneName =>
      match getNormalizedBoneNode vrm vrmBoneName with
      | Some node => Some (bone_name node)
      | None => None
      end
  | None => None
  end.

(** One iteration of [clip.tracks.forEach]: the track as it is left in
    the donor clip, and the loop state after it. *)
Definition convert_track (asset : Asset) (vrm : VRM)
    (hipsPositionScale : num) (st : Loop) (track : KeyframeTrack)
  : KeyframeTrack * Loop :=
  let trackSplitted := split_dot (name track) in
  let mixamoRigName := hd EmptyString trackSplitted in
  let mixamoRigNode := objects asset !! mixamoRigName in
  match vrmNodeName vrm track with
  | None => (track, st)
  | Some nodeName =>
      let propertyName := nth_error trackSplitted 1 in
      let newName := (nodeName ++ "." ++ template propertyName)%string in
      let restInverse :=
        match mixamoRigNode with
        | Some node => invert (worldQuaternion node)
        | None => restRotationInverse st
        end in
      let parentRest :=
        match mixamoRigNode with
        | Some node =>
            match parentWorldQuaternion node with
            | Some q => q
            | None => parentRestWorldRotation st
            end
        | None => parentRestWorldRotation st
        end in
      match kind track with
      | QuaternionKeyframeTrack =>
          let vals :=
            retarget_in_place parentRest restInverse (values track) in
          (mkTrack (name track) (kind track) (times track) vals,
           mkLoop (new_tracks st
                   ++ [mkTrack newName QuaternionKeyframeTrack (times track)
                         (flip_quaternion (isVRM0 vrm) vals)])
                  restInverse parentRest)
      | VectorKeyframeTrack =>
          (track,
           mkLoop (new_tracks st
                   ++ [mkTrack newName VectorKeyframeTrack (times track)
                         (scale_vector (isVRM0 vrm) hipsPositionScale
                            (values track))])
                  restInverse parentRest)
      | OtherKeyframeTrack =>
          (track, mkLoop (new_tracks st) restInverse parentRest)
      end
  end.

Fixpoint convert_tracks (asset : Asset) (vrm : VRM) (hipsPositionScale : num)
    (st : Loop) (donor : list KeyframeTrack)
  : list KeyframeTrack * Loop :=
  match donor with
  | [] => ([], st)
  | track :: rest =>
      let '(track', st1) :=
        convert_track asset vrm hipsPositionScale st track in
      let '(rest', st2) :=
        convert_tracks asset vrm hipsPositionScale st1 rest in
      (track' :: rest', st2)
  end.

Definition motionHipsHeight (asset : Asset) : option Q :=
  match objects asset !! "mixamorigHips"%string with
  | Some node => Some (position_y node)
  | None => None
  end.

Definition vrmHipsY (vrm : VRM) : option Q :=
  match getNormalizedBoneNode vrm "hips" with
  | Some node => Some (bone_world_y node)
  | None => None
  end.

Definition hipsPositionScale (asset : Asset) (vrm : VRM) : num :=
  let vrmHipsHeight :=
    nabs (nsub (of_undefined (vrmHipsY vrm)) (Fin (scene_world_y vrm))) in
  ndiv vrmHipsHeight (of_undefined (motionHipsHeight asset)).

(** [THREE.AnimationClip.findByName]. *)
Definition findByName (clips : list AnimationClip) (n : string)
  : option AnimationClip :=
  List.find (fun c => String.eqb (clip_name c) n) clips.

(** The clip list with the tracks of the first clip called [n] replaced. *)
Fixpoint with_tracks (clips : list AnimationClip) (n : string)
    (tr : list KeyframeTrack) : list AnimationClip :=
  match clips with
  | [] => []
  | c :: rest =>
      if String.eqb (clip_name c) n
      then mkClip (clip_name c) (duration c) tr :: rest
      else c :: with_tracks rest n tr
  end.

Inductive Outcome : Type :=
| Returned (clip : AnimationClip)
| Thrown (message : string).

(** [loadMixamoAnimation], from the point where the FBX file has been
    decoded into [asset]: the outcome, and the asset as the call leaves
    it. *)
Definition loadMixamoAnimation (asset : Asset) (vrm : VRM)
  : Outcome * Asset :=
  match findByName (animations asset) "mixamo.com" with
  | None => (Thrown "Animation clip not found in FBX file", asset)
  | Some clip =>
      let scale := hipsPositionScale asset vrm in
      let '(donor', st) :=
        convert_tracks asset vrm scale (mkLoop [] identity identity)
          (tracks clip) in
      (Returned (mkClip "vrmAnimation" (duration clip) (new_tracks st)),
       mkAsset (objects asset)
         (with_tracks (animations asset) "mixamo.com" donor'))
  end.

(** Tests used to state what a call leaves behind. *)
Definition is_rotation (t : KeyframeTrack) : bool :=
  match kind t with
  | QuaternionKeyframeTrack => true
  | _ => false
  end.

Definition is_bound (vrm : VRM) (t : KeyframeTrack) : bool :=
  match vrmNodeName vrm t with
  | Some _ => true
  | None => false
  end.

Definition is_translation (t : KeyframeTrack) : bool :=
  match kind t with
  | VectorKeyframeTrack => true
  | _ => false
  end.

(** The name a bound track is given in the returned clip:
    [`${vrmNodeName}.${propertyName}`]. *)
Definition new_name (vrm : VRM) (t : KeyframeTrack) : string :=
  match vrmNodeName vrm t with
  | Some nodeName =>
      (nodeName ++ "." ++ template (nth_error (split_dot (name t)) 1))%string
  | None => EmptyString
  end.

(** Name, kind and times of a track. *)
Definition heading (t : KeyframeTrack) : string * TrackKind * list Q :=
  (name t, kind t, times t).

(** *** The retargeted values, stated apart from the loop *)

(** The complete quaternions of a flat array of values. *)
Fixpoint quaternions (vals : list num) : list quat :=
  match vals with
  | x :: y :: z :: w :: rest => mkQuat x y z w :: quaternions rest
  | _ => []
  end.

(** Every quaternion [q] replaced by: rest world rotation of the parent
    * [q] * inverse of the rest world rotation. *)
Definition retargeted (parentRest restInverse : quat) (vals : list num)
  : list num :=
  concat
    (map (fun q =>
            components
              (multiplyQuaternions (multiplyQuaternions parentRest q)
                 restInverse))
       (quaternions vals)).

(** The rest pose a track is retargeted with.  It is read from the rig
    node of the track's joint; a bound track whose joint has no node in
    the asset, or whose node has no parent, inherits what the tracks
    before it read (the identity at the start). *)
Record RestPose : Type := mkRest {
  rest_inverse : quat;
  parent_rest : quat
}.

Definition rest_step (asset : Asset) (vrm : VRM) (pose : RestPose)
    (t : KeyframeTrack) : RestPose :=
  if is_bound vrm t then
    match objects asset !! hd EmptyString (split_dot (name t)) with
    | Some node =>
        mkRest (invert (worldQuaternion node))
          (match parentWorldQuaternion node with
           | Some q => q
           | None => parent_rest pose
           end)
    | None => pose
    end
  else pose.

Definition rest_pose_after (asset : Asset) (vrm : VRM)
    (trs : list KeyframeTrack) : RestPose :=
  fold_left (rest_step asset vrm) trs (mkRest identity identity).

(** The pose held by the temporaries of the loop. *)
Definition pose_of (st : Loop) : RestPose :=
  mkRest (restRotationInverse st) (parentRestWorldRotation st).

End Retargeting.

(** Two numbers with the same value. *)
Definition num_eqb (a b : num) : bool :=
  match a, b with
  | Fin x, Fin y => Qeq_bool x y
  | PosInf, PosInf | NegInf, NegInf | NaN, NaN => true
  | _, _ => false
  end.

Fixpoint values_eqb (l1 l2 : list num) : bool :=
  match l1, l2 with
  | [], [] => true
  | a :: l1, b :: l2 => num_eqb a b && values_eqb l1 l2
  | _, _ => false
  end.

(** The value arrays of all tracks of an outcome, or of the donor clip
    of an asset. *)
Definition returned_values (o : Outcome) : list (list num) :=
  match o with
  | Returned clip => map values (tracks clip)
  | Thrown _ => []
  end.

Definition donor_values (asset : Asset) : list (list num) :=
  match findByName (animations asset) "mixamo.com" with
  | Some clip => map values (tracks clip)
  | None => []
  end.

Fixpoint all_values_eqb (l1 l2 : list (list num)) : bool :=
  match l1, l2 with
  | [], [] => true
  | a :: l1, b :: l2 => values_eqb a b && all_values_eqb l1 l2
  | _, _ => false
  end.

(** *** Example inputs *)

(** A half turn about the x axis, and its inverse. *)
Definition half_turn_x : quat := mkQuat (Fin 1) (Fin 0) (Fin 0) (Fin 0).

Definition vrm1 : VRM :=
  mkVRM (Some "1")
    (Some (list_to_map
             [("hips", mkBone "Normalized_Hips" 1);
              ("spine", mkBone "Normalized_Spine" (6 # 5))]%string))
    0.

(** A donor whose hips are at height 100, with one rotation key on the
    hips and one translation key. *)
Definition donor : Asset :=
  mkAsset
    (list_to_map
       [("mixamorigHips", mkNode 100 half_turn_x (Some identity))]%string)
    [mkClip "mixamo.com" 1
       [mkTrack "mixamorigHips.quaternion" QuaternionKeyframeTrack [0]
          [Fin 0; Fin 0; Fin 0; Fin 1];
        mkTrack "mixamorigHips.position" VectorKeyframeTrack [0]
          [Fin 0; Fin 100; Fin 0]]].

(** A donor without a hips node: only the spine is present. *)
Definition donor_without_hips : Asset :=
  mkAsset
    (list_to_map
       [("mixamorigSpine", mkNode 110 identity (Some identity))]%string)
    [mkClip "mixamo.com" 1
       [mkTrack "mixamorigSpine.position" VectorKeyframeTrack [0]
          [Fin 0; Fin 10; Fin 0]]].

(** A target whose humanoid has no hips bone. *)
Definition vrm_without_hips : VRM :=
  mkVRM (Some "1")
    (Some (list_to_map [("spine", mkBone "Normalized_Spine" (6 # 5))]%string))
    0.

(** A donor with a finger twist track (no bone is bound to that rig
    name) between two bound tracks. *)
Definition donor_with_unbound : Asset :=
  mkAsset
    (list_to_map
       [("mixamorigHips", mkNode 100 identity None)]%string)
    [mkClip "mixamo.com" 2
       [mkTrack "mixamorigHips.position" VectorKeyframeTrack [0; 1]
          [Fin 0; Fin 100; Fin 0; Fin 0; Fin 50; Fin 0];
        mkTrack "mixamorigLeftHandThumb4.quaternion" QuaternionKeyframeTrack
          [0] [Fin 0; Fin 0; Fin 0; Fin 1];
        mkTrack "mixamorigHips.quaternion" QuaternionKeyframeTrack [0]
          [Fin 0; Fin 0; Fin 0; Fin 1]]].

Definition donor_spine : Asset :=
  mkAsset
    (list_to_map
       [("mixamorigHips", mkNode 100 identity None);
        ("mixamorigSpine", mkNode 110 identity (Some identity))]%string)
    [mkClip "mixamo.com" 1
       [mkTrack "mixamorigSpine.position" VectorKeyframeTrack [0]
          [Fin 0; Fin 10; Fin 0]]].

End Retarget.

(** ** Temporal smoother (majority revision) *)

Module LegacySmoother.

Import Smoother.

(** This revision keeps only the history. *)
Record VisemeSmoother : Type := mkSmoother {
  history : list HistoryEntry
}.

Definition historySize : nat := 5.
Definition minDuration : Z := 50.

Definition initial : VisemeSmoother := mkSmoother [].
Definition reset (_ : VisemeSmoother) : VisemeSmoother := initial.

(** The [Map<VisemeType, number>] of counts, in insertion order. *)
Definition CountMap : Type := list (VisemeType * Z).

Fixpoint count_get (counts : CountMap) (v : VisemeType) : option Z :=
  match counts with
  | [] => None
  | (w, n) :: rest => if VisemeType_eqb w v then Some n else count_get rest v
  end.

Fixpoint count_set (counts : CountMap) (v : VisemeType) (n : Z) : CountMap :=
  match counts with
  | [] => [(v, n)]
  | (w, m) :: rest =>
      if VisemeType_eqb w v then (w, n) :: rest
      else (w, m) :: count_set rest v n
  end.

(** The loop [for (const entry of this.history)]. *)
Fixpoint tally (entries : list HistoryEntry) (counts : CountMap)
    (totalIntensity : Q) : CountMap * Q :=
  match entries with
  | [] => (counts, totalIntensity)
  | entry :: rest =>
      let old :=
        match count_get counts (entry_viseme entry) with
        | Some n => n
        | None => 0%Z
        end in
      tally rest (count_set counts (entry_viseme entry) (old + 1)%Z)
        (totalIntensity + entry_intensity entry)
  end.

(** The loop [for (const [v, count] of counts.entries())]. *)
Definition most_step (acc : Z * VisemeType) (kv : VisemeType * Z)
  : Z * VisemeType :=
  if (fst acc <? snd kv)%Z then (snd kv, fst kv) else acc.

Definition mostFrequent (h : list HistoryEntry) : VisemeType :=
  snd (fold_left most_step (fst (tally h [] 0)) (0%Z, neutral)).

Definition push (h : list HistoryEntry) (e : HistoryEntry)
  : list HistoryEntry :=
  let h1 := h ++ [e] in
  if (historySize <? length h1)%nat then tl h1 else h1.

(** [add(viseme, intensity)], with [Date.now()] passed in as [now]. *)
Definition add (s : VisemeSmoother) (v : VisemeType) (intensity : Q)
    (now : Z) : VisemeSmoother * VisemeEstimate :=
  let h := push (history s) (mkEntry v intensity now) in
  if (length h <? 3)%nat then (mkSmoother h, mkEstimate v intensity)
  else
    let avgIntensity :=
      snd (tally h [] 0) / inject_Z (Z.of_nat (length h)) in
    (mkSmoother h, mkEstimate (mostFrequent h) avgIntensity).

Fixpoint feed (s : VisemeSmoother) (samples : list (VisemeType * Q * Z))
  : VisemeSmoother * list VisemeEstimate :=
  match samples with
  | [] => (s, [])
  | (v, x, now) :: rest =>
      let '(s1, out) := add s v x now in
      let '(s2, outs) := feed s1 rest in
      (s2, out :: outs)
  end.

(** [counts.get(v) || 0]. *)
Definition cnt (counts : CountMap) (v : VisemeType) : Z :=
  match count_get counts v with
  | Some n => n
  | None => 0%Z
  end.

(** How often a viseme occurs in a history. *)
Definition occurrences (v : VisemeType) (h : list HistoryEntry) : Z :=
  Z.of_nat
    (length (List.filter (fun e => VisemeType_eqb (entry_viseme e) v) h)).

(** The sum of the intensities of a history. *)
Definition sum_intensity (h : list HistoryEntry) : Q :=
  fold_right (fun e s => entry_intensity e + s) 0 h.

(** Five samples at times 0 to 64. *)
Definition five_samples : list (VisemeType * Q * Z) :=
  [(aa, 1 # 2, 0%Z); (ee, 1 # 5, 16%Z); (aa, 3 # 5, 32%Z);
   (oh, 1 # 10, 48%Z); (ee, 1 # 2, 64%Z)].

End LegacySmoother.

(** The sample a smoother stores for an input, and the last [n] elements
    of a list. *)
Definition entry_of (sample : VisemeType * Q * Z) : Smoother.HistoryEntry :=
  Smoother.mkEntry (fst (fst sample)) (snd (fst sample)) (snd sample).

Definition last_n {A : Type} (n : nat) (l : list A) : list A :=
  skipn (length l - n) l.


(** ** Text-driven visemes: the playback lookup

    [getCurrentViseme] of the text-to-viseme module: the frame a
    sequence of timed frames shows at an elapsed time.  The fields
    [viseme] and [intensity] of a frame are named [frame_viseme] and
    [frame_intensity]. *)

Module TextViseme.

Record VisemeFrame : Type := mkFrame {
  frame_viseme : VisemeType;
  duration : Q;
  frame_intensity : Q
}.

(** The [for ... of] loop, from a running [currentTime]; [None] is
    [null]. *)
Fixpoint frames_loop (frames : list VisemeFrame) (elapsedMs currentTime : Q)
  : option VisemeEstimate :=
  match frames with
  | [] => None
  | frame :: rest =>
      let currentTime := currentTime + duration frame in
      if Qltb elapsedMs currentTime
      then Some (mkEstimate (frame_viseme frame) (frame_intensity frame))
      else frames_loop rest elapsedMs currentTime
  end.

Definition getCurrentViseme (frames : list VisemeFrame) (elapsedMs : Q)
  : option VisemeEstimate :=
  frames_loop frames elapsedMs 0.

(** The summed duration of frames. *)
Definition total_duration (frames : list VisemeFrame) : Q :=
  fold_right (fun frame s => duration frame + s) 0 frames.

(** Two syllables and the closing pause. *)
Definition two_syllables : list VisemeFrame :=
  [mkFrame aa 400 (4 # 5); mkFrame oh 400 (9 # 10); mkFrame neutral 200 0].

End TextViseme.
(* ===================================================================== *)
(** * Part II: properties                                                 *)
(* ===================================================================== *)

(** ** Rational comparisons *)

Lemma Qltb_lt (x y : Q) : Qltb x y = true <-> x < y.
Proof.
  unfold Qltb. rewrite negb_true_iff, <- not_true_iff_false, Qle_bool_iff.
  split; [apply Qnot_le_lt | apply Qlt_not_le].
Qed.

Lemma Qltb_ge (x y : Q) : Qltb x y = false <-> y <= x.
Proof.
  unfold Qltb. rewrite negb_false_iff, Qle_bool_iff. reflexivity.
Qed.

Lemma sample_nonneg (b : byte) : 0 <= sample b.
Proof.
  unfold sample. change 0 with (inject_Z 0). rewrite <- Zle_Qle. lia.
Qed.

(** ** Classifier: the band loop *)

Section BandLoop.

Import Classifier.

Variable frequencyData : list byte.

Lemma sum_samples_nonneg (bins : list byte) : 0 <= sum_samples bins.
Proof.
  induction bins as [|b bins IH]; simpl; [lra|].
  pose proof (sample_nonneg b). lra.
Qed.

Lemma skipn_cons_nth (i : nat) :
  (i < length frequencyData)%nat ->
  skipn i frequencyData = nth i frequencyData x00 :: skipn (S i) frequencyData.
Proof.
  revert i. induction frequencyData as [|b l IH]; intros i Hi; simpl in Hi.
  - lia.
  - destruct i as [|i]; [reflexivity|]. simpl. apply IH. lia.
Qed.

Abbreviation rest_of_band := (Classifier.rest_of_band frequencyData).

Lemma rest_of_band_done (last i : Z) :
  (0 <= i)%Z ->
  ((i <=? last)%Z && (i <? Z.of_nat (length frequencyData))%Z) = false ->
  rest_of_band last i = [].
Proof.
  intros Hi Hg. unfold Classifier.rest_of_band.
  apply andb_false_iff in Hg as [Hg|Hg].
  - apply Z.leb_gt in Hg.
    replace (Z.to_nat (last - i + 1)) with 0%nat by lia. reflexivity.
  - apply Z.ltb_ge in Hg. rewrite skipn_all2 by lia. apply firstn_nil.
Qed.

Lemma rest_of_band_step (last i : Z) :
  (0 <= i)%Z ->
  ((i <=? last)%Z && (i <? Z.of_nat (length frequencyData))%Z) = true ->
  rest_of_band last i
  = nth (Z.to_nat i) frequencyData x00 :: rest_of_band last (i + 1).
Proof.
  intros Hi Hg. unfold Classifier.rest_of_band.
  apply andb_true_iff in Hg as [Hl Hn].
  apply Z.leb_le in Hl. apply Z.ltb_lt in Hn.
  rewrite (skipn_cons_nth (Z.to_nat i)) by lia.
  replace (Z.to_nat (last - i + 1)) with (S (Z.to_nat (last - (i + 1) + 1)))
    by lia.
  replace (Z.to_nat (i + 1)) with (S (Z.to_nat i)) by lia.
  reflexivity.
Qed.

Lemma band_loop_closed (fuel : nat) :
  forall (last i : Z) (sum : Q) (count : Z),
    (0 <= i)%Z ->
    (Z.to_nat (Z.of_nat (length frequencyData) - i) <= fuel)%nat ->
    let r := band_loop fuel frequencyData last
               (Z.of_nat (length frequencyData)) i sum count in
    fst r == sum + sum_samples (rest_of_band last i) /\
    snd r = (count + Z.of_nat (length (rest_of_band last i)))%Z.
Proof.
  induction fuel as [|fuel IH]; intros last i sum count Hi Hfuel; simpl.
  - rewrite rest_of_band_done; simpl.
    + split; [lra | lia].
    + exact Hi.
    + apply andb_false_iff. right. apply Z.ltb_ge. lia.
  - destruct ((i <=? last)%Z && (i <? Z.of_nat (length frequencyData))%Z)
      eqn:Hg.
    + rewrite (rest_of_band_step last i Hi Hg).
      destruct (IH last (i + 1)%Z (sum + at_bin frequencyData i)
                  (count + 1)%Z) as [Hs Hc]; [lia | lia |].
      split.
      * rewrite Hs. unfold at_bin. simpl. ring.
      * rewrite Hc. simpl length. lia.
    + rewrite (rest_of_band_done last i Hi Hg). simpl. split; [lra | lia].
Qed.

Lemma binWidth_nonneg : 0 <= binWidth frequencyData sampleRate.
Proof.
  unfold binWidth, sampleRate, Qdiv.
  apply Qmult_le_0_compat; [discriminate|].
  apply Qinv_le_0_compat. change 0 with (inject_Z 0).
  rewrite <- Zle_Qle. lia.
Qed.

Lemma startBin_nonneg (startHz : Q) :
  0 <= startHz -> (0 <= startBin frequencyData startHz sampleRate)%Z.
Proof.
  intros H. unfold startBin. change 0%Z with (Qfloor 0).
  apply Qfloor_resp_le. unfold Qdiv.
  apply Qmult_le_0_compat; [exact H|].
  apply Qinv_le_0_compat, binWidth_nonneg.
Qed.

(** [getAmplitudeInBand] is the mean over the bins of the band. *)
Lemma getAmplitudeInBand_mean (startHz endHz : Q) :
  0 <= startHz ->
  getAmplitudeInBand frequencyData startHz endHz sampleRate
  == mean_samples (band_bins frequencyData startHz endHz).
Proof.
  intros Hs. unfold getAmplitudeInBand.
  pose proof (startBin_nonneg startHz Hs) as H0.
  set (first := startBin frequencyData startHz sampleRate) in *.
  set (last := endBin frequencyData endHz sampleRate).
  destruct (band_loop_closed
              (Z.to_nat (Z.of_nat (length frequencyData) - first))
              last first 0 0%Z H0 (Nat.le_refl _)) as [Hsum Hcount].
  destruct (band_loop _ frequencyData last _ first 0 0%Z) as [sum count].
  simpl in Hsum, Hcount.
  change (band_bins frequencyData startHz endHz) with (rest_of_band last first).
  destruct (rest_of_band last first) as [|b bins] eqn:Hbins.
  - subst count. simpl. reflexivity.
  - replace (0 <? count)%Z with true
      by (symmetry; apply Z.ltb_lt; subst count; simpl length; lia).
    unfold mean_samples. rewrite Hsum, Hcount.
    rewrite Qplus_0_l. reflexivity.
Qed.

End BandLoop.

(** ** Classifier: scores and their maximum *)

Section ClassifierScores.

Import Classifier.

Lemma compute_scores_raw (frequencyData : list byte) (v : VisemeType) :
  compute_scores frequencyData v = raw_score frequencyData v.
Proof. destruct v; reflexivity. Qed.

Lemma compute_scores_band (frequencyData : list byte) (v : VisemeType) :
  compute_scores frequencyData v == band_score frequencyData v.
Proof.
  rewrite compute_scores_raw. unfold raw_score, band_score.
  destruct v; simpl FORMANT_RANGES; cbv beta iota; try reflexivity;
    cbn [f1 f2 fst snd];
    rewrite !getAmplitudeInBand_mean by discriminate; reflexivity.
Qed.

Lemma mean_samples_nonneg (bins : list byte) : 0 <= mean_samples bins.
Proof.
  destruct bins as [|b bins]; [simpl; lra|].
  unfold mean_samples, Qdiv. apply Qmult_le_0_compat.
  - apply sum_samples_nonneg.
  - apply Qinv_le_0_compat. change 0 with (inject_Z 0).
    rewrite <- Zle_Qle. lia.
Qed.

Lemma band_score_nonneg (frequencyData : list byte) (v : VisemeType) :
  0 <= band_score frequencyData v.
Proof.
  unfold band_score. destruct (FORMANT_RANGES v) as [fr|]; [|lra].
  pose proof (mean_samples_nonneg
                (band_bins frequencyData (fst (f1 fr)) (snd (f1 fr)))).
  pose proof (mean_samples_nonneg
                (band_bins frequencyData (fst (f2 fr)) (snd (f2 fr)))).
  lra.
Qed.

(** The running maximum of the second loop, over any list of visemes. *)
Lemma max_loop_spec (scores : VisemeType -> Q) (l : list VisemeType) :
  forall acc : Q * VisemeType,
    let r := fold_left (max_step scores) l acc in
    fst acc <= fst r /\
    (forall v, In v l -> scores v <= fst r) /\
    (r = acc \/ (In (snd r) l /\ fst r = scores (snd r) /\ fst acc < fst r)).
Proof.
  induction l as [|w l IH]; intros acc; simpl.
  - split; [lra|]. split; [intros v []|]. left; reflexivity.
  - destruct (IH (max_step scores acc w)) as (Hle & Hall & Hsel).
    unfold max_step in Hle, Hall, Hsel |- *.
    destruct (Qltb (fst acc) (scores w)) eqn:Hcmp.
    + apply Qltb_lt in Hcmp. simpl fst in *.
      split; [lra|]. split.
      * intros v [<-|Hv]; [exact Hle | exact (Hall v Hv)].
      * right. destruct Hsel as [->|(Hin & Heq & Hlt)].
        -- simpl. split; [left; reflexivity|]. split; [reflexivity|exact Hcmp].
        -- split; [right; exact Hin|]. split; [exact Heq|]. simpl in Hlt. lra.
    + apply Qltb_ge in Hcmp.
      split; [exact Hle|]. split.
      * intros v [<-|Hv]; [lra | exact (Hall v Hv)].
      * destruct Hsel as [->|(Hin & Heq & Hlt)]; [left; reflexivity|].
        right. split; [right; exact Hin|]. split; assumption.
Qed.

Lemma find_max_spec (scores : VisemeType -> Q) :
  let r := find_max scores in
  0 <= fst r /\
  (forall v, In v allVisemes -> scores v <= fst r) /\
  ((fst r = 0 /\ snd r = neutral) \/
   (In (snd r) allVisemes /\ fst r = scores (snd r) /\ 0 < fst r)).
Proof.
  destruct (max_loop_spec scores allVisemes (0, neutral)) as (H0 & Hall & Hsel).
  fold (find_max scores) in H0, Hall, Hsel. simpl fst in *.
  split; [exact H0|]. split; [exact Hall|].
  destruct Hsel as [->|H]; [left; split; reflexivity | right; exact H].
Qed.

Lemma totalAmplitude_sum (frequencyData : list byte) :
  totalAmplitude frequencyData == sum_samples frequencyData.
Proof.
  unfold totalAmplitude.
  assert (G : forall l acc,
             fold_left (fun total b => total + sample b) l acc
             == acc + sum_samples l).
  { induction l as [|b l IH]; intros acc; simpl; [ring|].
    rewrite IH. ring. }
  rewrite G. ring.
Qed.

End ClassifierScores.

(** ** Classifier: results *)

Section ClassifierResults.

Import Classifier.

Lemma mean_samples_avg (b : byte) (l : list byte) :
  totalAmplitude (b :: l) / inject_Z (Z.of_nat (length (b :: l)))
  == mean_samples (b :: l).
Proof. unfold mean_samples. rewrite totalAmplitude_sum. reflexivity. Qed.

(** Unfolding of the main path of [frequencyToViseme]. *)
Lemma frequencyToViseme_loud (b : byte) (l : list byte) :
  10 <= mean_samples (b :: l) ->
  frequencyToViseme (Some (b :: l))
  = let m := find_max (compute_scores (b :: l)) in
    mkEstimate (if Qltb (fst m) MIN_SCORE_THRESHOLD then neutral else snd m)
               (Qmin 1 (fst m / 150)).
Proof.
  intros Hloud. unfold frequencyToViseme.
  replace (Qltb _ 10) with false.
  - destruct (find_max (compute_scores (b :: l))) as [m v]. reflexivity.
  - symmetry. apply Qltb_ge. rewrite mean_samples_avg. exact Hloud.
Qed.

Lemma frequencyToViseme_quiet (data : list byte) :
  mean_samples data < 10 ->
  frequencyToViseme (Some data) = mkEstimate neutral 0.
Proof.
  intros Hq. destruct data as [|b l]; [reflexivity|].
  unfold frequencyToViseme.
  replace (Qltb _ 10) with true; [reflexivity|].
  symmetry. apply Qltb_lt. rewrite mean_samples_avg. exact Hq.
Qed.

(** C1, as the code has it.  An absent, empty or quiet frame (mean
    magnitude below 10) gives (neutral, 0).  Otherwise every non-neutral
    viseme is scored by the sum of the mean magnitudes over its F1 and F2
    bands, a band being the bins from [floor (minHz / binWidth)] to
    [ceil (maxHz / binWidth)], both included and cut at the last bin
    ([band_bins]); [maxScore] is the largest of the five scores; the
    intensity is [min 1 (maxScore / 150)]; the viseme is neutral when
    [maxScore < 20] and otherwise a viseme whose score is [maxScore]. *)
Theorem frequencyToViseme_by_bands (frequencyData : option (list byte)) :
  let r := frequencyToViseme frequencyData in
  match frequencyData with
  | None => est_equiv r (mkEstimate neutral 0)
  | Some data =>
      (data = [] \/ mean_samples data < 10 ->
       est_equiv r (mkEstimate neutral 0)) /\
      (data <> [] /\ 10 <= mean_samples data ->
       exists maxScore : Q,
         (forall v, In v allVisemes -> band_score data v <= maxScore) /\
         (exists v, In v allVisemes /\ band_score data v == maxScore) /\
         intensity r == Qmin 1 (maxScore / 150) /\
         (maxScore < 20 -> viseme r = neutral) /\
         (20 <= maxScore ->
          In (viseme r) allVisemes /\
          band_score data (viseme r) == maxScore))
  end.
Proof.
  destruct frequencyData as [data|]; cbv zeta; [|split; reflexivity].
  split.
  - intros [->|Hq]; [split; reflexivity|].
    rewrite (frequencyToViseme_quiet data Hq). split; reflexivity.
  - intros [Hne Hloud]. destruct data as [|b l]; [congruence|].
    rewrite (frequencyToViseme_loud b l Hloud). cbv zeta.
    destruct (find_max_spec (compute_scores (b :: l))) as (H0 & Hall & Hsel).
    set (m := find_max (compute_scores (b :: l))) in *.
    exists (fst m). cbn [viseme intensity].
    split; [intros v Hv; rewrite <- compute_scores_band; exact (Hall v Hv)|].
    split.
    { destruct Hsel as [[Hz _]|(Hin & Heq & _)].
      - (* all five scores are 0 *)
        exists aa. split; [left; reflexivity|].
        pose proof (Hall aa (or_introl eq_refl)) as Hle.
        rewrite compute_scores_band in Hle.
        pose proof (band_score_nonneg (b :: l) aa). rewrite Hz in *. lra.
      - exists (snd m). split; [exact Hin|].
        rewrite <- compute_scores_band, <- Heq. reflexivity. }
    split; [reflexivity|]. split.
    + intros Hlt. apply Qltb_lt in Hlt. unfold MIN_SCORE_THRESHOLD.
      rewrite Hlt. reflexivity.
    + intros Hge. apply Qltb_ge in Hge. unfold MIN_SCORE_THRESHOLD.
      rewrite Hge.
      destruct Hsel as [[Hz _]|(Hin & Heq & _)].
      * apply Qltb_ge in Hge. rewrite Hz in Hge. lra.
      * split; [exact Hin|].
        rewrite <- compute_scores_band, <- Heq. reflexivity.
Qed.

(** The theorem read at a loud frame: 1024 bins, one peak in bin 66. *)
Lemma frequencyToViseme_by_bands_witness :
  exists maxScore : Q,
    intensity (frequencyToViseme (Some frame_peak66))
    == Qmin 1 (maxScore / 150) /\
    band_score frame_peak66 (viseme (frequencyToViseme (Some frame_peak66)))
    == maxScore.
Proof.
  destruct (frequencyToViseme_by_bands (Some frame_peak66)) as [_ H].
  destruct H as (m & _ & _ & Hi & _ & Hv).
  - split; vm_compute; discriminate.
  - exists m. split; [exact Hi|]. apply Hv.
    destruct (Qlt_le_dec m 20) as [Hlt|Hge]; [|exact Hge].
    exfalso. revert Hi.
    assert (Hm : Qmin 1 (m / 150) < 1 # 5).
    { apply Qle_lt_trans with (m / 150); [apply Q.le_min_r|].
      apply Qlt_shift_div_r; [reflexivity|].
      apply Qlt_le_trans with 20; [exact Hlt | discriminate]. }
    intros Hi. rewrite <- Hi in Hm. vm_compute in Hm. discriminate Hm.
Defined.

(** C1 as worded (bands between rounded bin indices) fails.  With 1024
    bins, 1400 Hz lies at bin 65.02: the loop of the code runs up to
    [ceil 65.02 = 66] and takes the peak in bin 66 into the second band
    of 'aa', giving (aa, 565/2400); a band that ends at [round 65.02 = 65]
    leaves it out, giving (aa, 20/150). *)
Lemma spec_classify_differs :
  viseme (frequencyToViseme (Some frame_peak66)) = aa /\
  intensity (frequencyToViseme (Some frame_peak66)) == 113 # 480 /\
  intensity (spec_classify (Some frame_peak66)) == 2 # 15 /\
  ~ est_equiv (frequencyToViseme (Some frame_peak66))
              (spec_classify (Some frame_peak66)).
Proof.
  split; [vm_compute; reflexivity|]. split; [vm_compute; reflexivity|].
  split; [vm_compute; reflexivity|].
  intros [_ Hi]. vm_compute in Hi. discriminate Hi.
Qed.

(** C2, one direction only: intensity 0 forces the neutral viseme. *)
Theorem zero_intensity_is_neutral (frequencyData : option (list byte)) :
  intensity (frequencyToViseme frequencyData) == 0 ->
  viseme (frequencyToViseme frequencyData) = neutral.
Proof.
  destruct frequencyData as [data|]; [|reflexivity].
  destruct (Qlt_le_dec (mean_samples data) 10) as [Hq|Hloud].
  - rewrite (frequencyToViseme_quiet data Hq). reflexivity.
  - destruct data as [|b l]; [reflexivity|].
    rewrite (frequencyToViseme_loud b l Hloud). cbv zeta.
    cbn [viseme intensity]. intros Hz.
    replace (Qltb _ MIN_SCORE_THRESHOLD) with true; [reflexivity|].
    symmetry. apply Qltb_lt. unfold MIN_SCORE_THRESHOLD.
    destruct (Q.min_spec 1 (fst (find_max (compute_scores (b :: l))) / 150))
      as [[_ He]|[_ He]]; rewrite He in Hz.
    + discriminate Hz.
    + set (x := fst (find_max (compute_scores (b :: l)))) in *.
      assert (Hx : x == x / 150 * 150) by (field).
      apply Qle_lt_trans with (x / 150 * 150); [rewrite <- Hx; apply Qle_refl|].
      rewrite Hz. reflexivity.
Qed.

Lemma zero_intensity_is_neutral_witness :
  intensity (frequencyToViseme (Some frame_silent)) == 0 /\
  viseme (frequencyToViseme (Some frame_silent)) = neutral.
Proof.
  split; [reflexivity|].
  apply (zero_intensity_is_neutral (Some frame_silent)). reflexivity.
Defined.

(** C2 as worded fails: a loud frame whose energy lies above every
    formant band scores 5 + 5 = 10 < 20, so the viseme is neutral while
    the intensity is 10/150. *)
Lemma neutral_with_positive_intensity :
  ~ (intensity (frequencyToViseme (Some frame_high_only)) == 0 <->
     viseme (frequencyToViseme (Some frame_high_only)) = neutral).
Proof.
  intros [_ H]. specialize (H eq_refl). vm_compute in H. discriminate H.
Qed.

End ClassifierResults.

(** ** The band and centroid revision of the classifier *)

Section LegacyClassifierResults.

Import LegacyClassifier.

(** The same direction holds for the earlier revision: only the silent
    returns carry intensity 0. *)
Lemma legacy_zero_intensity_is_neutral (frequencyData : option (list byte)) :
  intensity (frequencyToViseme frequencyData) == 0 ->
  viseme (frequencyToViseme frequencyData) = neutral.
Proof.
  destruct frequencyData as [[|b l]|]; try reflexivity.
  unfold frequencyToViseme.
  set (features := extractFeatures (b :: l) 44100).
  destruct (Qltb (volume features) 10) eqn:Hv; [reflexivity|].
  apply Qltb_ge in Hv. cbv zeta.
  assert (Hpos : 0 < Qmin 1 (volume features / 100)).
  { apply Q.min_glb_lt; [reflexivity|].
    apply Qlt_shift_div_l; [reflexivity|]. lra. }
  repeat match goal with
         | |- context [if ?c then _ else _] => destruct c
         end;
    cbn [viseme intensity]; intros Hz; try reflexivity; exfalso; lra.
Qed.

(** And the converse fails there as well: an audible frame that matches
    no rule is reported neutral at half its volume-based intensity. *)
Lemma legacy_neutral_with_positive_intensity :
  viseme (frequencyToViseme (Some frame_flat)) = neutral /\
  intensity (frequencyToViseme (Some frame_flat)) == 1 # 10.
Proof. split; vm_compute; reflexivity. Qed.

End LegacyClassifierResults.

(** ** Smoother *)

Section SmootherProps.

Import Smoother.

Lemma VisemeType_eqb_eq (a b : VisemeType) :
  VisemeType_eqb a b = true <-> a = b.
Proof. destruct a, b; simpl; split; congruence. Qed.

Lemma VisemeType_eqb_neq (a b : VisemeType) :
  VisemeType_eqb a b = false <-> a <> b.
Proof. destruct a, b; simpl; split; congruence. Qed.

(** A list with two or more elements ends in two elements. *)
Lemma two_last {A : Type} (l : list A) :
  (2 <= length l)%nat -> exists l0 x y, l = l0 ++ [x; y].
Proof.
  intros Hlen.
  destruct (exists_last (l := l)) as (l1 & y & ->).
  { intros ->. simpl in Hlen. lia. }
  rewrite length_app in Hlen. simpl in Hlen.
  destruct (exists_last (l := l1)) as (l0 & x & ->).
  { intros ->. simpl in Hlen. lia. }
  exists l0, x, y. rewrite <- app_assoc. reflexivity.
Qed.

Lemma last_two_agree_true (h : list HistoryEntry) :
  last_two_agree h = true ->
  exists h0 e1 e2, h = h0 ++ [e1; e2] /\ entry_viseme e1 = entry_viseme e2.
Proof.
  unfold last_two_agree, entry_at. intros H.
  destruct (le_lt_dec 2 (length h)) as [Hlen|Hlen].
  - destruct (two_last h Hlen) as (h0 & e1 & e2 & ->).
    exists h0, e1, e2. split; [reflexivity|].
    rewrite length_app in H. simpl length in H.
    replace (Z.of_nat (length h0 + 2) - 1 <? 0)%Z with false in H
      by (symmetry; apply Z.ltb_ge; lia).
    replace (Z.of_nat (length h0 + 2) - 2 <? 0)%Z with false in H
      by (symmetry; apply Z.ltb_ge; lia).
    rewrite !nth_error_app2 in H by lia.
    replace (Z.to_nat (Z.of_nat (length h0 + 2) - 1) - length h0)%nat
      with 1%nat in H by lia.
    replace (Z.to_nat (Z.of_nat (length h0 + 2) - 2) - length h0)%nat
      with 0%nat in H by lia.
    simpl in H. apply VisemeType_eqb_eq in H. congruence.
  - replace (Z.of_nat (length h) - 2 <? 0)%Z with true in H
      by (symmetry; apply Z.ltb_lt; lia).
    destruct (if (Z.of_nat (length h) - 1 <? 0)%Z then _ else _);
      discriminate H.
Qed.

(** C3.  A call of [add] assigns the held viseme at most once, and only
    to the recency-weighted candidate; the held viseme differs after the
    call only if (a) the input intensity exceeds 0.5, or (b) the candidate
    differs from the viseme held before and at least 30 ms have passed
    since the last committed change, or (c) the two most recent history
    entries carry the same viseme. *)
Theorem held_viseme_change_needs_trigger
    (s : VisemeSmoother) (v : VisemeType) (x : Q) (now : Z) :
  let s' := fst (add s v x now) in
  lastViseme s' <> lastViseme s ->
  lastViseme s' = bestViseme (history s') /\
  ((1 # 2) < x
   \/ (bestViseme (history s') <> lastViseme s
       /\ (minDuration <= now - lastVisemeTime s)%Z)
   \/ (exists h0 e1 e2,
         history s' = h0 ++ [e1; e2] /\ entry_viseme e1 = entry_viseme e2)).
Proof.
  unfold add. set (h := push (history s) (mkEntry v x now)).
  destruct (length h <? 2)%nat; cbn [fst]; [cbn; congruence|].
  destruct (shouldChange s h x now) eqn:Hc; cbn; [|congruence].
  intros _. split; [reflexivity|].
  unfold shouldChange in Hc.
  apply orb_true_iff in Hc as [Hc|Hc]; [apply orb_true_iff in Hc as [Hc|Hc]|].
  - left. apply Qltb_lt. exact Hc.
  - right; left. apply andb_true_iff in Hc as [Hne Ht].
    apply negb_true_iff, VisemeType_eqb_neq in Hne.
    apply Z.ltb_lt in Ht. split; [exact Hne | lia].
  - right; right. apply andb_true_iff in Hc as [_ Hl].
    apply last_two_agree_true. exact Hl.
Qed.

Lemma held_viseme_change_needs_trigger_witness :
  let s' := fst (add held_ee_aa aa (1 # 5) 132) in
  lastViseme s' <> lastViseme held_ee_aa /\
  lastViseme s' = bestViseme (history s') /\
  ((1 # 2) < (1 # 5)
   \/ (bestViseme (history s') <> lastViseme held_ee_aa
       /\ (minDuration <= 132 - lastVisemeTime held_ee_aa)%Z)
   \/ (exists h0 e1 e2,
         history s' = h0 ++ [e1; e2] /\ entry_viseme e1 = entry_viseme e2)).
Proof.
  split.
  - vm_compute. discriminate.
  - apply (held_viseme_change_needs_trigger held_ee_aa aa (1 # 5) 132).
    vm_compute. discriminate.
Defined.

(** *** Reported intensity *)

Lemma score_loop_total (len : nat) (entries : list HistoryEntry) :
  forall (i : nat) (scores : ScoreMap) (total : Q),
    snd (score_loop len i entries scores total)
    == total + weighted_sum len i (map entry_intensity entries).
Proof.
  induction entries as [|e rest IH]; intros i scores total; simpl.
  - ring.
  - rewrite IH. ring.
Qed.

Lemma totalIntensity_weighted_sum (h : list HistoryEntry) :
  totalIntensity h == weighted_sum (length h) 0 (map entry_intensity h).
Proof. unfold totalIntensity. rewrite score_loop_total. ring. Qed.

Lemma push_length (h : list HistoryEntry) (e : HistoryEntry) :
  (1 <= length (push h e))%nat /\
  (h <> [] -> 2 <= length (push h e))%nat.
Proof.
  unfold push, historySize.
  destruct (3 <? length (h ++ [e]))%nat eqn:Hlt.
  - apply Nat.ltb_lt in Hlt. rewrite length_app in Hlt. simpl in Hlt.
    destruct h as [|a [|b [|c h]]]; simpl in Hlt; try lia.
    simpl. rewrite length_app. simpl. split; [lia | intros _; lia].
  - rewrite length_app. simpl length. split; [lia|].
    intros Hne. destruct h; [congruence | simpl; lia].
Qed.

(** Bootstrap: while the history holds fewer than two samples the input
    estimate is returned as it came. *)
Lemma add_bootstrap (s : VisemeSmoother) (v : VisemeType) (x : Q) (now : Z) :
  (length (history (fst (add s v x now))) < 2)%nat ->
  snd (add s v x now) = mkEstimate v x.
Proof.
  unfold add. set (h := push (history s) (mkEntry v x now)).
  destruct (length h <? 2)%nat eqn:Hlen; [reflexivity|].
  apply Nat.ltb_ge in Hlen.
  destruct (shouldChange s h x now); cbn [fst history]; lia.
Qed.

(** With two or more samples, [add] reports the recency-weighted sum of
    the history's intensities divided by the number of samples. *)
Lemma add_intensity_formula (s : VisemeSmoother) (v : VisemeType) (x : Q)
    (now : Z) :
  let h := history (fst (add s v x now)) in
  (2 <= length h)%nat ->
  intensity (snd (add s v x now))
  == weighted_sum (length h) 0 (map entry_intensity h)
     / inject_Z (Z.of_nat (length h)).
Proof.
  unfold add. set (h := push (history s) (mkEntry v x now)).
  destruct (length h <? 2)%nat eqn:Hlen.
  - apply Nat.ltb_lt in Hlen. cbn [fst history]. lia.
  - intros _.
    assert (Hh : history (fst (if shouldChange s h x now
                                then mkSmoother h (bestViseme h) now
                                else mkSmoother h (lastViseme s)
                                       (lastVisemeTime s),
                                mkEstimate v x)) = h)
      by (destruct (shouldChange s h x now); reflexivity).
    cbn [fst snd intensity] in *.
    replace (history (if shouldChange s h x now
                      then mkSmoother h (bestViseme h) now
                      else mkSmoother h (lastViseme s) (lastVisemeTime s)))
      with h.
    rewrite totalIntensity_weighted_sum. reflexivity.
Qed.

(** The reported intensity depends on the history, the input and nothing
    else: not on the held viseme, nor on when it was committed. *)
Lemma add_intensity_held_independent
    (s1 s2 : VisemeSmoother) (v : VisemeType) (x : Q) (now : Z) :
  history s1 = history s2 ->
  intensity (snd (add s1 v x now)) = intensity (snd (add s2 v x now)).
Proof.
  intros Hh. unfold add. rewrite Hh.
  destruct (length (push (history s2) (mkEntry v x now)) <? 2)%nat;
    reflexivity.
Qed.

(** C4 at a steady input.  Three samples of ('aa', 0.6) make the history
    [0.6; 0.6; 0.6].  Its average under the weights 1/3, 2/3, 3/3 is 0.6;
    the third call of [add] reports 0.4, the weighted sum 1.2 divided by
    the length 3 rather than by the total weight 2. *)
Theorem steady_intensity_under_reported :
  let out := snd (feed initial steady_aa) in
  let h := history (fst (feed initial steady_aa)) in
  map entry_intensity h = [3 # 5; 3 # 5; 3 # 5] /\
  weighted_average 3 (map entry_intensity h) == 3 # 5 /\
  (exists o1 o2 o3, out = [o1; o2; o3] /\ intensity o3 == 2 # 5 /\
     ~ intensity o3 == weighted_average 3 (map entry_intensity h)).
Proof.
  cbv zeta. split; [reflexivity|]. split; [reflexivity|].
  eexists _, _, _. split; [reflexivity|]. split; [reflexivity|].
  vm_compute. discriminate.
Qed.

End SmootherProps.

(** ** Blink state machine *)

Section BlinkProps.

Import Blink.

Lemma inject_Z_pos (d : Z) : (0 < d)%Z -> 0 < inject_Z d.
Proof. intros H. change 0 with (inject_Z 0). rewrite <- Zlt_Qlt. exact H. Qed.

Lemma progress_le_1 (e d : Z) : progress e d <= 1.
Proof. apply Q.le_min_l. Qed.

Lemma progress_nonneg (e d : Z) :
  (0 < d)%Z -> (0 <= e)%Z -> 0 <= progress e d.
Proof.
  intros Hd He. apply Q.min_glb; [discriminate|].
  apply Qle_shift_div_l; [apply inject_Z_pos, Hd|].
  rewrite Qmult_0_l. change 0 with (inject_Z 0). rewrite <- Zle_Qle. exact He.
Qed.

Lemma progress_mono (e1 e2 d : Z) :
  (0 < d)%Z -> (e1 <= e2)%Z -> progress e1 d <= progress e2 d.
Proof.
  intros Hd He. apply Q.min_le_compat_l. unfold Qdiv.
  apply Qmult_le_compat_r.
  - rewrite <- Zle_Qle. exact He.
  - apply Qlt_le_weak, Qinv_lt_0_compat, inject_Z_pos, Hd.
Qed.

Lemma progress_done (e d : Z) :
  (0 < d)%Z -> (d <= e)%Z -> progress e d == 1.
Proof.
  intros Hd He. apply Q.min_l.
  apply Qle_shift_div_l; [apply inject_Z_pos, Hd|].
  rewrite Qmult_1_l, <- Zle_Qle. exact He.
Qed.

Lemma progress_running (e d : Z) :
  (0 < d)%Z -> (e < d)%Z -> progress e d < 1.
Proof.
  intros Hd He. apply Qle_lt_trans with (inject_Z e / inject_Z d).
  - apply Q.le_min_r.
  - apply Qlt_shift_div_r; [apply inject_Z_pos, Hd|].
    rewrite Qmult_1_l, <- Zlt_Qlt. exact He.
Qed.

Lemma progress_test (e d : Z) :
  (0 < d)%Z -> Qle_bool 1 (progress e d) = (d <=? e)%Z.
Proof.
  intros Hd. destruct (Z.leb_spec d e) as [He|He].
  - apply Qle_bool_iff. rewrite (progress_done e d Hd He). apply Qle_refl.
  - apply not_true_iff_false. rewrite Qle_bool_iff.
    apply Qlt_not_le, progress_running; assumption.
Qed.

Lemma easeIn_mono (p q : Q) : 0 <= p -> p <= q -> easeInQuad p <= easeInQuad q.
Proof.
  unfold easeInQuad. intros Hp Hq.
  assert (0 <= (q - p) * (q + p)) by (apply Qmult_le_0_compat; lra). lra.
Qed.

Lemma easeOut_mono (p q : Q) :
  p <= q -> q <= 1 -> 1 - easeOutQuad q <= 1 - easeOutQuad p.
Proof.
  unfold easeOutQuad. intros Hp Hq.
  assert (0 <= (q - p) * ((1 - p) + (1 - q)))
    by (apply Qmult_le_0_compat; lra).
  lra.
Qed.

Lemma Qsquare_nonneg (x : Q) : 0 <= x * x.
Proof.
  destruct (Qlt_le_dec x 0) as [Hneg|Hpos].
  - assert (H : 0 <= (- x) * (- x)) by (apply Qmult_le_0_compat; lra). lra.
  - apply Qmult_le_0_compat; assumption.
Qed.

Lemma easeOut_low (p : Q) : 0 <= 1 - easeOutQuad p.
Proof.
  unfold easeOutQuad. pose proof (Qsquare_nonneg (1 - p)) as H. lra.
Qed.

Lemma easeOut_high (p : Q) : 0 <= p -> p <= 1 -> 1 - easeOutQuad p <= 1.
Proof.
  unfold easeOutQuad. intros Hp Hq.
  assert (0 <= p * (2 - p)) by (apply Qmult_le_0_compat; lra). lra.
Qed.

Lemma easeIn_high (p : Q) : 0 <= p -> p <= 1 -> easeInQuad p <= 1.
Proof.
  unfold easeInQuad. intros Hp Hq.
  assert (0 <= (1 - p) * (1 + p)) by (apply Qmult_le_0_compat; lra). lra.
Qed.

(** *** One step in each phase *)

Lemma update_closing (c : BlinkController) (t : Tick) :
  state c = closing ->
  fst (update c t)
  = let p := progress (tick_now t - blinkStartTime c) closeDuration in
    if (closeDuration <=? tick_now t - blinkStartTime c)%Z
    then mkBlink opening (easeInQuad p) (lastBlinkTime c) (tick_now t)
    else mkBlink closing (easeInQuad p) (lastBlinkTime c) (blinkStartTime c).
Proof.
  intros Hs. unfold update, updateBlinkAnimation. rewrite Hs. cbn [fst].
  rewrite progress_test by reflexivity. reflexivity.
Qed.

Lemma update_opening (c : BlinkController) (t : Tick) :
  state c = opening ->
  fst (update c t)
  = let p := progress (tick_now t - blinkStartTime c) openDuration in
    if (openDuration <=? tick_now t - blinkStartTime c)%Z
    then mkBlink idle 0 (lastBlinkTime c) (blinkStartTime c)
    else mkBlink opening (1 - easeOutQuad p) (lastBlinkTime c)
           (blinkStartTime c).
Proof.
  intros Hs. unfold update, updateBlinkAnimation. rewrite Hs. cbn [fst].
  rewrite progress_test by reflexivity. reflexivity.
Qed.

Lemma cycle_end_cons (o o' : Z * BlinkController)
    (obs : list (Z * BlinkController)) :
  cycle_end (o :: o' :: obs) = cycle_end (o' :: obs).
Proof. reflexivity. Qed.

Abbreviation values obs :=
  (map (fun o : Z * BlinkController => blinkValue (snd o)) obs).

(** *** The opening phase *)

Lemma opening_phase (ticks : list Tick) :
  forall (c : BlinkController) (tprev : Z),
    state c = opening ->
    (blinkStartTime c <= tprev)%Z ->
    blinkValue c
    == 1 - easeOutQuad (progress (tprev - blinkStartTime c) openDuration) ->
    Sorted Z.le (tprev :: map tick_now ticks) ->
    let obs := cycle c ticks in
    Forall (fun o => state (snd o) <> closing) obs /\
    non_increasing (blinkValue c :: values obs) /\
    Forall (fun o => state (snd o) = idle -> blinkValue (snd o) == 0) obs /\
    (forall t, cycle_end obs = Some t ->
               (blinkStartTime c + openDuration <= t)%Z).
Proof.
  induction ticks as [|t rest IH]; intros c tprev Hs Hstart Hval Hsorted;
    cbv zeta.
  - simpl. split; [constructor|]. split; [repeat constructor|].
    split; [constructor|]. intros t' Ht'. discriminate Ht'.
  - apply Sorted_inv in Hsorted as [Hrest Hhd]. apply HdRel_inv in Hhd.
    simpl map in Hrest.
    assert (Hp0 : 0 <= progress (tprev - blinkStartTime c) openDuration)
      by (apply progress_nonneg; [reflexivity | lia]).
    pose proof (progress_le_1 (tprev - blinkStartTime c) openDuration) as Hp1.
    simpl cycle. rewrite (update_opening c t Hs). cbv zeta.
    destruct (Z.leb_spec openDuration (tick_now t - blinkStartTime c))
      as [Hdone|Hrun]; cbn [state].
    + split; [constructor; [cbn; discriminate | constructor]|].
      split.
      { constructor; [constructor; constructor|]. constructor. cbn.
        rewrite Hval. apply easeOut_low. }
      split; [constructor; [cbn; reflexivity | constructor]|].
      intros t' Ht'. inversion Ht'; subst. lia.
    + set (c' := mkBlink opening _ _ _).
      destruct (IH c' (tick_now t)) as (Hstates & Hmono & Hidle & Hend);
        [reflexivity | cbn; lia | cbn; reflexivity | exact Hrest |].
      split; [constructor; [cbn; discriminate | exact Hstates]|].
      split.
      { constructor; [exact Hmono|]. constructor. cbn. rewrite Hval.
        apply easeOut_mono; [|apply progress_le_1].
        apply progress_mono; [reflexivity | lia]. }
      split; [constructor; [cbn; discriminate | exact Hidle]|].
      intros t' Ht'. destruct (cycle c' rest) as [|o obs] eqn:Hobs.
      * discriminate Ht'.
      * rewrite cycle_end_cons in Ht'. exact (Hend t' Ht').
Qed.

(** *** The closing phase, followed by the opening phase *)

Lemma closing_phase (ticks : list Tick) :
  forall (c : BlinkController) (tprev : Z),
    state c = closing ->
    (blinkStartTime c <= tprev)%Z ->
    blinkValue c
    == easeInQuad (progress (tprev - blinkStartTime c) closeDuration) ->
    Sorted Z.le (tprev :: map tick_now ticks) ->
    let obs := cycle c ticks in
    exists up down,
      obs = up ++ down /\
      Forall (fun o => state (snd o) = closing) up /\
      non_decreasing (blinkValue c :: values up) /\
      Forall (fun o => blinkValue (snd o) <= 1) up /\
      (down = [] \/
       exists o rest, down = o :: rest /\
                      state (snd o) = opening /\ blinkValue (snd o) == 1) /\
      Forall (fun o => state (snd o) <> closing) down /\
      non_increasing (values down) /\
      Forall (fun o => state (snd o) = idle -> blinkValue (snd o) == 0) obs /\
      (forall t, cycle_end obs = Some t ->
                 (blinkStartTime c + closeDuration + openDuration <= t)%Z).
Proof.
  induction ticks as [|t rest IH]; intros c tprev Hs Hstart Hval Hsorted;
    cbv zeta.
  - exists [], []. simpl. split; [reflexivity|]. split; [constructor|].
    split; [repeat constructor|]. split; [constructor|].
    split; [left; reflexivity|]. split; [constructor|].
    split; [constructor|]. split; [constructor|].
    intros t' Ht'. discriminate Ht'.
  - apply Sorted_inv in Hsorted as [Hrest Hhd]. apply HdRel_inv in Hhd.
    simpl map in Hrest.
    assert (Hp0 : 0 <= progress (tprev - blinkStartTime c) closeDuration)
      by (apply progress_nonneg; [reflexivity | lia]).
    assert (Hq0 : 0 <= progress (tick_now t - blinkStartTime c) closeDuration)
      by (apply progress_nonneg; [reflexivity | lia]).
    assert (Hpq : progress (tprev - blinkStartTime c) closeDuration
                  <= progress (tick_now t - blinkStartTime c) closeDuration)
      by (apply progress_mono; [reflexivity | lia]).
    simpl cycle. rewrite (update_closing c t Hs). cbv zeta.
    destruct (Z.leb_spec closeDuration (tick_now t - blinkStartTime c))
      as [Hdone|Hrun]; cbn [state].
    + (* the closing phase completes at this frame *)
      assert (Hone : easeInQuad
                       (progress (tick_now t - blinkStartTime c) closeDuration)
                     == 1).
      { unfold easeInQuad. rewrite (progress_done _ closeDuration);
          [reflexivity | reflexivity | exact Hdone]. }
      set (c' := mkBlink opening _ _ _).
      change (blinkValue c' == 1) in Hone.
      destruct (opening_phase rest c' (tick_now t))
        as (Hstates & Hmono & Hidle & Hend);
        [reflexivity | cbn; lia | | exact Hrest |].
      { rewrite Hone. cbn [blinkStartTime c'].
        replace (tick_now t - tick_now t)%Z with 0%Z by lia. reflexivity. }
      exists [], ((tick_now t, c') :: cycle c' rest).
      split; [reflexivity|]. split; [constructor|].
      split; [repeat constructor|]. split; [constructor|].
      split; [right; exists (tick_now t, c'), (cycle c' rest); auto|].
      split; [constructor; [cbn; discriminate | exact Hstates]|].
      split; [exact Hmono|].
      split; [constructor; [cbn; discriminate | exact Hidle]|].
      intros t' Ht'. destruct (cycle c' rest) as [|o obs] eqn:Hobs.
      * discriminate Ht'.
      * rewrite cycle_end_cons in Ht'. specialize (Hend t' Ht').
        cbn in Hend. lia.
    + (* still closing *)
      set (c' := mkBlink closing _ _ _).
      destruct (IH c' (tick_now t))
        as (up & down & Hobs & Hup & Hmono & Hle & Hturn & Hdown & Hfall
            & Hidle & Hend);
        [reflexivity | cbn; lia | cbn; reflexivity | exact Hrest |].
      exists ((tick_now t, c') :: up), down.
      split; [rewrite Hobs; reflexivity|].
      split; [constructor; [reflexivity | exact Hup]|].
      split.
      { constructor; [exact Hmono|]. constructor. cbn. rewrite Hval.
        apply easeIn_mono; assumption. }
      split.
      { constructor; [|exact Hle]. cbn.
        apply easeIn_high; [exact Hq0 | apply progress_le_1]. }
      split; [exact Hturn|]. split; [exact Hdown|]. split; [exact Hfall|].
      split; [constructor; [cbn; discriminate | exact Hidle]|].
      intros t' Ht'. destruct (cycle c' rest) as [|o obs] eqn:Hcyc.
      * discriminate Ht'.
      * rewrite cycle_end_cons in Ht'. exact (Hend t' Ht').
Qed.

(** C5, as the code has it.  From the call that starts a blink at [t0],
    over frames whose times do not go backwards: the controller stays
    closing while [blinkValue] does not decrease (all values at most 1);
    the frame that finishes the closing phase sets [blinkValue] to 1 and
    the state to opening; from then on [blinkValue] does not increase, and
    the frame that returns to idle sets it to 0.  That frame comes no
    earlier than [closeDuration + openDuration] after [t0]. *)
Theorem blink_cycle_shape (c0 : BlinkController) (t0 : Z)
    (ticks : list Tick) :
  blinkValue c0 == 0 ->
  Sorted Z.le (t0 :: map tick_now ticks) ->
  let obs := cycle (startBlink c0 t0) ticks in
  exists up down,
    obs = up ++ down /\
    Forall (fun o => state (snd o) = closing) up /\
    non_decreasing (0 :: values up) /\
    Forall (fun o => blinkValue (snd o) <= 1) up /\
    (down = [] \/
     exists o rest, down = o :: rest /\
                    state (snd o) = opening /\ blinkValue (snd o) == 1) /\
    Forall (fun o => state (snd o) <> closing) down /\
    non_increasing (values down) /\
    Forall (fun o => state (snd o) = idle -> blinkValue (snd o) == 0) obs /\
    (forall t, cycle_end obs = Some t ->
               (t0 + closeDuration + openDuration <= t)%Z).
Proof.
  intros Hzero Hsorted. cbv zeta.
  destruct (closing_phase ticks (startBlink c0 t0) t0)
    as (up & down & Hobs & Hup & Hmono & Hle & Hturn & Hdown & Hfall
        & Hidle & Hend);
    [reflexivity | cbn; lia | | exact Hsorted |].
  { cbn. rewrite Hzero. replace (t0 - t0)%Z with 0%Z by lia. reflexivity. }
  exists up, down. split; [exact Hobs|]. split; [exact Hup|]. split.
  { apply Sorted_inv in Hmono as [Hs Hhd]. constructor; [exact Hs|].
    destruct Hhd as [|b l Hb]; constructor. cbn in Hb. rewrite Hzero in Hb.
    exact Hb. }
  repeat (split; [assumption|]). exact Hend.
Qed.

Lemma blink_cycle_shape_witness :
  exists t,
    cycle_end (cycle (startBlink (constructor 0) 5000) (frames_from 5000 12))
    = Some t /\
    (5000 + closeDuration + openDuration <= t)%Z.
Proof.
  exists 5176%Z. split; [reflexivity|].
  destruct (blink_cycle_shape (constructor 0) 5000 (frames_from 5000 12))
    as (up & down & _ & _ & _ & _ & _ & _ & _ & _ & Hend).
  - reflexivity.
  - simpl.
    repeat (apply Sorted_cons;
            [|first [apply HdRel_nil | apply HdRel_cons; lia]]).
    apply Sorted_nil.
  - apply Hend. reflexivity.
Defined.

(** C5 as worded fails in its last part: with a frame every 16 ms the
    closing phase ends at the first frame 50 ms or more after the start
    (64 ms), the opening phase is timed from that frame, and the blink
    started at 5000 is over at 5176, after 176 ms rather than 150 ms. *)
Lemma blink_cycle_not_exact :
  state started_at_5000 = closing /\
  blinkStartTime started_at_5000 = 5000%Z /\
  cycle_end (cycle started_at_5000 (frames_from 5000 12)) = Some 5176%Z /\
  (5176 - 5000 <> closeDuration + openDuration)%Z.
Proof. repeat split. discriminate. Qed.

(** The nominal duration is met when frames fall on the phase ends. *)
Lemma blink_cycle_exact_when_aligned (c0 : BlinkController) (t0 : Z) :
  cycle_end (cycle (startBlink c0 t0)
               [mkTick 0 (t0 + closeDuration) 0 0;
                mkTick 0 (t0 + closeDuration + openDuration) 0 0])
  = Some (t0 + closeDuration + openDuration)%Z.
Proof.
  assert (H1 : fst (update (startBlink c0 t0)
                      (mkTick 0 (t0 + closeDuration) 0 0))
               = mkBlink opening
                   (easeInQuad (progress (t0 + closeDuration - t0)
                                  closeDuration))
                   t0 (t0 + closeDuration)%Z).
  { rewrite update_closing by reflexivity. cbv zeta.
    cbn [startBlink blinkStartTime lastBlinkTime tick_now].
    replace (closeDuration <=? t0 + closeDuration - t0)%Z with true
      by (symmetry; apply Z.leb_le; lia).
    reflexivity. }
  cbn [cycle]. rewrite H1. cbn [state].
  rewrite update_opening by reflexivity. cbv zeta.
  cbn [blinkStartTime tick_now].
  replace (openDuration <=? t0 + closeDuration + openDuration
                            - (t0 + closeDuration))%Z with true
    by (symmetry; apply Z.leb_le; lia).
  reflexivity.
Qed.

(** A blink is started by [update] through [startBlink], from idle. *)
Lemma update_starts_blink (c : BlinkController) (t : Tick) :
  state c = idle ->
  state (fst (update c t)) <> idle ->
  fst (update c t) = startBlink c (tick_now t).
Proof.
  intros Hs. unfold update. rewrite Hs.
  destruct (_ || _); cbn [fst]; [reflexivity | congruence].
Qed.

(** X14.  An idle controller has its eyes open. *)
Lemma idle_blinkValue_zero (c : BlinkController) :
  reachable c -> state c = idle -> blinkValue c == 0.
Proof.
  induction 1 as [now|c t Hc IH|c now Hc IH]; intros Hs.
  - reflexivity.
  - destruct (state c) eqn:Hc0.
    + unfold update in Hs |- *. rewrite Hc0 in Hs |- *.
      destruct (_ || _); cbn in Hs |- *; [discriminate | auto].
    + rewrite (update_closing c t Hc0) in Hs |- *. cbv zeta in Hs |- *.
      destruct (closeDuration <=? _)%Z; discriminate Hs.
    + rewrite (update_opening c t Hc0) in Hs |- *. cbv zeta in Hs |- *.
      destruct (openDuration <=? _)%Z; [reflexivity | discriminate Hs].
  - reflexivity.
Qed.

End BlinkProps.

(** ** Animation blend controller *)

Section BlendProps.

Import Blend.

Context {A : Type} `{AnimationAction A}.

Lemma AnimationType_eqb_eq (a b : AnimationType) :
  AnimationType_eqb a b = true <-> a = b.
Proof. destruct a, b; simpl; split; congruence. Qed.

(** *** How the scene operations act on actions and timers *)

Lemma action_of_log (e : ConsoleEvent) (sc : Scene A) (k : AnimationType) :
  action_of (log e sc) k = action_of sc k.
Proof. destruct k; reflexivity. Qed.

Lemma timers_log (e : ConsoleEvent) (sc : Scene A) :
  timers (log e sc) = timers sc.
Proof. reflexivity. Qed.

Lemma action_of_setTimeout (key : AnimationType) (ms : Q) (sc : Scene A)
    (k : AnimationType) :
  action_of (setTimeout key ms sc) k = action_of sc k.
Proof. destruct k; reflexivity. Qed.

Lemma timers_setTimeout (key : AnimationType) (ms : Q) (sc : Scene A) :
  timers (setTimeout key ms sc) = timers sc ++ [mkTimer ms key].
Proof. reflexivity. Qed.

Lemma action_of_update_action (sc : Scene A) (key : AnimationType)
    (f : A -> A) (k : AnimationType) :
  action_of (update_action sc key f) k
  = if AnimationType_eqb key k then option_map f (action_of sc k)
    else action_of sc k.
Proof.
  unfold update_action.
  destruct (action_of sc key) as [a|] eqn:Ea.
  - destruct key, k; cbn in *; rewrite ?Ea; reflexivity.
  - destruct key, k; cbn in *; rewrite ?Ea; reflexivity.
Qed.

Lemma timers_update_action (sc : Scene A) (key : AnimationType)
    (f : A -> A) :
  timers (update_action sc key f) = timers sc.
Proof.
  unfold update_action. destruct (action_of sc key); [|reflexivity].
  destruct key; reflexivity.
Qed.

Lemma log_states_actions (keys : list AnimationType) :
  forall (sc : Scene A) (k : AnimationType),
    action_of (fold_left log_state keys sc) k = action_of sc k /\
    timers (fold_left log_state keys sc) = timers sc.
Proof.
  induction keys as [|key keys IH]; intros sc k; [split; reflexivity|].
  cbn [fold_left]. destruct (IH (log_state sc key) k) as [-> ->].
  unfold log_state. destruct (action_of sc key).
  - rewrite action_of_log. split; reflexivity.
  - split; reflexivity.
Qed.

(** One step of the fade-out loop. *)
Lemma action_of_fade_out (d : Q) (sc : Scene A) (key k : AnimationType) :
  action_of (fade_out_one_shot d sc key) k
  = if AnimationType_eqb key k && negb (AnimationType_eqb key idle)
       && is_active sc key
    then option_map (fadeOut d) (action_of sc k)
    else action_of sc k.
Proof.
  unfold fade_out_one_shot, is_active.
  destruct (action_of sc key) as [a|] eqn:Ea;
    [|rewrite !andb_false_r; reflexivity].
  destruct (negb (AnimationType_eqb key idle));
    [|rewrite andb_false_r; reflexivity].
  destruct (isRunning a || paused a);
    [|rewrite !andb_false_r; reflexivity].
  rewrite action_of_setTimeout, action_of_update_action, action_of_log.
  rewrite !andb_true_r. reflexivity.
Qed.

Lemma timers_fade_out (d : Q) (sc : Scene A) (key : AnimationType) :
  timers (fade_out_one_shot d sc key)
  = timers sc
    ++ (if negb (AnimationType_eqb key idle) && is_active sc key
        then [mkTimer (d * 1000) key] else []).
Proof.
  unfold fade_out_one_shot, is_active.
  destruct (action_of sc key) as [a|] eqn:Ea;
    [|rewrite andb_false_r, app_nil_r; reflexivity].
  destruct (negb (AnimationType_eqb key idle));
    [|rewrite app_nil_r; reflexivity].
  destruct (isRunning a || paused a); [|rewrite app_nil_r; reflexivity].
  rewrite timers_setTimeout, timers_update_action, timers_log. reflexivity.
Qed.

Lemma AnimationType_eqb_refl (k : AnimationType) :
  AnimationType_eqb k k = true.
Proof. destruct k; reflexivity. Qed.

(** The whole loop, over any duplicate-free list of keys. *)
Lemma fade_out_loop (d : Q) (keys : list AnimationType) :
  List.NoDup keys ->
  forall sc : Scene A,
    (forall k,
       action_of (fold_left (fade_out_one_shot d) keys sc) k
       = if existsb (AnimationType_eqb k) keys
            && negb (AnimationType_eqb k idle) && is_active sc k
         then option_map (fadeOut d) (action_of sc k)
         else action_of sc k) /\
    timers (fold_left (fade_out_one_shot d) keys sc)
    = timers sc
      ++ map (mkTimer (d * 1000))
           (List.filter
              (fun key => negb (AnimationType_eqb key idle)
                          && is_active sc key)
              keys).
Proof.
  induction 1 as [|key keys Hnotin Hnodup IH]; intros sc.
  - cbn. split; [reflexivity | rewrite app_nil_r; reflexivity].
  - cbn [fold_left]. destruct (IH (fade_out_one_shot d sc key)) as [Hact Htim].
    assert (Hother : forall k, In k keys ->
              action_of (fade_out_one_shot d sc key) k = action_of sc k).
    { intros k Hk. rewrite action_of_fade_out.
      destruct (AnimationType_eqb key k) eqn:Ek; [|reflexivity].
      apply AnimationType_eqb_eq in Ek. subst k. contradiction. }
    assert (Hactive : forall k, In k keys ->
              is_active (fade_out_one_shot d sc key) k = is_active sc k).
    { intros k Hk. unfold is_active. rewrite (Hother k Hk). reflexivity. }
    split.
    + intros k. rewrite Hact. cbn [existsb].
      destruct (existsb (AnimationType_eqb k) keys) eqn:Hin.
      * apply existsb_exists in Hin as (k' & Hk' & Ek).
        apply AnimationType_eqb_eq in Ek. subst k'.
        rewrite orb_true_r, (Hactive k Hk'), (Hother k Hk'). reflexivity.
      * rewrite orb_false_r. cbn [andb]. rewrite action_of_fade_out.
        destruct (AnimationType_eqb k key) eqn:Ek.
        -- apply AnimationType_eqb_eq in Ek. subst k.
           rewrite AnimationType_eqb_refl. reflexivity.
        -- replace (AnimationType_eqb key k) with false; [reflexivity|].
           symmetry. apply not_true_iff_false. intros E.
           apply AnimationType_eqb_eq in E. subst k.
           rewrite AnimationType_eqb_refl in Ek. discriminate Ek.
    + rewrite Htim, timers_fade_out, <- app_assoc. f_equal.
      cbn [List.filter].
      rewrite (List.filter_ext_in
                 (fun k => negb (AnimationType_eqb k idle)
                           && is_active (fade_out_one_shot d sc key) k)
                 (fun k => negb (AnimationType_eqb k idle)
                           && is_active sc k) keys)
        by (intros k Hk; rewrite (Hactive k Hk); reflexivity).
      destruct (negb (AnimationType_eqb key idle) && is_active sc key);
        reflexivity.
Qed.

Lemma entries_NoDup : List.NoDup entries.
Proof.
  unfold entries. repeat constructor; cbn; intuition discriminate.
Qed.

(** [playAnimation idle] unfolded, for a registered idle action. *)
Lemma playAnimation_idle_unfold (sc : Scene A) (d : Q) (idleAction : A) :
  idleActionRef sc = Some idleAction ->
  playAnimation idle d sc
  = let sc1 := fold_left log_state entries (log (TransitionStart idle) sc) in
    let sc2 := fold_left (fade_out_one_shot d) entries sc1 in
    let sc3 := if negb (isRunning idleAction)
               then update_action (log RestartingIdle sc2) idle play
               else log FadingInIdle sc2 in
    log (TransitionStarted idle)
      (update_action
         (log (FadingIn idle)
            (update_action
               (update_action
                  (update_action sc3 idle (set_enabled true))
                  idle (setEffectiveTimeScale 1))
               idle (setEffectiveWeight 1)))
         idle (fadeIn d)).
Proof.
  intros Hidle. unfold playAnimation. cbn [action_of]. rewrite Hidle.
  reflexivity.
Qed.

Create Rewrite HintDb scene.

#[local] Hint Rewrite action_of_log timers_log
  action_of_setTimeout timers_setTimeout
  action_of_update_action timers_update_action : scene.

(** One request for the background clip, [playAnimation idle d], made
    while the idle action is registered: every one-shot action that is
    running or paused receives [fadeOut d] and nothing else, and for each
    of them a timer of [d * 1000] ms, the length of that fade, is queued
    behind the timers already there; the other one-shot actions are
    untouched.  The idle action is started with [play] when it was not
    running, and in both cases is enabled, set to time scale 1 and
    weight 1, and faded in over [d]. *)
Lemma idle_request_effect
    (sc : Scene A) (d : Q) (idleAction : A) :
  idleActionRef sc = Some idleAction ->
  let sc' := playAnimation idle d sc in
  (forall key, key <> idle ->
     action_of sc' key
     = if is_active sc key
       then option_map (fadeOut d) (action_of sc key)
       else action_of sc key) /\
  timers sc'
  = timers sc
    ++ map (mkTimer (d * 1000)) (List.filter (is_active sc) one_shots) /\
  idleActionRef sc'
  = Some (fadeIn d (setEffectiveWeight 1 (setEffectiveTimeScale 1
            (set_enabled true
               (if isRunning idleAction then idleAction
                else play idleAction))))).
Proof.
  intros Hidle. cbv zeta. rewrite (playAnimation_idle_unfold sc d _ Hidle).
  cbv zeta.
  set (sc1 := fold_left log_state entries (log (TransitionStart idle) sc)).
  assert (Hsc1 : forall k, action_of sc1 k = action_of sc k).
  { intros k. unfold sc1.
    rewrite (proj1 (log_states_actions entries _ k)).
    apply action_of_log. }
  assert (Hact1 : forall k, is_active sc1 k = is_active sc k).
  { intros k. unfold is_active. rewrite Hsc1. reflexivity. }
  assert (Htim1 : timers sc1 = timers sc).
  { unfold sc1. rewrite (proj2 (log_states_actions entries _ idle)).
    reflexivity. }
  destruct (fade_out_loop d entries entries_NoDup sc1) as [Hloop Htimers].
  set (sc2 := fold_left (fade_out_one_shot d) entries sc1) in *.
  split; [|split].
  - intros key Hkey.
    assert (Hne : AnimationType_eqb idle key = false).
    { apply not_true_iff_false. intros E.
      apply AnimationType_eqb_eq in E. congruence. }
    destruct (negb (isRunning idleAction));
      autorewrite with scene; rewrite Hne, Hloop, Hact1, Hsc1;
      destruct key; try congruence; reflexivity.
  - destruct (negb (isRunning idleAction));
      autorewrite with scene; rewrite Htimers, Htim1; f_equal;
      cbn [entries List.filter AnimationType_eqb negb andb one_shots];
      rewrite !Hact1; reflexivity.
  - change (idleActionRef ?x) with (action_of x idle).
    assert (Hidle2 : action_of sc2 idle = Some idleAction).
    { rewrite Hloop. cbn [AnimationType_eqb negb andb].
      rewrite andb_false_r. rewrite Hsc1. exact Hidle. }
    destruct (isRunning idleAction); cbn [negb];
      autorewrite with scene; cbn [AnimationType_eqb];
      rewrite Hidle2; reflexivity.
Qed.

(** *** Requests that overlap *)

Lemma skipn_length_app {B : Type} (l l' : list B) :
  skipn (length l) (l ++ l') = l'.
Proof. induction l as [|x l IH]; [reflexivity | exact IH]. Qed.

Lemma request_idle (p : Page A) (at_ms d : Q) (idleAction : A) :
  idleActionRef (page_scene p) = Some idleAction ->
  request at_ms idle d p
  = mkPage (playAnimation idle d (page_scene p))
      (pending p
       ++ map (cleanup_at at_ms d)
            (List.filter (is_active (page_scene p)) one_shots)).
Proof.
  intros Hidle. unfold request.
  destruct (idle_request_effect (page_scene p) d idleAction Hidle)
    as (_ & Htimers & _).
  cbv zeta in Htimers. rewrite Htimers, skipn_length_app, map_map.
  reflexivity.
Qed.

Lemma filter_due (now_ms at_ms d : Q) (keys : list AnimationType) :
  List.filter (fun x => Qle_bool (due_ms x) now_ms)
    (map (cleanup_at at_ms d) keys)
  = (if Qle_bool (at_ms + d * 1000) now_ms
     then map (cleanup_at at_ms d) keys else []) /\
  List.filter (fun x => negb (Qle_bool (due_ms x) now_ms))
    (map (cleanup_at at_ms d) keys)
  = (if Qle_bool (at_ms + d * 1000) now_ms
     then [] else map (cleanup_at at_ms d) keys).
Proof.
  induction keys as [|k keys [IH1 IH2]].
  - destruct (Qle_bool _ _); split; reflexivity.
  - cbn [map List.filter cleanup_at due_ms].
    fold (cleanup_at at_ms d). rewrite IH1, IH2.
    destruct (Qle_bool (at_ms + d * 1000) now_ms); split; reflexivity.
Qed.

(** Timers that are due at the same time run in the order they were
    queued. *)
Lemma by_due_same_time (at_ms d : Q) (keys : list AnimationType) :
  by_due (map (cleanup_at at_ms d) keys) = map (cleanup_at at_ms d) keys.
Proof.
  induction keys as [|k keys IH]; [reflexivity|].
  cbn [map by_due fold_right]. fold (by_due (map (cleanup_at at_ms d) keys)).
  rewrite IH. destruct keys as [|k' keys]; [reflexivity|].
  cbn [map insert_due cleanup_at due_ms].
  replace (Qle_bool (at_ms + d * 1000) (at_ms + d * 1000)) with true;
    [reflexivity|].
  symmetry. apply Qle_bool_iff. apply Qle_refl.
Qed.

Lemma action_of_fire (t : Timer) (sc : Scene A) (k : AnimationType) :
  action_of (fire t sc) k
  = if AnimationType_eqb (timer_key t) k
    then option_map cleanup (action_of sc k)
    else action_of sc k.
Proof.
  unfold fire. rewrite action_of_log, action_of_update_action. reflexivity.
Qed.

(** Running the cleanup timers of distinct keys: each of these actions
    is cleaned up once, the others are left alone. *)
Lemma action_of_fire_all (at_ms d : Q) (k : AnimationType) :
  forall (keys : list AnimationType) (sc : Scene A),
    List.NoDup keys ->
    action_of
      (fold_left (fun sc x => fire (pending_timer x) sc)
         (map (cleanup_at at_ms d) keys) sc) k
    = if existsb (AnimationType_eqb k) keys
      then option_map cleanup (action_of sc k)
      else action_of sc k.
Proof.
  induction keys as [|key keys IH]; intros sc Hnodup; [reflexivity|].
  apply List.NoDup_cons_iff in Hnodup as [Hnotin Hnodup].
  cbn [map fold_left existsb cleanup_at pending_timer].
  fold (cleanup_at at_ms d). rewrite (IH _ Hnodup), action_of_fire.
  cbn [timer_key].
  destruct (AnimationType_eqb k key) eqn:Ek.
  - apply AnimationType_eqb_eq in Ek. subst key.
    rewrite AnimationType_eqb_refl. cbn [orb].
    destruct (existsb (AnimationType_eqb k) keys) eqn:Hin; [|reflexivity].
    apply existsb_exists in Hin as (k' & Hk' & Ek').
    apply AnimationType_eqb_eq in Ek'. subst k'. contradiction.
  - replace (AnimationType_eqb key k) with false; [reflexivity|].
    symmetry. apply not_true_iff_false. intros E.
    apply AnimationType_eqb_eq in E. subst key.
    rewrite AnimationType_eqb_refl in Ek. discriminate Ek.
Qed.

Lemma one_shots_NoDup : List.NoDup one_shots.
Proof.
  unfold one_shots. repeat constructor; cbn; intuition discriminate.
Qed.

Lemma active_one_shot (sc : Scene A) (key : AnimationType) :
  key <> idle ->
  is_active sc key = true ->
  In key (List.filter (is_active sc) one_shots) /\
  existsb (AnimationType_eqb key) (List.filter (is_active sc) one_shots)
  = true.
Proof.
  intros Hne Hactive.
  assert (Hin : In key (List.filter (is_active sc) one_shots)).
  { apply List.filter_In. split; [|exact Hactive].
    destruct key; cbn; tauto. }
  split; [exact Hin|]. apply existsb_exists. exists key.
  split; [exact Hin | apply AnimationType_eqb_refl].
Qed.

(** C6, what the code does when two requests overlap.  A queued cleanup
    is never cancelled, and an action that is fading out is still active.
    So when the background clip is requested at [t0] and again at [t1],
    before the first fade has ended, a one-shot action that was active is
    faded out twice and gets two timers.  At any time from the end of the
    first fade on and before the end of the second, the first timer has
    run: the action has been disabled, stopped and reset while the fade
    of the second request is still under way, its own cleanup pending. *)
Theorem cleanup_runs_before_fade_ends
    (sc : Scene A) (key : AnimationType) (d t0 t1 now_ms : Q)
    (idleAction a : A) :
  key <> idle ->
  idleActionRef sc = Some idleAction ->
  action_of sc key = Some a ->
  isRunning a || paused a = true ->
  isRunning (fadeOut d a) || paused (fadeOut d a) = true ->
  t1 < t0 + d * 1000 ->
  t0 + d * 1000 <= now_ms ->
  now_ms < t1 + d * 1000 ->
  let p :=
    elapse now_ms
      (request t1 idle d (elapse t1 (request t0 idle d (mkPage sc [])))) in
  action_of (page_scene p) key
  = Some (reset (stop (set_paused false (set_enabled false
            (fadeOut d (fadeOut d a)))))) /\
  In (mkPending (t1 + d * 1000) (mkTimer (d * 1000) key)) (pending p).
Proof.
  intros Hne Hidle Ha Hactive Hfading Hoverlap Hfirst Hsecond. cbv zeta.
  assert (Hlate1 : Qle_bool (t0 + d * 1000) t1 = false).
  { apply not_true_iff_false. intros E. apply Qle_bool_iff in E.
    apply (Qlt_not_le _ _ Hoverlap). exact E. }
  assert (Hdue1 : Qle_bool (t0 + d * 1000) now_ms = true)
    by (apply Qle_bool_iff; exact Hfirst).
  assert (Hlate2 : Qle_bool (t1 + d * 1000) now_ms = false).
  { apply not_true_iff_false. intros E. apply Qle_bool_iff in E.
    apply (Qlt_not_le _ _ Hsecond). exact E. }
  destruct (idle_request_effect sc d idleAction Hidle)
    as (Hact1 & _ & Hidle1).
  cbv zeta in Hact1, Hidle1.
  set (sc1 := playAnimation idle d sc) in *.
  set (keys1 := List.filter (is_active sc) one_shots).
  assert (His : is_active sc key = true)
    by (unfold is_active; rewrite Ha; exact Hactive).
  assert (Ha1 : action_of sc1 key = Some (fadeOut d a)).
  { rewrite (Hact1 key Hne), His, Ha. reflexivity. }
  assert (His1 : is_active sc1 key = true)
    by (unfold is_active; rewrite Ha1; exact Hfading).
  destruct (idle_request_effect sc1 d _ Hidle1) as (Hact2 & _ & _).
  cbv zeta in Hact2.
  set (sc2 := playAnimation idle d sc1) in *.
  set (keys2 := List.filter (is_active sc1) one_shots).
  assert (Ha2 : action_of sc2 key = Some (fadeOut d (fadeOut d a))).
  { rewrite (Hact2 key Hne), His1, Ha1. reflexivity. }
  (* the first request queues its timers *)
  assert (Hp1 : request t0 idle d (mkPage sc [])
                = mkPage sc1 (map (cleanup_at t0 d) keys1)).
  { rewrite (request_idle (mkPage sc []) t0 d idleAction Hidle).
    reflexivity. }
  (* nothing is due when the second request is made *)
  assert (Hp2 : elapse t1 (mkPage sc1 (map (cleanup_at t0 d) keys1))
                = mkPage sc1 (map (cleanup_at t0 d) keys1)).
  { unfold elapse. cbn [page_scene pending].
    destruct (filter_due t1 t0 d keys1) as [Hready Hlater].
    rewrite Hready, Hlater, Hlate1. reflexivity. }
  (* the second request queues its timers behind them *)
  assert (Hp3 : request t1 idle d (mkPage sc1 (map (cleanup_at t0 d) keys1))
                = mkPage sc2
                    (map (cleanup_at t0 d) keys1
                     ++ map (cleanup_at t1 d) keys2)).
  { rewrite (request_idle (mkPage sc1 _) t1 d _ Hidle1). reflexivity. }
  (* the first timers run, the second ones stay *)
  assert (Hp4 : elapse now_ms
                  (mkPage sc2
                     (map (cleanup_at t0 d) keys1
                      ++ map (cleanup_at t1 d) keys2))
                = mkPage
                    (fold_left (fun sc x => fire (pending_timer x) sc)
                       (map (cleanup_at t0 d) keys1) sc2)
                    (map (cleanup_at t1 d) keys2)).
  { unfold elapse. cbn [page_scene pending].
    rewrite !List.filter_app.
    destruct (filter_due now_ms t0 d keys1) as [Hready Hlater].
    destruct (filter_due now_ms t1 d keys2) as [Hready2 Hlater2].
    rewrite Hready, Hlater, Hready2, Hlater2, Hdue1, Hlate2.
    rewrite app_nil_r, by_due_same_time. reflexivity. }
  rewrite Hp1, Hp2, Hp3, Hp4. cbn [page_scene pending].
  split.
  - unfold keys1.
    rewrite (action_of_fire_all t0 d key _ sc2
               (List.NoDup_filter _ one_shots_NoDup)).
    rewrite (proj2 (active_one_shot sc key Hne His)), Ha2. reflexivity.
  - change (mkPending (t1 + d * 1000) (mkTimer (d * 1000) key))
      with (cleanup_at t1 d key).
    apply in_map. exact (proj1 (active_one_shot sc1 key Hne His1)).
Qed.

(** C7.  A trigger whose lower-cased name is no entry of [animationMap],
    or is the name of a clip whose action was never registered, is
    ignored: the handler is a total function (no path of it throws), it
    leaves every action and the timer queue as they were, and it reports
    the trigger on the console, with a warning added when the name is not
    known at all. *)
Theorem unknown_trigger_is_ignored
    (sc : Scene A) (trigger : AnimationTrigger) :
  playAnimationRef sc = true ->
  match animationMap (toLowerCase (animation trigger)) with
  | Own type => action_of sc type = None
  | Inherited | Undefined => True
  end ->
  let sc' := onAnimationTrigger (Some trigger) sc in
  (forall type, action_of sc' type = action_of sc type) /\
  timers sc' = timers sc /\
  console sc'
  = console sc
    ++ TriggerReceived (animation trigger)
       :: match animationMap (toLowerCase (animation trigger)) with
          | Undefined => [UnknownAnimation (animation trigger)]
          | _ => []
          end.
Proof.
  intros Href Hname. unfold onAnimationTrigger. rewrite Href. cbn [negb].
  destruct (animationMap (toLowerCase (animation trigger))) as [type| |].
  - unfold playAnimation.
    replace (action_of (log (TriggerReceived (animation trigger)) sc) type)
      with (action_of sc type) by (destruct type; reflexivity).
    rewrite Hname. cbv zeta.
    split; [intros ty; destruct ty; reflexivity|]. split; reflexivity.
  - cbv zeta. split; [intros ty; destruct ty; reflexivity|].
    split; reflexivity.
  - cbv zeta. split; [intros ty; destruct ty; reflexivity|].
    split; [reflexivity|]. cbn. rewrite <- app_assoc. reflexivity.
Qed.

(** X17.  No call of [playAnimation] removes a pending timer: a cleanup queued
    by an earlier request still fires after a later request. *)
Lemma playAnimation_keeps_timers
    (type : AnimationType) (d : Q) (sc : Scene A) :
  exists queued, timers (playAnimation type d sc) = timers sc ++ queued.
Proof.
  unfold playAnimation.
  destruct (action_of sc type) as [newAction|];
    [|exists []; symmetry; apply app_nil_r].
  set (sc1 := fold_left log_state entries (log (TransitionStart type) sc)).
  assert (Htim1 : timers sc1 = timers sc).
  { unfold sc1. rewrite (proj2 (log_states_actions entries _ idle)).
    reflexivity. }
  destruct type.
  - destruct (fade_out_loop d entries entries_NoDup sc1) as [_ Htimers].
    eexists. destruct (negb (isRunning newAction));
      autorewrite with scene; rewrite Htimers, Htim1; reflexivity.
  - exists []. destruct (idleActionRef sc1) as [i|];
      [destruct (isRunning i)|]; autorewrite with scene;
      rewrite Htim1; symmetry; apply app_nil_r.
  - exists []. destruct (idleActionRef sc1) as [i|];
      [destruct (isRunning i)|]; autorewrite with scene;
      rewrite Htim1; symmetry; apply app_nil_r.
  - exists []. destruct (idleActionRef sc1) as [i|];
      [destruct (isRunning i)|]; autorewrite with scene;
      rewrite Htim1; symmetry; apply app_nil_r.
Qed.

End BlendProps.

Section BlendExamples.

Import Blend.

Lemma cleanup_runs_before_fade_ends_witness :
  option_map calls (greetingActionRef (page_scene idle_requested_twice))
  = Some [CallFadeOut (1 # 2); CallFadeOut (1 # 2);
          CallEnabled false; CallPaused false; CallStop; CallReset] /\
  In (mkPending (300 + (1 # 2) * 1000) (mkTimer ((1 # 2) * 1000) greeting))
    (pending idle_requested_twice).
Proof.
  destruct (cleanup_runs_before_fade_ends busy_scene greeting
              (1 # 2) 0 300 500
              (mkRecorder true false []) (mkRecorder false true []))
    as [Hcleaned Hpending];
    try reflexivity; try discriminate.
  split; [|exact Hpending].
  change (greetingActionRef ?s) with (action_of s greeting).
  unfold idle_requested_twice. rewrite Hcleaned. reflexivity.
Defined.

Lemma unknown_trigger_is_ignored_witness :
  (forall type,
     action_of (onAnimationTrigger (Some (mkTrigger "Moonwalk" 7))
                  idle_only_scene) type
     = action_of idle_only_scene type) /\
  (forall type,
     action_of (onAnimationTrigger (Some (mkTrigger "SPIN" 8))
                  idle_only_scene) type
     = action_of idle_only_scene type).
Proof.
  split.
  - apply (unknown_trigger_is_ignored idle_only_scene
             (mkTrigger "Moonwalk" 7) eq_refl I).
  - apply (unknown_trigger_is_ignored idle_only_scene
             (mkTrigger "SPIN" 8) eq_refl eq_refl).
Defined.

(** The timer queued by the request for the background is still the
    first pending one after the greeting was started again, and when it
    fires its closure disables, stops and resets the greeting that has
    just been told to play. *)
Lemma stale_cleanup_hits_restarted_action :
  hd_error (timers greeting_restarted)
  = Some (mkTimer ((1 # 2) * 1000) greeting) /\
  option_map calls
    (greetingActionRef
       (fire (mkTimer ((1 # 2) * 1000) greeting) greeting_restarted))
  = Some [CallFadeOut (1 # 2);
          CallReset; CallEnabled true; CallTimeScale 1; CallWeight 1;
          CallFadeIn (1 # 2); CallPlay;
          CallEnabled false; CallPaused false; CallStop; CallReset].
Proof. split; reflexivity. Qed.

End BlendExamples.

(** ** Expression weights *)

Section AnimateProps.

Import Animate.

Lemma animate_expressions (frequencyData : option (list byte)) (now : Z)
    (t : Blink.Tick) (av : Avatar) :
  expressions (animate frequencyData now t av)
  = apply_calls
      (expression_calls (smoothed frequencyData now av)
         (blinked frequencyData now t av))
      (expressions av).
Proof.
  unfold animate, blinked, smoothed.
  destruct (Smoother.add _ _ _ _) as [smoother smoothedViseme].
  cbn [snd].
  destruct (Blink.update _ _) as [blink blinkValue]. reflexivity.
Qed.

Lemma weights_after_calls (e : VisemeEstimate) (b : Q) (m : gmap string Q)
    (v : VisemeType) :
  v <> neutral ->
  apply_calls (expression_calls e b) m !! viseme_name v
  = Some (if VisemeType_eqb v (viseme e)
             && negb (VisemeType_eqb (viseme e) neutral)
             && Qltb (1 # 10) (intensity e)
          then intensity e else 0).
Proof.
  intros Hv. unfold expression_calls, apply_calls, setValue.
  destruct (Qltb (1 # 10) (intensity e)), (Qltb 0 b);
    destruct v, (viseme e); try congruence; cbn;
    simplify_map_eq; reflexivity.
Qed.

(** C10, as the code has it.  A frame first sets all five viseme weights
    to 0, then sets the held viseme's weight to the reported intensity
    provided the held viseme is not neutral and the intensity exceeds
    0.1, then the blink weight if positive.  So after the frame every
    non-neutral viseme has weight 0, except the held one when the
    reported intensity exceeds 0.1, whose weight is that intensity. *)
Theorem animate_viseme_weights (frequencyData : option (list byte))
    (now : Z) (t : Blink.Tick) (av : Avatar) (v : VisemeType) :
  v <> neutral ->
  let s := smoothed frequencyData now av in
  (exists rest,
     expression_calls s (blinked frequencyData now t av)
     = [("aa", 0); ("ee", 0); ("ih", 0); ("oh", 0); ("ou", 0)]%string
       ++ rest /\
     (rest = [] \/ rest = [("blink"%string, blinked frequencyData now t av)] \/
      (viseme s <> neutral /\ (1 # 10) < intensity s /\
       exists tail, rest = (viseme_name (viseme s), intensity s) :: tail)))
  /\
  expressions (animate frequencyData now t av) !! viseme_name v
  = Some (if VisemeType_eqb v (viseme s) && Qltb (1 # 10) (intensity s)
          then intensity s else 0).
Proof.
  intros Hv. cbv zeta. split.
  - unfold expression_calls. cbn [map allVisemes viseme_name].
    eexists. split; [reflexivity|].
    destruct (VisemeType_eqb _ neutral) eqn:Hn; cbn [negb andb].
    + destruct (Qltb 0 _); [right; left | left]; reflexivity.
    + destruct (Qltb (1 # 10) _) eqn:Hi.
      * right; right. apply Qltb_lt in Hi.
        apply VisemeType_eqb_neq in Hn. split; [exact Hn|].
        split; [exact Hi|]. eexists. reflexivity.
      * destruct (Qltb 0 _); [right; left | left]; reflexivity.
  - rewrite animate_expressions, (weights_after_calls _ _ _ v Hv).
    destruct (VisemeType_eqb v _) eqn:Hveq; [|reflexivity].
    apply VisemeType_eqb_eq in Hveq. subst v.
    apply VisemeType_eqb_neq in Hv. rewrite Hv. reflexivity.
Qed.

Lemma animate_viseme_weights_witness :
  expressions (animate (Some frame_soft) 1016 soft_tick after_silence)
    !! "ee"%string
  = Some 0.
Proof.
  apply (animate_viseme_weights (Some frame_soft) 1016 soft_tick
           after_silence ee).
  discriminate.
Defined.

(** C10 as worded fails: after one silent frame and one soft voiced frame
    the smoother holds 'aa' and reports 0.08, which is not above 0.1, and
    the weight of 'aa' stays at the 0 written by the reset. *)
Lemma held_viseme_weight_not_intensity :
  let s := smoothed (Some frame_soft) 1016 after_silence in
  viseme s = aa /\
  intensity s == 2 # 25 /\
  expressions (animate (Some frame_soft) 1016 soft_tick after_silence)
    !! viseme_name (viseme s) = Some 0 /\
  expressions (animate (Some frame_soft) 1016 soft_tick after_silence)
    !! viseme_name (viseme s) <> Some (intensity s).
Proof.
  cbv zeta.
  assert (Hs : viseme (smoothed (Some frame_soft) 1016 after_silence)
               = aa) by (vm_compute; reflexivity).
  assert (Hi : intensity (smoothed (Some frame_soft) 1016 after_silence)
               == 2 # 25) by (vm_compute; reflexivity).
  pose proof (weights_after_calls
                (smoothed (Some frame_soft) 1016 after_silence)
                (blinked (Some frame_soft) 1016 soft_tick after_silence)
                (expressions after_silence) aa ltac:(discriminate)) as Hw.
  rewrite <- animate_expressions in Hw.
  remember (smoothed (Some frame_soft) 1016 after_silence) as s eqn:Es.
  remember (animate (Some frame_soft) 1016 soft_tick after_silence) as av' eqn:Ea.
  clear Es Ea. destruct s as [sv si]. cbn [viseme intensity] in *. subst sv.
  cbn [viseme_name VisemeType_eqb andb negb] in Hw |- *.
  replace (Qltb (1 # 10) si) with false in Hw
    by (symmetry; apply Qltb_ge; rewrite Hi; discriminate).
  split; [reflexivity|]. split; [exact Hi|]. split; [exact Hw|].
  rewrite Hw. intros Heq. injection Heq as Heq.
  rewrite <- Heq in Hi. discriminate Hi.
Qed.

End AnimateProps.

(** ** Skeletal retargeter *)

Section RetargetProps.

Import Retarget.

Context `{QuaternionOps}.

Lemma nmul_NaN (a : num) : nmul a NaN = NaN.
Proof. destruct a; reflexivity. Qed.

Lemma ndiv_NaN_r (a : num) : ndiv a NaN = NaN.
Proof. destruct a; reflexivity. Qed.

(** An unresolved hip on either side makes the scale factor [NaN]. *)
Lemma hipsPositionScale_unresolved (asset : Asset) (vrm : VRM) :
  motionHipsHeight asset = None \/ vrmHipsY vrm = None ->
  hipsPositionScale asset vrm = NaN.
Proof.
  unfold hipsPositionScale. intros [->| ->]; cbn.
  - apply ndiv_NaN_r.
  - reflexivity.
Qed.

Lemma scale_vector_NaN (vrm0 : bool) (vals : list num) :
  Forall (eq NaN) (scale_vector vrm0 NaN vals).
Proof.
  unfold scale_vector. apply Forall_forall. intros x Hx.
  apply elem_of_lookup_imap in Hx as (i & v & -> & _).
  symmetry. apply nmul_NaN.
Qed.

(** Every translation track the loop emits carries the scaled values. *)
Lemma convert_tracks_translations (asset : Asset) (vrm : VRM) (scale : num)
    (P : KeyframeTrack -> Prop) :
  (forall n ts vals,
      P (mkTrack n VectorKeyframeTrack ts
           (scale_vector (isVRM0 vrm) scale vals))) ->
  forall (trs : list KeyframeTrack) (st : Loop),
    Forall (fun t => kind t = VectorKeyframeTrack -> P t) (new_tracks st) ->
    Forall (fun t => kind t = VectorKeyframeTrack -> P t)
      (new_tracks (snd (convert_tracks asset vrm scale st trs))).
Proof.
  intros HP. induction trs as [|track rest IH]; intros st Hst.
  - exact Hst.
  - cbn [convert_tracks].
    destruct (convert_track asset vrm scale st track) as [track' st1] eqn:E1.
    specialize (IH st1).
    destruct (convert_tracks asset vrm scale st1 rest) as [rest' st2].
    cbn [snd] in *. apply IH. clear IH.
    unfold convert_track in E1.
    destruct (vrmNodeName vrm track) as [nodeName|];
      [|injection E1 as _ <-; exact Hst].
    destruct (kind track); injection E1 as _ <-; cbn [new_tracks].
    + apply Forall_app. split; [exact Hst|].
      constructor; [cbn; discriminate | constructor].
    + apply Forall_app. split; [exact Hst|].
      constructor; [intros _; apply HP | constructor].
    + exact Hst.
Qed.

(** C8, what the code does.  Once the clip named 'mixamo.com' is found
    the call returns a clip whatever the hips are; if the donor's hips
    node or the target's hips bone is missing, every translation track
    of that clip consists of [NaN]s.  Nothing is thrown. *)
Theorem unresolved_hips_give_NaN_tracks
    (asset : Asset) (vrm : VRM) (clip : AnimationClip) :
  findByName (animations asset) "mixamo.com" = Some clip ->
  motionHipsHeight asset = None \/ vrmHipsY vrm = None ->
  exists out,
    fst (loadMixamoAnimation asset vrm) = Returned out /\
    Forall (fun t => kind t = VectorKeyframeTrack ->
                     Forall (eq NaN) (values t))
      (tracks out).
Proof.
  intros Hclip Hhips. unfold loadMixamoAnimation. rewrite Hclip.
  rewrite (hipsPositionScale_unresolved asset vrm Hhips).
  pose proof (convert_tracks_translations asset vrm NaN
                (fun t => Forall (eq NaN) (values t))
                (fun n ts vals => scale_vector_NaN (isVRM0 vrm) vals)
                (tracks clip) (mkLoop [] identity identity)
                (List.Forall_nil _)) as Hall.
  destruct (convert_tracks asset vrm NaN _ (tracks clip)) as [donor' st].
  eexists. split; [reflexivity | exact Hall].
Qed.

(** *** What a call leaves in the donor clip *)

Lemma retarget_in_place_length (p r : quat) (vals : list num) :
  length (retarget_in_place p r vals) = length vals.
Proof.
  remember (length vals) as n eqn:Hn. revert vals Hn.
  induction n as [n IH] using lt_wf_ind. intros vals Hn.
  destruct vals as [|x [|y [|z [|w rest]]]]; try (subst n; reflexivity).
  cbn [retarget_in_place]. rewrite length_app.
  assert (Hlt : (length rest < n)%nat) by (subst n; simpl; lia).
  rewrite (IH (length rest) Hlt rest eq_refl). subst n. reflexivity.
Qed.

Lemma is_bound_name (vrm : VRM) (t t' : KeyframeTrack) :
  name t' = name t -> is_bound vrm t' = is_bound vrm t.
Proof. unfold is_bound, vrmNodeName. intros ->. reflexivity. Qed.

Lemma convert_track_footprint (asset : Asset) (vrm : VRM) (scale : num)
    (st : Loop) (t : KeyframeTrack) :
  let r := convert_track asset vrm scale st t in
  (name (fst r) = name t /\ kind (fst r) = kind t /\
   times (fst r) = times t /\
   length (values (fst r)) = length (values t) /\
   (is_rotation t && is_bound vrm t = false -> fst r = t)) /\
  map values (List.filter is_rotation (new_tracks (snd r)))
  = map values (List.filter is_rotation (new_tracks st))
    ++ (if is_rotation t && is_bound vrm t
        then [flip_quaternion (isVRM0 vrm) (values (fst r))]
        else []).
Proof.
  unfold convert_track, is_bound, is_rotation.
  destruct (vrmNodeName vrm t) as [nodeName|]; cbn [fst snd].
  - destruct (kind t) eqn:Hk; cbn [fst snd name kind times values new_tracks].
    + split.
      * repeat split; try reflexivity; try exact Hk.
        -- apply retarget_in_place_length.
        -- discriminate.
      * rewrite List.filter_app, map_app. reflexivity.
    + split; [repeat split; try reflexivity; exact Hk|].
      rewrite List.filter_app, map_app. cbn. rewrite !app_nil_r.
      reflexivity.
    + split; [repeat split; try reflexivity; exact Hk|].
      rewrite app_nil_r. reflexivity.
  - split; [repeat split; reflexivity|].
    rewrite andb_false_r, app_nil_r. reflexivity.
Qed.

Lemma convert_tracks_footprint (asset : Asset) (vrm : VRM) (scale : num) :
  forall (trs : list KeyframeTrack) (st : Loop),
    let r := convert_tracks asset vrm scale st trs in
    Forall2 (fun t t' =>
               name t' = name t /\ kind t' = kind t /\
               times t' = times t /\
               length (values t') = length (values t) /\
               (is_rotation t && is_bound vrm t = false -> t' = t))
      trs (fst r) /\
    map values (List.filter is_rotation (new_tracks (snd r)))
    = map values (List.filter is_rotation (new_tracks st))
      ++ map (fun t' => flip_quaternion (isVRM0 vrm) (values t'))
           (List.filter (fun t' => is_rotation t' && is_bound vrm t')
              (fst r)).
Proof.
  induction trs as [|t rest IH]; intros st; cbv zeta.
  - cbn. split; [constructor | rewrite app_nil_r; reflexivity].
  - cbn [convert_tracks].
    pose proof (convert_track_footprint asset vrm scale st t) as [Ht Hout].
    cbv zeta in Ht, Hout.
    destruct (convert_track asset vrm scale st t) as [t' st1].
    specialize (IH st1). cbv zeta in IH.
    destruct (convert_tracks asset vrm scale st1 rest) as [rest' st2].
    cbn [fst snd] in *. destruct IH as [Hrest Hout2]. split.
    + constructor; [exact Ht | exact Hrest].
    + rewrite Hout2, Hout, <- app_assoc. f_equal.
      destruct Ht as (Hname & Hkind & _).
      assert (Hsame : is_rotation t' && is_bound vrm t'
                      = is_rotation t && is_bound vrm t).
      { rewrite (is_bound_name vrm t t' Hname).
        unfold is_rotation. rewrite Hkind. reflexivity. }
      cbn [List.filter]. rewrite Hsame.
      destruct (is_rotation t && is_bound vrm t); reflexivity.
Qed.

(** *** The values written into the donor clip *)

Lemma retarget_in_place_complete (p r : quat) :
  forall (n : nat) (vals : list num),
    length vals = (4 * n)%nat ->
    retarget_in_place p r vals = retargeted p r vals.
Proof.
  induction n as [|n IH]; intros vals Hlen.
  - destruct vals; [reflexivity | discriminate Hlen].
  - destruct vals as [|x [|y [|z [|w rest]]]]; try (cbn in Hlen; lia).
    cbn [retarget_in_place]. rewrite (IH rest) by (cbn in Hlen; lia).
    reflexivity.
Qed.

Lemma retarget_in_place_retargeted (p r : quat) (vals : list num) :
  (length vals mod 4 = 0)%nat ->
  retarget_in_place p r vals = retargeted p r vals.
Proof.
  intros Hmod. apply (retarget_in_place_complete p r (length vals / 4)).
  pose proof (Nat.div_mod_eq (length vals) 4). lia.
Qed.

Lemma convert_track_pose (asset : Asset) (vrm : VRM) (scale : num)
    (st : Loop) (t : KeyframeTrack) :
  let r := convert_track asset vrm scale st t in
  pose_of (snd r) = rest_step asset vrm (pose_of st) t /\
  (is_rotation t && is_bound vrm t = true ->
   values (fst r)
   = retarget_in_place (parent_rest (pose_of (snd r)))
       (rest_inverse (pose_of (snd r))) (values t)).
Proof.
  unfold convert_track, rest_step, is_bound, is_rotation, pose_of.
  destruct (vrmNodeName vrm t) as [nodeName|]; cbn [fst snd].
  - destruct (objects asset !! hd EmptyString (split_dot (name t)))
      as [node|];
      destruct (kind t);
      cbn [snd fst restRotationInverse parentRestWorldRotation values
           rest_inverse parent_rest andb];
      (split; [reflexivity|]); intros Hb; try discriminate Hb;
      reflexivity.
  - split; [destruct st; reflexivity|].
    rewrite andb_false_r. discriminate.
Qed.

Lemma convert_tracks_values (asset : Asset) (vrm : VRM) (scale : num) :
  forall (before : list KeyframeTrack) (st : Loop)
         (t : KeyframeTrack) (after : list KeyframeTrack),
    is_rotation t && is_bound vrm t = true ->
    exists t',
      nth_error (fst (convert_tracks asset vrm scale st
                        (before ++ t :: after))) (length before)
      = Some t' /\
      let pose :=
        fold_left (rest_step asset vrm) (before ++ [t]) (pose_of st) in
      values t'
      = retarget_in_place (parent_rest pose) (rest_inverse pose) (values t).
Proof.
  induction before as [|b before IH]; intros st t after Hb.
  - cbn [app convert_tracks length fold_left].
    destruct (convert_track_pose asset vrm scale st t) as [Hpose Hvals].
    cbv zeta in Hpose, Hvals.
    destruct (convert_track asset vrm scale st t) as [t' st1].
    destruct (convert_tracks asset vrm scale st1 after) as [rest' st2].
    cbn [fst snd] in *. exists t'. split; [reflexivity|].
    cbv zeta. rewrite <- Hpose. exact (Hvals Hb).
  - cbn [app convert_tracks length fold_left].
    destruct (convert_track_pose asset vrm scale st b) as [Hpose _].
    cbv zeta in Hpose.
    destruct (convert_track asset vrm scale st b) as [b' st1].
    destruct (IH st1 t after Hb) as (t' & Hnth & Hvals).
    destruct (convert_tracks asset vrm scale st1 (before ++ t :: after))
      as [rest' st2].
    cbn [fst snd] in *. exists t'. split; [exact Hnth|].
    cbv zeta in *. rewrite <- Hpose. exact Hvals.
Qed.

(** The sign flip for a VRM 0 target negates the first and the third
    component of every quaternion; for other targets there is none. *)
Lemma imap_unchanged {B : Type} (l : list B) :
  forall f : nat -> B -> B, (forall i v, f i v = v) -> imap f l = l.
Proof.
  induction l as [|x l IH]; intros f Hf; [reflexivity|].
  cbn [imap]. rewrite Hf. f_equal. apply IH. intros i v. apply Hf.
Qed.

Lemma flip_quaternion_off (vals : list num) :
  flip_quaternion false vals = vals.
Proof. unfold flip_quaternion. apply imap_unchanged. reflexivity. Qed.

Lemma flip_quaternion_on (x y z w : num) (rest : list num) :
  flip_quaternion true (x :: y :: z :: w :: rest)
  = nneg x :: y :: nneg z :: w :: flip_quaternion true rest.
Proof.
  unfold flip_quaternion. cbn [imap]. do 4 f_equal.
  apply imap_ext. intros i v _. cbn [compose andb].
  replace (S (S (S (S i)))) with (i + 2 * 2)%nat by lia.
  rewrite Nat.Div0.mod_add. reflexivity.
Qed.

(** C9, as the code has it.  A call that finds the donor clip returns a
    new clip and leaves the asset with its objects and its other clips
    as they were.  In the donor clip every track keeps its name, kind,
    times and number of values, and a track that is not a bound rotation
    track is left untouched.  A bound rotation track has its values
    overwritten with the retargeted quaternions: each quaternion [q] of
    the track becomes (rest world rotation of the parent) * [q] *
    (inverse of the rest world rotation), the rest pose being that of
    the track's joint when the asset has a node with a parent for it.
    The returned rotation tracks hold what was written into the donor,
    up to the sign flip applied for a VRM 0 target: the first and the
    third component of every quaternion negated. *)
Theorem retargeting_footprint
    (asset : Asset) (vrm : VRM) (clip : AnimationClip) :
  findByName (animations asset) "mixamo.com" = Some clip ->
  exists (out : AnimationClip) (donor' : list KeyframeTrack),
    loadMixamoAnimation asset vrm
    = (Returned out,
       mkAsset (objects asset)
         (with_tracks (animations asset) "mixamo.com" donor')) /\
    duration out = duration clip /\
    Forall2 (fun t t' =>
               name t' = name t /\ kind t' = kind t /\
               times t' = times t /\
               length (values t') = length (values t) /\
               (is_rotation t && is_bound vrm t = false -> t' = t))
      (tracks clip) donor' /\
    (forall before t after,
       tracks clip = before ++ t :: after ->
       is_rotation t && is_bound vrm t = true ->
       (length (values t) mod 4 = 0)%nat ->
       let pose := rest_pose_after asset vrm (before ++ [t]) in
       (exists t',
          nth_error donor' (length before) = Some t' /\
          values t'
          = retargeted (parent_rest pose) (rest_inverse pose) (values t)) /\
       (forall node q,
          objects asset !! hd EmptyString (split_dot (name t)) = Some node ->
          parentWorldQuaternion node = Some q ->
          pose = mkRest (invert (worldQuaternion node)) q)) /\
    map values (List.filter is_rotation (tracks out))
    = map (fun t' => flip_quaternion (isVRM0 vrm) (values t'))
        (List.filter (fun t' => is_rotation t' && is_bound vrm t') donor') /\
    (forall vals, flip_quaternion false vals = vals) /\
    (forall x y z w rest,
       flip_quaternion true (x :: y :: z :: w :: rest)
       = nneg x :: y :: nneg z :: w :: flip_quaternion true rest).
Proof.
  intros Hclip. unfold loadMixamoAnimation. rewrite Hclip.
  pose proof (convert_tracks_footprint asset vrm
                (hipsPositionScale asset vrm) (tracks clip)
                (mkLoop [] identity identity)) as [Hdonor Hout].
  cbv zeta in Hdonor, Hout.
  pose proof (convert_tracks_values asset vrm
                (hipsPositionScale asset vrm)) as Hvalues.
  destruct (convert_tracks asset vrm _ _ (tracks clip)) as [donor' st]
    eqn:Hrun.
  cbn [fst snd] in *.
  exists (mkClip "vrmAnimation" (duration clip) (new_tracks st)), donor'.
  split; [reflexivity|]. split; [reflexivity|].
  split; [exact Hdonor|].
  split;
    [|split; [exact Hout|];
      split; [exact flip_quaternion_off | exact flip_quaternion_on]].
  intros before t after Hsplit Hb Hmod. cbv zeta. split.
  - destruct (Hvalues before (mkLoop [] identity identity) t after Hb)
      as (t' & Hnth & Hvals).
    rewrite <- Hsplit, Hrun in Hnth. cbn [fst] in Hnth.
    exists t'. split; [exact Hnth|]. cbv zeta in Hvals.
    rewrite Hvals. apply retarget_in_place_retargeted. exact Hmod.
  - intros node q Hnode Hparent. unfold rest_pose_after.
    rewrite fold_left_app. cbn [fold_left]. unfold rest_step at 1.
    apply andb_true_iff in Hb as [_ Hbound].
    rewrite Hbound, Hnode, Hparent. reflexivity.
Qed.

End RetargetProps.

Section RetargetExamples.

Import Retarget.

Lemma unresolved_hips_give_NaN_tracks_witness :
  exists out,
    fst (loadMixamoAnimation donor_without_hips vrm1) = Returned out /\
    Forall (fun t => kind t = VectorKeyframeTrack ->
                     Forall (eq NaN) (values t))
      (tracks out).
Proof.
  apply (unresolved_hips_give_NaN_tracks donor_without_hips vrm1
           (mkClip "mixamo.com" 1
              [mkTrack "mixamorigSpine.position" VectorKeyframeTrack [0]
                 [Fin 0; Fin 10; Fin 0]])).
  - reflexivity.
  - left. vm_compute. reflexivity.
Defined.

(** The two inputs with an unresolved hip, run: a clip comes back, its
    translation track filled with [NaN]. *)
Lemma missing_hips_return_NaN_clip :
  fst (loadMixamoAnimation donor_without_hips vrm1)
  = Returned (mkClip "vrmAnimation" 1
                [mkTrack "Normalized_Spine.position" VectorKeyframeTrack [0]
                   [NaN; NaN; NaN]]) /\
  fst (loadMixamoAnimation donor_spine vrm_without_hips)
  = Returned (mkClip "vrmAnimation" 1
                [mkTrack "Normalized_Spine.position" VectorKeyframeTrack [0]
                   [NaN; NaN; NaN]]).
Proof. split; vm_compute; reflexivity. Qed.

Lemma retargeting_footprint_witness :
  exists (out : AnimationClip) (donor' : list KeyframeTrack),
    loadMixamoAnimation donor vrm1
    = (Returned out,
       mkAsset (objects donor)
         (with_tracks (animations donor) "mixamo.com" donor')) /\
    (exists t',
       nth_error donor' 0 = Some t' /\
       values t'
       = retargeted identity (invert half_turn_x)
           [Fin 0; Fin 0; Fin 0; Fin 1] /\
       values_eqb (values t') [Fin (-1); Fin 0; Fin 0; Fin 0] = true) /\
    map values (List.filter is_rotation (tracks out))
    = map (fun t' => flip_quaternion (isVRM0 vrm1) (values t'))
        (List.filter (fun t' => is_rotation t' && is_bound vrm1 t') donor').
Proof.
  destruct (retargeting_footprint donor vrm1
              (mkClip "mixamo.com" 1
                 [mkTrack "mixamorigHips.quaternion" QuaternionKeyframeTrack
                    [0] [Fin 0; Fin 0; Fin 0; Fin 1];
                  mkTrack "mixamorigHips.position" VectorKeyframeTrack [0]
                    [Fin 0; Fin 100; Fin 0]]) eq_refl)
    as (out & donor' & Hrun & _ & _ & Hwritten & Hvals & _).
  exists out, donor'. split; [exact Hrun|]. split; [|exact Hvals].
  destruct (Hwritten []
              (mkTrack "mixamorigHips.quaternion" QuaternionKeyframeTrack
                 [0] [Fin 0; Fin 0; Fin 0; Fin 1])
              [mkTrack "mixamorigHips.position" VectorKeyframeTrack [0]
                 [Fin 0; Fin 100; Fin 0]]
              eq_refl eq_refl eq_refl)
    as [(t' & Hnth & Hvalues) Hpose].
  rewrite (Hpose (mkNode 100 half_turn_x (Some identity)) identity
             eq_refl eq_refl) in Hvalues.
  cbn [parent_rest rest_inverse values] in Hvalues.
  exists t'. split; [exact Hnth|]. split; [exact Hvalues|].
  rewrite Hvalues. vm_compute. reflexivity.
Defined.

(** C9 as worded fails: the call writes into the donor clip.  The hips
    rotation key (0, 0, 0, 1) of the donor is (-1, 0, 0, 0) afterwards,
    and retargeting the clip object a second time returns (0, 0, 0, -1)
    where the first call returned (-1, 0, 0, 0). *)
Lemma retargeting_rewrites_donor :
  all_values_eqb
    (donor_values (snd (loadMixamoAnimation donor vrm1)))
    (donor_values donor) = false /\
  all_values_eqb
    (returned_values
       (fst (loadMixamoAnimation (snd (loadMixamoAnimation donor vrm1)) vrm1)))
    (returned_values (fst (loadMixamoAnimation donor vrm1))) = false.
Proof. split; vm_compute; reflexivity. Qed.

End RetargetExamples.

(* ===================================================================== *)
(** * Part III: further properties of the code                            *)
(* ===================================================================== *)

(** ** Classifier: ranges *)

Section ClassifierRanges.

Import Classifier.






(** X2.  The intensity of a raw estimate lies in [0, 1], and a non-neutral
    estimate has intensity 2/15 at least: its score reached 20. *)
Theorem frequencyToViseme_intensity_range
    (frequencyData : option (list byte)) :
  let r := frequencyToViseme frequencyData in
  0 <= intensity r /\ intensity r <= 1 /\
  (viseme r <> neutral -> 2 # 15 <= intensity r).
Proof.
  cbv zeta. destruct frequencyData as [data|];
    [|cbn; repeat split; try discriminate; congruence].
  destruct (Qlt_le_dec (mean_samples data) 10) as [Hq|Hloud].
  - rewrite (frequencyToViseme_quiet data Hq). cbn.
    repeat split; try discriminate; congruence.
  - destruct data as [|b l];
      [cbn; repeat split; try discriminate; congruence|].
    rewrite (frequencyToViseme_loud b l Hloud). cbv zeta.
    cbn [viseme intensity].
    destruct (find_max_spec (compute_scores (b :: l))) as (H0 & _ & _).
    set (m := fst (find_max (compute_scores (b :: l)))) in *.
    assert (Hdiv : 0 <= m / 150)
      by (apply Qle_shift_div_l; [reflexivity | lra]).
    split; [apply Q.min_glb; [discriminate | exact Hdiv]|].
    split; [apply Q.le_min_l|].
    destruct (Qltb m MIN_SCORE_THRESHOLD) eqn:Hm; [congruence|].
    intros _. apply Qltb_ge in Hm. unfold MIN_SCORE_THRESHOLD in Hm.
    apply Q.min_glb; [discriminate|].
    apply Qle_shift_div_l; [reflexivity | lra].
Qed.

Lemma frequencyToViseme_intensity_range_witness :
  2 # 15 <= intensity (frequencyToViseme (Some frame_peak66)).
Proof.
  apply (frequencyToViseme_intensity_range (Some frame_peak66)).
  vm_compute. discriminate.
Defined.

End ClassifierRanges.

(** ** The band and centroid classifier: silence and range *)

Section LegacyClassifierRanges.

Import LegacyClassifier.

Lemma features_loop_total (binWidth : Q) (bins : list byte) :
  forall (i : Z) (a : Sums),
    totalMagnitude (features_loop binWidth i bins a)
    == totalMagnitude a + Classifier.sum_samples bins.
Proof.
  induction bins as [|b bins IH]; intros i a.
  - cbn. ring.
  - cbn [features_loop]. cbv zeta. rewrite IH.
    change (Classifier.sum_samples (b :: bins))
      with (sample b + Classifier.sum_samples bins).
    destruct (Qltb _ 500); [cbn [totalMagnitude]; ring|].
    destruct (Qltb _ 2000); [cbn [totalMagnitude]; ring|].
    destruct (Qltb _ 8000); cbn [totalMagnitude]; ring.
Qed.

Lemma volume_is_mean (b : byte) (l : list byte) (rate : Q) :
  volume (extractFeatures (b :: l) rate) == Classifier.mean_samples (b :: l).
Proof.
  unfold extractFeatures. cbv zeta. cbn [volume].
  rewrite features_loop_total. cbn [totalMagnitude].
  unfold Classifier.mean_samples. rewrite Qplus_0_l. reflexivity.
Qed.

(** X3.  The earlier classifier answers (neutral, 0) exactly on absent, empty
    and quiet frames (mean magnitude below 10); on every other frame the
    intensity is between 1/20 and 1, and 1/10 at least when the viseme is
    not neutral. *)
Theorem legacy_silence_and_range (frequencyData : option (list byte)) :
  let r := frequencyToViseme frequencyData in
  match frequencyData with
  | None => r = mkEstimate neutral 0
  | Some data =>
      (Classifier.mean_samples data < 10 -> r = mkEstimate neutral 0) /\
      (10 <= Classifier.mean_samples data ->
       1 # 20 <= intensity r /\ intensity r <= 1 /\
       (viseme r <> neutral -> 1 # 10 <= intensity r))
  end.
Proof.
  cbv zeta. destruct frequencyData as [[|b l]|]; try reflexivity.
  - split; [reflexivity|]. cbn. intros H. exfalso. lra.
  - unfold frequencyToViseme.
    set (features := extractFeatures (b :: l) 44100).
    assert (Hv : volume features == Classifier.mean_samples (b :: l))
      by apply volume_is_mean.
    split.
    + intros Hq. replace (Qltb (volume features) 10) with true;
        [reflexivity|]. symmetry. apply Qltb_lt. rewrite Hv. exact Hq.
    + intros Hloud. replace (Qltb (volume features) 10) with false
        by (symmetry; apply Qltb_ge; rewrite Hv; exact Hloud).
      cbv zeta.
      assert (Hlo : 1 # 10 <= Qmin 1 (volume features / 100)).
      { apply Q.min_glb; [discriminate|].
        apply Qle_shift_div_l; [reflexivity|]. rewrite Hv. lra. }
      pose proof (Q.le_min_l 1 (volume features / 100)) as Hhi.
      set (x := Qmin 1 (volume features / 100)) in *.
      repeat match goal with
             | |- context [if ?c then _ else _] => destruct c
             end;
        cbn [viseme intensity];
        (split; [lra|]); (split; [lra|]); intros Hn;
        try congruence; lra.
Qed.

Lemma legacy_silence_and_range_witness :
  1 # 20 <= intensity (frequencyToViseme (Some frame_flat)) /\
  intensity (frequencyToViseme (Some frame_flat)) <= 1.
Proof.
  destruct (legacy_silence_and_range (Some frame_flat)) as [_ Hloud].
  destruct Hloud as (Hlo & Hhi & _); [vm_compute; discriminate|].
  split; [exact Hlo | exact Hhi].
Defined.

End LegacyClassifierRanges.

(** ** Histories as windows *)

Section Windows.

Context {A : Type}.

Lemma last_n_short (n : nat) (l : list A) :
  (length l <= n)%nat -> last_n n l = l.
Proof.
  intros H. unfold last_n. replace (length l - n)%nat with 0%nat by lia.
  reflexivity.
Qed.

Lemma last_n_length (n : nat) (l : list A) :
  length (last_n n l) = Nat.min n (length l).
Proof. unfold last_n. rewrite length_skipn. lia. Qed.

Lemma last_n_app (n : nat) (l r : list A) :
  last_n n (last_n n l ++ r) = last_n n (l ++ r).
Proof.
  unfold last_n. rewrite !length_app, length_skipn.
  rewrite !skipn_app, skipn_skipn, length_skipn.
  f_equal; f_equal; lia.
Qed.

(** Appending one element and dropping the oldest beyond [n]. *)
Lemma trim_is_last_n (n : nat) (l : list A) (x : A) :
  (length l <= n)%nat ->
  (if (n <? length (l ++ [x]))%nat then tl (l ++ [x]) else l ++ [x])
  = last_n n (l ++ [x]).
Proof.
  intros Hle. rewrite length_app. simpl length.
  destruct (Nat.ltb_spec n (length l + 1)) as [Hlt|Hge].
  - unfold last_n. rewrite length_app. simpl length.
    replace (length l + 1 - n)%nat with 1%nat by lia.
    destruct (l ++ [x]); reflexivity.
  - symmetry. apply last_n_short. rewrite length_app. simpl. lia.
Qed.

End Windows.

(** ** The majority smoother *)

Section LegacySmootherProps.

Import Smoother LegacySmoother.

Lemma legacy_add_history (s : VisemeSmoother) (v : VisemeType) (x : Q)
    (now : Z) :
  history (fst (add s v x now)) = push (history s) (mkEntry v x now).
Proof.
  unfold add. destruct (length _ <? 3)%nat; reflexivity.
Qed.

Lemma legacy_feed_window (samples : list (VisemeType * Q * Z)) :
  forall s : VisemeSmoother,
    (length (history s) <= 5)%nat ->
    history (fst (feed s samples))
    = last_n 5 (history s ++ map entry_of samples).
Proof.
  induction samples as [|[[v x] now] rest IH]; intros s Hlen.
  - cbn. rewrite app_nil_r. symmetry. apply last_n_short. exact Hlen.
  - cbn [feed map].
    pose proof (legacy_add_history s v x now) as Hadd.
    destruct (add s v x now) as [s1 out]. cbn [fst] in Hadd.
    specialize (IH s1).
    destruct (feed s1 rest) as [s2 outs]. cbn [fst] in *.
    unfold push, historySize in Hadd.
    rewrite (trim_is_last_n 5 (history s) (mkEntry v x now) Hlen) in Hadd.
    rewrite IH by (rewrite Hadd, last_n_length; lia).
    rewrite Hadd, last_n_app, <- app_assoc. reflexivity.
Qed.

(** X4.  The majority smoother keeps a window: after any run from a fresh
    smoother its history is the last five samples (all of them while
    there are fewer), in order. *)
Theorem legacy_history_is_last_five
    (samples : list (VisemeType * Q * Z)) :
  history (fst (feed initial samples)) = last_n 5 (map entry_of samples).
Proof. apply (legacy_feed_window samples initial). cbn. lia. Qed.

Lemma tally_total (h : list HistoryEntry) :
  forall (counts : CountMap) (total : Q),
    snd (tally h counts total) == total + sum_intensity h.
Proof.
  induction h as [|e h IH]; intros counts total.
  - cbn. ring.
  - cbn [tally]. cbv zeta. rewrite IH.
    change (sum_intensity (e :: h))
      with (entry_intensity e + sum_intensity h).
    ring.
Qed.

(** X5.  With fewer than three samples the majority smoother returns its
    input; with three or more it reports the arithmetic mean of the
    intensities in its history. *)
Theorem legacy_add_reports_mean (s : VisemeSmoother) (v : VisemeType)
    (x : Q) (now : Z) :
  let h := history (fst (add s v x now)) in
  ((length h < 3)%nat -> snd (add s v x now) = mkEstimate v x) /\
  ((3 <= length h)%nat ->
   intensity (snd (add s v x now))
   == sum_intensity h / inject_Z (Z.of_nat (length h))).
Proof.
  cbv zeta. rewrite legacy_add_history. unfold add.
  set (h := push (history s) (mkEntry v x now)).
  destruct (Nat.ltb_spec (length h) 3) as [Hlt|Hge]; cbn [snd intensity].
  - split; [reflexivity | lia].
  - split; [lia|]. intros _. rewrite tally_total, Qplus_0_l. reflexivity.
Qed.

(** *** The counts *)

Lemma count_get_In (counts : CountMap) (v : VisemeType) (n : Z) :
  count_get counts v = Some n -> In (v, n) counts.
Proof.
  induction counts as [|[w m] rest IH]; cbn; [discriminate|].
  destruct (VisemeType_eqb w v) eqn:E.
  - apply VisemeType_eqb_eq in E. intros [= <-]. left. congruence.
  - intros Hn. right. exact (IH Hn).
Qed.

Lemma In_count_get (counts : CountMap) (v : VisemeType) (n : Z) :
  List.NoDup (map fst counts) -> In (v, n) counts ->
  count_get counts v = Some n.
Proof.
  induction counts as [|[w m] rest IH]; cbn; [intros _ []|].
  intros Hnd Hin. apply List.NoDup_cons_iff in Hnd as [Hw Hnd].
  destruct Hin as [[= -> ->]|Hin].
  - replace (VisemeType_eqb v v) with true
      by (symmetry; apply VisemeType_eqb_eq; reflexivity).
    reflexivity.
  - destruct (VisemeType_eqb w v) eqn:E; [|exact (IH Hnd Hin)].
    apply VisemeType_eqb_eq in E. subst w. exfalso. apply Hw.
    apply (in_map fst) in Hin. exact Hin.
Qed.

Lemma count_set_keys (counts : CountMap) (v : VisemeType) (n : Z) :
  (forall w, In w (map fst (count_set counts v n)) ->
             w = v \/ In w (map fst counts)) /\
  (List.NoDup (map fst counts) ->
   List.NoDup (map fst (count_set counts v n))).
Proof.
  induction counts as [|[w m] rest [IHin IHnd]]; cbn.
  - split; [intros w [<-|[]]; left; reflexivity|].
    intros _. constructor; [intros [] | constructor].
  - destruct (VisemeType_eqb w v) eqn:E; cbn.
    + split; [intros u [<-|Hu]; right; [left|right]; easy|]. easy.
    + split.
      * intros u [<-|Hu]; [right; left; reflexivity|].
        destruct (IHin u Hu) as [->|Hr]; [left | right; right]; easy.
      * intros Hnd. apply List.NoDup_cons_iff in Hnd as [Hw Hnd].
        constructor; [|exact (IHnd Hnd)].
        intros Hin. destruct (IHin w Hin) as [->|Hr]; [|contradiction].
        apply VisemeType_eqb_neq in E. congruence.
Qed.

Lemma cnt_set (counts : CountMap) (v w : VisemeType) (n : Z) :
  cnt (count_set counts v n) w
  = if VisemeType_eqb v w then n else cnt counts w.
Proof.
  unfold cnt. induction counts as [|[u m] rest IH]; cbn.
  - destruct (VisemeType_eqb v w); reflexivity.
  - destruct (VisemeType_eqb u v) eqn:Euv; cbn.
    + apply VisemeType_eqb_eq in Euv. subst u.
      destruct (VisemeType_eqb v w); reflexivity.
    + destruct (VisemeType_eqb u w) eqn:Euw; [|exact IH].
      apply VisemeType_eqb_eq in Euw. subst u.
      destruct (VisemeType_eqb v w) eqn:Evw; [|reflexivity].
      apply VisemeType_eqb_eq in Evw. subst v.
      apply VisemeType_eqb_neq in Euv. congruence.
Qed.

Lemma tally_counts (h : list HistoryEntry) :
  forall (counts : CountMap) (total : Q),
    List.NoDup (map fst counts) ->
    List.NoDup (map fst (fst (tally h counts total))) /\
    forall w, cnt (fst (tally h counts total)) w
              = (cnt counts w + occurrences w h)%Z.
Proof.
  induction h as [|e h IH]; intros counts total Hnd.
  - cbn. split; [exact Hnd|]. intros w. unfold occurrences. cbn. lia.
  - cbn [tally]. cbv zeta.
    destruct (IH (count_set counts (entry_viseme e)
                    (cnt counts (entry_viseme e) + 1)%Z)
                 (total + entry_intensity e)
                 (proj2 (count_set_keys _ _ _) Hnd)) as [Hnd' Hcnt].
    split; [exact Hnd'|]. intros w.
    change (match count_get counts (entry_viseme e) with
            | Some n => n
            | None => 0%Z
            end) with (cnt counts (entry_viseme e)).
    rewrite Hcnt, cnt_set. unfold occurrences. cbn [List.filter].
    destruct (VisemeType_eqb (entry_viseme e) w) eqn:E.
    + apply VisemeType_eqb_eq in E. subst w. cbn [length]. lia.
    + lia.
Qed.

Lemma most_loop_spec (counts : CountMap) :
  forall acc : Z * VisemeType,
    let r := fold_left most_step counts acc in
    (fst acc <= fst r)%Z /\
    (forall w n, In (w, n) counts -> (n <= fst r)%Z) /\
    (r = acc \/ In (snd r, fst r) counts).
Proof.
  induction counts as [|[w n] rest IH]; intros acc; cbn [fold_left].
  - cbv zeta. split; [lia|]. split; [intros ? ? []|]. left; reflexivity.
  - destruct (IH (most_step acc (w, n))) as (Hle & Hall & Hsel).
    cbv zeta. unfold most_step in Hle, Hall, Hsel |- *. cbn [fst snd] in *.
    destruct (Z.ltb_spec (fst acc) n) as [Hlt|Hge]; cbn [fst snd] in *.
    + split; [lia|]. split.
      * intros u m [[= -> ->]|Hin]; [exact Hle | exact (Hall u m Hin)].
      * right. destruct Hsel as [->|Hin]; [left; reflexivity | right; easy].
    + split; [exact Hle|]. split.
      * intros u m [[= -> ->]|Hin]; [lia | exact (Hall u m Hin)].
      * destruct Hsel as [->|Hin]; [left; reflexivity | right; right; easy].
Qed.

Lemma occurrences_nonneg (w : VisemeType) (h : list HistoryEntry) :
  (0 <= occurrences w h)%Z.
Proof. unfold occurrences. lia. Qed.

Lemma mostFrequent_is_mode (h : list HistoryEntry) (w : VisemeType) :
  (occurrences w h <= occurrences (mostFrequent h) h)%Z.
Proof.
  unfold mostFrequent.
  destruct (tally_counts h [] 0 (List.NoDup_nil _)) as [Hnd Hcnt].
  destruct (most_loop_spec (fst (tally h [] 0)) (0%Z, neutral))
    as (H0 & Hall & Hsel).
  cbv zeta in H0, Hall, Hsel.
  set (counts := fst (tally h [] 0)) in *.
  set (r := fold_left most_step counts (0%Z, neutral)) in *.
  cbn [fst] in H0.
  assert (Hbound : forall u, (occurrences u h <= fst r)%Z).
  { intros u. specialize (Hcnt u). unfold cnt in Hcnt. cbn in Hcnt.
    destruct (count_get counts u) as [n|] eqn:Eu.
    - apply count_get_In in Eu. specialize (Hall u n Eu). lia.
    - lia. }
  assert (Hmax : fst r = occurrences (snd r) h).
  { destruct Hsel as [Hr|Hin].
    - rewrite Hr. cbn [fst snd].
      pose proof (Hbound neutral) as Hb. rewrite Hr in Hb. cbn in Hb.
      pose proof (occurrences_nonneg neutral h). lia.
    - apply (In_count_get counts _ _ Hnd) in Hin.
      specialize (Hcnt (snd r)). unfold cnt in Hcnt. rewrite Hin in Hcnt.
      cbn in Hcnt. lia. }
  rewrite <- Hmax. apply Hbound.
Qed.

(** X6.  With three or more samples the majority smoother answers with a
    viseme that occurs in its history, and no viseme occurs there more
    often. *)
Theorem legacy_add_reports_mode (s : VisemeSmoother) (v : VisemeType)
    (x : Q) (now : Z) :
  let h := history (fst (add s v x now)) in
  let out := viseme (snd (add s v x now)) in
  (3 <= length h)%nat ->
  (0 < occurrences out h)%Z /\
  forall w, (occurrences w h <= occurrences out h)%Z.
Proof.
  cbv zeta. rewrite legacy_add_history. unfold add.
  set (h := push (history s) (mkEntry v x now)).
  destruct (Nat.ltb_spec (length h) 3) as [Hlt|Hge]; [lia|].
  intros _. cbn [snd viseme]. split; [|apply mostFrequent_is_mode].
  destruct h as [|e h']; [cbn in Hge; lia|].
  apply Z.lt_le_trans with (occurrences (entry_viseme e) (e :: h')).
  - unfold occurrences. cbn [List.filter].
    replace (VisemeType_eqb (entry_viseme e) (entry_viseme e)) with true
      by (symmetry; apply VisemeType_eqb_eq; reflexivity).
    cbn [length]. lia.
  - apply mostFrequent_is_mode.
Qed.

End LegacySmootherProps.

Section LegacySmootherExamples.

Import Smoother LegacySmoother.

Lemma legacy_add_reports_mode_witness :
  let s := fst (feed initial five_samples) in
  (0 < occurrences (viseme (snd (add s ee (1 # 2) 80)))
         (history (fst (add s ee (1 # 2) 80))))%Z.
Proof.
  cbv zeta.
  apply (legacy_add_reports_mode (fst (feed initial five_samples)) ee
           (1 # 2) 80).
  vm_compute. lia.
Defined.

Lemma legacy_add_reports_mean_witness :
  let s := fst (feed initial five_samples) in
  let h := history (fst (add s ee (1 # 2) 80)) in
  intensity (snd (add s ee (1 # 2) 80))
  == sum_intensity h / inject_Z (Z.of_nat (length h)).
Proof.
  cbv zeta.
  apply (legacy_add_reports_mean (fst (feed initial five_samples)) ee
           (1 # 2) 80).
  vm_compute. lia.
Defined.

End LegacySmootherExamples.

(** ** The weighted smoother: window, commits, spikes, range *)

Section SmootherMore.

Import Smoother.

Lemma add_history (s : VisemeSmoother) (v : VisemeType) (x : Q) (now : Z) :
  history (fst (add s v x now)) = push (history s) (mkEntry v x now).
Proof.
  unfold add. destruct (length _ <? 2)%nat; [reflexivity|].
  destruct (shouldChange _ _ _ _); reflexivity.
Qed.

Lemma feed_window (samples : list (VisemeType * Q * Z)) :
  forall s : VisemeSmoother,
    (length (history s) <= 3)%nat ->
    history (fst (feed s samples))
    = last_n 3 (history s ++ map entry_of samples).
Proof.
  induction samples as [|[[v x] now] rest IH]; intros s Hlen.
  - cbn. rewrite app_nil_r. symmetry. apply last_n_short. exact Hlen.
  - cbn [feed map].
    pose proof (add_history s v x now) as Hadd.
    destruct (add s v x now) as [s1 out]. cbn [fst] in Hadd.
    specialize (IH s1).
    destruct (feed s1 rest) as [s2 outs]. cbn [fst] in *.
    unfold push, historySize in Hadd.
    rewrite (trim_is_last_n 3 (history s) (mkEntry v x now) Hlen) in Hadd.
    rewrite IH by (rewrite Hadd, last_n_length; lia).
    rewrite Hadd, last_n_app, <- app_assoc. reflexivity.
Qed.

(** X7.  The weighted smoother keeps a window: after any run from a fresh
    smoother its history is the last three samples (all of them while
    there are fewer), in order. *)
Theorem history_is_last_three (samples : list (VisemeType * Q * Z)) :
  history (fst (feed initial samples)) = last_n 3 (map entry_of samples).
Proof. apply (feed_window samples initial). cbn. lia. Qed.

(** The held viseme and the reported viseme after a call with a history
    of two or more samples. *)
Lemma add_held (s : VisemeSmoother) (v : VisemeType) (x : Q) (now : Z) :
  let h := push (history s) (mkEntry v x now) in
  (2 <= length h)%nat ->
  lastViseme (fst (add s v x now))
  = (if shouldChange s h x now then bestViseme h else lastViseme s) /\
  viseme (snd (add s v x now)) = lastViseme (fst (add s v x now)).
Proof.
  cbv zeta. intros Hlen. unfold add.
  destruct (Nat.ltb_spec (length (push (history s) (mkEntry v x now))) 2)
    as [Hlt|_]; [lia|].
  destruct (shouldChange _ _ _ _); split; reflexivity.
Qed.

Lemma best_of_two (v : VisemeType) (x1 x2 : Q) (t1 t2 : Z) :
  bestViseme [mkEntry v x1 t1; mkEntry v x2 t2] = v.
Proof. destruct v; vm_compute; reflexivity. Qed.

Lemma best_of_three_late (w v : VisemeType) (x0 x1 x2 : Q) (t0 t1 t2 : Z) :
  bestViseme [mkEntry w x0 t0; mkEntry v x1 t1; mkEntry v x2 t2] = v.
Proof. destruct w, v; vm_compute; reflexivity. Qed.

Lemma best_of_three_early (v w : VisemeType) (x0 x1 x2 : Q) (t0 t1 t2 : Z) :
  bestViseme [mkEntry v x0 t0; mkEntry v x1 t1; mkEntry w x2 t2] = v.
Proof. destruct w, v; vm_compute; reflexivity. Qed.

Lemma agree_two (a b : HistoryEntry) (h0 : list HistoryEntry) :
  entry_viseme a = entry_viseme b ->
  (length h0 <= 1)%nat ->
  last_two_agree (h0 ++ [a; b]) = true.
Proof.
  intros Hab Hlen.
  destruct h0 as [|c [|d h0]]; [| |cbn in Hlen; lia];
    cbv -[VisemeType_eqb entry_viseme]; rewrite Hab;
    apply VisemeType_eqb_eq; reflexivity.
Qed.

(** X8.  Two consecutive samples with the same viseme commit it: whatever was
    held, after the second of them the smoother holds and reports that
    viseme. *)
Theorem agreeing_samples_commit (s : VisemeSmoother) (e : HistoryEntry)
    (x : Q) (now : Z) :
  (length (history s) <= 3)%nat ->
  last (history s) = Some e ->
  lastViseme (fst (add s (entry_viseme e) x now)) = entry_viseme e /\
  viseme (snd (add s (entry_viseme e) x now)) = entry_viseme e.
Proof.
  intros Hlen Hlast. destruct s as [h lv lt]. cbn [history] in *.
  set (v := entry_viseme e) in *.
  assert (Hpush : exists h0,
             (length h0 <= 1)%nat /\
             push h (mkEntry v x now) = h0 ++ [e; mkEntry v x now]).
  { destruct h as [|a [|b [|c [|d h]]]]; cbn in Hlen, Hlast;
      try discriminate; try lia; injection Hlast as <-.
    - exists []. split; [cbn; lia | reflexivity].
    - exists [a]. split; [cbn; lia | reflexivity].
    - exists [b]. split; [cbn; lia | reflexivity]. }
  destruct Hpush as (h0 & Hh0 & Hpush).
  destruct (add_held (mkSmoother h lv lt) v x now) as [Hheld Hout].
  { cbv zeta. cbn [history]. rewrite Hpush, length_app. cbn. lia. }
  cbv zeta in Hheld. cbn [history] in Hheld.
  rewrite Hout, Hheld. clear Hout Hheld.
  assert (Hchange : shouldChange (mkSmoother h lv lt)
                      (push h (mkEntry v x now)) x now = true).
  { unfold shouldChange. rewrite Hpush.
    rewrite (agree_two e (mkEntry v x now) h0 eq_refl Hh0).
    replace (2 <=? length (h0 ++ [e; mkEntry v x now]))%nat with true
      by (symmetry; apply Nat.leb_le; rewrite length_app; cbn; lia).
    apply orb_true_r. }
  rewrite Hchange, Hpush.
  assert (Hbest : bestViseme (h0 ++ [e; mkEntry v x now]) = v).
  { destruct e as [ve xe te]. cbn in v. subst v.
    destruct h0 as [|[vc xc tc] [|d h0]]; [| |cbn in Hh0; lia].
    - apply best_of_two.
    - apply best_of_three_late. }
  rewrite Hbest. split; reflexivity.
Qed.

(** X9.  A single differing sample, however loud, does not move the smoother
    off a viseme it holds and has just seen twice in a row. *)
Theorem single_spike_is_ignored (s : VisemeSmoother)
    (h0 : list HistoryEntry) (e1 e2 : HistoryEntry)
    (w : VisemeType) (x : Q) (now : Z) :
  (length (history s) <= 3)%nat ->
  history s = h0 ++ [e1; e2] ->
  entry_viseme e1 = lastViseme s ->
  entry_viseme e2 = lastViseme s ->
  lastViseme (fst (add s w x now)) = lastViseme s /\
  viseme (snd (add s w x now)) = lastViseme s.
Proof.
  intros Hlen Hh H1 H2. destruct s as [h lv lt]. cbn [history lastViseme] in *.
  subst h. rewrite length_app in Hlen. cbn in Hlen.
  assert (Hpush : push (h0 ++ [e1; e2]) (mkEntry w x now)
                  = [e1; e2; mkEntry w x now]).
  { destruct h0 as [|a [|b h0]]; [reflexivity | reflexivity|cbn in Hlen; lia]. }
  destruct (add_held (mkSmoother (h0 ++ [e1; e2]) lv lt) w x now)
    as [Hheld Hout].
  { cbv zeta. cbn [history]. rewrite Hpush. cbn. lia. }
  cbv zeta in Hheld. cbn [history lastViseme] in Hheld.
  rewrite Hout, Hheld, Hpush. clear Hout Hheld.
  assert (Hbest : bestViseme [e1; e2; mkEntry w x now] = lv).
  { destruct e1 as [v1 x1 t1], e2 as [v2 x2 t2]. cbn in H1, H2. subst v1 v2.
    apply best_of_three_early. }
  rewrite Hbest. destruct (shouldChange _ _ _ _); split; reflexivity.
Qed.

(** *** The range of the reported intensity *)

Lemma weight_range (len i : nat) :
  (i + 1 <= len)%nat -> 0 <= weight len i /\ weight len i <= 1.
Proof.
  intros Hi. unfold weight.
  assert (Hlen : 0 < inject_Z (Z.of_nat len)).
  { change 0 with (inject_Z 0). rewrite <- Zlt_Qlt. lia. }
  split.
  - apply Qle_shift_div_l; [exact Hlen|]. rewrite Qmult_0_l.
    change 0 with (inject_Z 0). rewrite <- Zle_Qle. lia.
  - apply Qle_shift_div_r; [exact Hlen|]. rewrite Qmult_1_l.
    rewrite <- Zle_Qle. lia.
Qed.

Lemma weighted_sum_range (len : nat) (xs : list Q) :
  forall i : nat,
    (i + length xs <= len)%nat ->
    Forall (fun x => 0 <= x /\ x <= 1) xs ->
    0 <= weighted_sum len i xs /\
    weighted_sum len i xs <= inject_Z (Z.of_nat (length xs)).
Proof.
  induction xs as [|x xs IH]; intros i Hi Hall.
  - cbn. split; [lra | discriminate].
  - apply List.Forall_cons_iff in Hall as [[Hx0 Hx1] Hall].
    cbn [length] in Hi.
    destruct (IH (S i) ltac:(lia) Hall) as [Hlo Hhi].
    destruct (weight_range len i ltac:(lia)) as [Hw0 Hw1].
    cbn [weighted_sum].
    assert (0 <= x * weight len i) by (apply Qmult_le_0_compat; assumption).
    assert (0 <= (1 - x) * weight len i)
      by (apply Qmult_le_0_compat; lra).
    replace (Z.of_nat (length (x :: xs)))
      with (Z.of_nat (length xs) + 1)%Z by (cbn [length]; lia).
    rewrite inject_Z_plus. change (inject_Z 1) with 1. split; lra.
Qed.

Lemma push_Forall (P : HistoryEntry -> Prop) (h : list HistoryEntry)
    (e : HistoryEntry) :
  Forall P h -> P e -> Forall P (push h e).
Proof.
  intros Hh He. unfold push.
  assert (Hall : Forall P (h ++ [e]))
    by (apply Forall_app; split; [exact Hh | constructor; [exact He|constructor]]).
  destruct (historySize <? length (h ++ [e]))%nat; [|exact Hall].
  destruct (h ++ [e]); [constructor|].
  apply List.Forall_cons_iff in Hall as [_ Hall]. exact Hall.
Qed.

(** X10.  Intensities stay intensities: when the input and the stored samples
    lie in [0, 1], so does what [add] reports. *)
Theorem add_intensity_range (s : VisemeSmoother) (v : VisemeType) (x : Q)
    (now : Z) :
  Forall (fun e => 0 <= entry_intensity e /\ entry_intensity e <= 1)
    (history s) ->
  0 <= x /\ x <= 1 ->
  0 <= intensity (snd (add s v x now)) /\
  intensity (snd (add s v x now)) <= 1.
Proof.
  intros Hall Hx.
  pose proof (add_history s v x now) as Hh.
  destruct (le_lt_dec 2 (length (history (fst (add s v x now)))))
    as [Hlen|Hlen].
  - rewrite (add_intensity_formula s v x now Hlen).
    set (h := history (fst (add s v x now))) in *.
    assert (Hh' : Forall (fun e => 0 <= entry_intensity e
                                   /\ entry_intensity e <= 1) h).
    { rewrite Hh. apply push_Forall; [exact Hall | exact Hx]. }
    destruct (weighted_sum_range (length h) (map entry_intensity h) 0)
      as [Hlo Hhi].
    + rewrite length_map. lia.
    + apply Forall_map. exact Hh'.
    + rewrite length_map in Hhi.
      assert (Hpos : 0 < inject_Z (Z.of_nat (length h))).
      { change 0 with (inject_Z 0). rewrite <- Zlt_Qlt. lia. }
      split.
      * apply Qle_shift_div_l; [exact Hpos | lra].
      * apply Qle_shift_div_r; [exact Hpos | lra].
  - rewrite (add_bootstrap s v x now Hlen). exact Hx.
Qed.

End SmootherMore.

Section SmootherMoreExamples.

Import Smoother.

Lemma agreeing_samples_commit_witness :
  lastViseme (fst (add held_ee_aa aa (1 # 5) 132)) = aa /\
  viseme (snd (add held_ee_aa aa (1 # 5) 132)) = aa.
Proof.
  apply (agreeing_samples_commit held_ee_aa (mkEntry aa (1 # 5) 116)
           (1 # 5) 132).
  - cbn. lia.
  - reflexivity.
Defined.

Lemma single_spike_is_ignored_witness :
  lastViseme (fst (add (fst (feed initial steady_aa)) ee 1 48)) = aa /\
  viseme (snd (add (fst (feed initial steady_aa)) ee 1 48)) = aa.
Proof.
  apply (single_spike_is_ignored (fst (feed initial steady_aa))
           [mkEntry aa (3 # 5) 0]
           (mkEntry aa (3 # 5) 16) (mkEntry aa (3 # 5) 32) ee 1 48);
    reflexivity.
Defined.

Lemma add_intensity_range_witness :
  0 <= intensity (snd (add held_ee_aa aa (1 # 5) 132)) /\
  intensity (snd (add held_ee_aa aa (1 # 5) 132)) <= 1.
Proof.
  apply add_intensity_range.
  - repeat constructor; discriminate.
  - split; discriminate.
Defined.

End SmootherMoreExamples.

(** ** Blink controller: when a blink starts, what a call returns, how a
    blink ends *)

Section BlinkMore.

Import Blink.

(** X11.  A blink starts only from idle calls made more than 2000 ms after the
    previous blink started, and, while the audio intensity is at or above
    the pause threshold, only more than 4000 ms after it.  The call that
    starts a blink stamps both clocks with its own time and returns the
    value held before. *)
Theorem blink_start_conditions (c : BlinkController) (t : Tick) :
  state c = idle ->
  state (fst (update c t)) <> idle ->
  (minCooldown < tick_now t - lastBlinkTime c)%Z /\
  (pauseThreshold <= tick_audio t ->
   (maxCooldown < tick_now t - lastBlinkTime c)%Z) /\
  lastBlinkTime (fst (update c t)) = tick_now t /\
  blinkStartTime (fst (update c t)) = tick_now t /\
  snd (update c t) = blinkValue c.
Proof.
  intros Hs. unfold update. rewrite Hs.
  destruct (_ || _) eqn:Hc; cbn [fst snd]; [intros _|congruence].
  apply orb_true_iff in Hc as [Hc|Hc].
  - apply andb_true_iff in Hc as [Hc _].
    apply andb_true_iff in Hc as [Hcool Hpause].
    apply Z.ltb_lt in Hcool. apply Qltb_lt in Hpause.
    split; [exact Hcool|]. split; [intros Hloud; exfalso; lra|].
    repeat split.
  - apply andb_true_iff in Hc as [Hmax _]. apply Z.ltb_lt in Hmax.
    split; [unfold minCooldown, maxCooldown in *; lia|].
    split; [intros _; exact Hmax|]. repeat split.
Qed.

(** X12.  A call returns a value in [0, 1], provided the clock has not gone
    back behind the start of the running phase (and, when idle, the
    stored value is in range, as it is for every reachable controller). *)
Theorem update_value_range (c : BlinkController) (t : Tick) :
  (state c = idle -> 0 <= blinkValue c /\ blinkValue c <= 1) ->
  (blinkStartTime c <= tick_now t)%Z ->
  0 <= snd (update c t) /\ snd (update c t) <= 1.
Proof.
  intros Hidle Hclock.
  assert (Hsnd : snd (update c t) = blinkValue (fst (update c t)))
    by (unfold update; destruct (state c); reflexivity).
  rewrite Hsnd. destruct (state c) eqn:Hs.
  - unfold update. rewrite Hs. destruct (_ || _); cbn; exact (Hidle eq_refl).
  - rewrite (update_closing c t Hs). cbv zeta.
    pose proof (progress_nonneg (tick_now t - blinkStartTime c)
                  closeDuration eq_refl ltac:(lia)) as Hp0.
    pose proof (progress_le_1 (tick_now t - blinkStartTime c) closeDuration)
      as Hp1.
    destruct (closeDuration <=? _)%Z; cbn [blinkValue];
      (split; [unfold easeInQuad; apply Qmult_le_0_compat; assumption
              | apply easeIn_high; assumption]).
  - rewrite (update_opening c t Hs). cbv zeta.
    pose proof (progress_nonneg (tick_now t - blinkStartTime c)
                  openDuration eq_refl ltac:(lia)) as Hp0.
    pose proof (progress_le_1 (tick_now t - blinkStartTime c) openDuration)
      as Hp1.
    destruct (openDuration <=? _)%Z; cbn [blinkValue].
    + split; discriminate.
    + split; [apply easeOut_low | apply easeOut_high; assumption].
Qed.

(** X13.  A blink ends: a closing controller called at or after
    [closeDuration] from its start shows fully closed eyes and opens; a
    further call at or after [openDuration] from that one returns 0 and
    leaves the controller idle, its cooldown clock untouched. *)
Theorem blink_completes (c : BlinkController) (t1 t2 : Tick) :
  state c = closing ->
  (blinkStartTime c + closeDuration <= tick_now t1)%Z ->
  (tick_now t1 + openDuration <= tick_now t2)%Z ->
  let c1 := fst (update c t1) in
  let c2 := fst (update c1 t2) in
  state c1 = opening /\ snd (update c t1) == 1 /\
  state c2 = idle /\ snd (update c1 t2) = 0 /\
  lastBlinkTime c2 = lastBlinkTime c.
Proof.
  intros Hs H1 H2. cbv zeta.
  assert (Hc1 : fst (update c t1)
                = mkBlink opening
                    (easeInQuad (progress (tick_now t1 - blinkStartTime c)
                                   closeDuration))
                    (lastBlinkTime c) (tick_now t1)).
  { rewrite (update_closing c t1 Hs). cbv zeta.
    replace (closeDuration <=? tick_now t1 - blinkStartTime c)%Z with true
      by (symmetry; apply Z.leb_le; lia).
    reflexivity. }
  assert (Hv1 : snd (update c t1) = blinkValue (fst (update c t1)))
    by (unfold update; rewrite Hs; reflexivity).
  rewrite Hv1, Hc1. cbn [state blinkValue].
  assert (Hc2 : fst (update (mkBlink opening
                    (easeInQuad (progress (tick_now t1 - blinkStartTime c)
                                   closeDuration))
                    (lastBlinkTime c) (tick_now t1)) t2)
                = mkBlink idle 0 (lastBlinkTime c) (tick_now t1)).
  { rewrite update_opening by reflexivity. cbv zeta. cbn [blinkStartTime].
    replace (openDuration <=? tick_now t2 - tick_now t1)%Z with true
      by (symmetry; apply Z.leb_le; lia).
    reflexivity. }
  set (c1 := mkBlink opening _ _ _) in *.
  assert (Hv2 : snd (update c1 t2) = blinkValue (fst (update c1 t2)))
    by reflexivity.
  rewrite Hv2, Hc2. cbn [state blinkValue lastBlinkTime].
  split; [reflexivity|]. split; [|repeat split].
  unfold easeInQuad.
  rewrite (progress_done (tick_now t1 - blinkStartTime c) closeDuration);
    [reflexivity | reflexivity | lia].
Qed.

End BlinkMore.

Section BlinkMoreExamples.

Import Blink.

Lemma blink_start_conditions_witness :
  (minCooldown < 5000 - lastBlinkTime (constructor 0))%Z /\
  blinkStartTime started_at_5000 = 5000%Z.
Proof.
  destruct (blink_start_conditions (constructor 0) (mkTick 0 5000 0 0))
    as (Hcool & _ & _ & Hstart & _).
  - reflexivity.
  - vm_compute. discriminate.
  - split; [exact Hcool | exact Hstart].
Defined.

Lemma update_value_range_witness :
  0 <= snd (update started_at_5000 (mkTick 0 5016 0 0)) /\
  snd (update started_at_5000 (mkTick 0 5016 0 0)) <= 1.
Proof.
  apply update_value_range.
  - vm_compute. discriminate.
  - vm_compute. discriminate.
Defined.

Lemma blink_completes_witness :
  state (fst (update (fst (update started_at_5000 (mkTick 0 5064 0 0)))
                (mkTick 0 5176 0 0))) = idle.
Proof.
  destruct (blink_completes started_at_5000 (mkTick 0 5064 0 0)
              (mkTick 0 5176 0 0)) as (_ & _ & Hidle & _).
  - reflexivity.
  - vm_compute. discriminate.
  - vm_compute. discriminate.
  - exact Hidle.
Defined.

Lemma idle_blinkValue_zero_witness :
  blinkValue (fst (update (constructor 0) (mkTick 1 100 0 0))) == 0.
Proof.
  apply idle_blinkValue_zero.
  - apply reach_update, reach_new.
  - reflexivity.
Defined.

End BlinkMoreExamples.

(** ** Blend controller: one-shot requests and registration *)

Section BlendMore.

Import Blend.

Context {A : Type} `{AnimationAction A}.

Ltac scene_simpl :=
  repeat first
    [ rewrite action_of_log | rewrite timers_log
    | rewrite action_of_setTimeout | rewrite timers_setTimeout
    | rewrite action_of_update_action | rewrite timers_update_action ].

Lemma playAnimation_unfold_one_shot (sc : Scene A) (type : AnimationType)
    (d : Q) (newAction : A) :
  type <> idle ->
  action_of sc type = Some newAction ->
  playAnimation type d sc
  = let sc1 := fold_left log_state entries (log (TransitionStart type) sc) in
    let sc2 :=
      match idleActionRef sc1 with
      | Some idleAction =>
          if isRunning idleAction
          then update_action (log FadingOutIdle sc1) idle (fadeOut d)
          else sc1
      | None => sc1
      end in
    log (TransitionStarted type)
      (update_action
         (update_action
            (log (FadingIn type)
               (update_action
                  (update_action
                     (update_action
                        (update_action (log (Resetting type) sc2) type reset)
                        type (set_enabled true))
                     type (setEffectiveTimeScale 1))
                  type (setEffectiveWeight 1)))
            type (fadeIn d))
         type play).
Proof.
  intros Hne Ha. unfold playAnimation. rewrite Ha.
  destruct type; [congruence| | |]; reflexivity.
Qed.

(** What a request for a registered one-shot clip does to the actions and
    the timers. *)
Lemma one_shot_request (sc : Scene A) (type : AnimationType)
    (d : Q) (newAction : A) :
  type <> idle ->
  action_of sc type = Some newAction ->
  let sc' := playAnimation type d sc in
  action_of sc' type
  = Some (play (fadeIn d (setEffectiveWeight 1 (setEffectiveTimeScale 1
            (set_enabled true (reset newAction)))))) /\
  action_of sc' idle
  = option_map (fun idleAction =>
                  if isRunning idleAction then fadeOut d idleAction
                  else idleAction)
      (action_of sc idle) /\
  (forall key, key <> idle -> key <> type ->
               action_of sc' key = action_of sc key) /\
  timers sc' = timers sc.
Proof.
  intros Hne Ha. cbv zeta.
  rewrite (playAnimation_unfold_one_shot sc type d newAction Hne Ha).
  cbv zeta.
  set (sc1 := fold_left log_state entries (log (TransitionStart type) sc)).
  assert (Hsc1 : forall k, action_of sc1 k = action_of sc k).
  { intros k. unfold sc1.
    rewrite (proj1 (log_states_actions entries _ k)).
    apply action_of_log. }
  assert (Htim1 : timers sc1 = timers sc).
  { unfold sc1. rewrite (proj2 (log_states_actions entries _ idle)).
    reflexivity. }
  change (idleActionRef sc1) with (action_of sc1 idle). rewrite (Hsc1 idle).
  assert (Hti : AnimationType_eqb type idle = false).
  { apply not_true_iff_false. intros E.
    apply AnimationType_eqb_eq in E. congruence. }
  assert (Hit : AnimationType_eqb idle type = false).
  { apply not_true_iff_false. intros E.
    apply AnimationType_eqb_eq in E. congruence. }
  assert (Hother : forall key, key <> type ->
            AnimationType_eqb type key = false).
  { intros key Hk. apply not_true_iff_false. intros E.
    apply AnimationType_eqb_eq in E. congruence. }
  assert (Hidle_other : forall key, key <> idle ->
            AnimationType_eqb idle key = false).
  { intros key Hk. apply not_true_iff_false. intros E.
    apply AnimationType_eqb_eq in E. congruence. }
  destruct (action_of sc idle) as [idleAction|] eqn:Hi;
    [destruct (isRunning idleAction) eqn:Hr|];
    scene_simpl;
    rewrite ?AnimationType_eqb_refl, ?Hti, ?Hit, ?Hsc1, ?Htim1, ?Ha, ?Hi;
    cbn [option_map]; rewrite ?Hr;
    (split; [reflexivity|]); (split; [reflexivity|]);
    (split; [|reflexivity]);
    intros key Hk1 Hk2; scene_simpl;
    rewrite ?(Hother key Hk2), ?(Hidle_other key Hk1), ?Hsc1; reflexivity.
Qed.

(** X15.  A request for a one-shot clip whose action is registered: the idle
    action receives [fadeOut d] if it is running and is otherwise left
    alone (it is never stopped); the requested action is reset, enabled,
    set to time scale 1 and weight 1, faded in over [d] and played; the
    other one-shot actions are not touched, and no timer is queued. *)
Theorem playAnimation_one_shot (sc : Scene A) (type : AnimationType)
    (d : Q) (newAction : A) :
  type <> idle ->
  action_of sc type = Some newAction ->
  let sc' := playAnimation type d sc in
  action_of sc' type
  = Some (play (fadeIn d (setEffectiveWeight 1 (setEffectiveTimeScale 1
            (set_enabled true (reset newAction)))))) /\
  action_of sc' idle
  = option_map (fun idleAction =>
                  if isRunning idleAction then fadeOut d idleAction
                  else idleAction)
      (action_of sc idle) /\
  (forall key, key <> idle -> key <> type ->
               action_of sc' key = action_of sc key) /\
  timers sc' = timers sc.
Proof. exact (one_shot_request sc type d newAction). Qed.

(** *** A request for the background followed by a restart *)

Lemma idle_request_on_active (sc : Scene A) (d : Q) (idleAction a : A)
    (key : AnimationType) :
  idleActionRef sc = Some idleAction ->
  key <> idle ->
  action_of sc key = Some a ->
  isRunning a || paused a = true ->
  action_of (playAnimation idle d sc) key = Some (fadeOut d a) /\
  In (mkTimer (d * 1000) key) (timers (playAnimation idle d sc)).
Proof.
  intros Hidle Hne Ha Hactive.
  rewrite (playAnimation_idle_unfold sc d idleAction Hidle). cbv zeta.
  set (sc1 := fold_left log_state entries (log (TransitionStart idle) sc)).
  assert (Hsc1 : forall k, action_of sc1 k = action_of sc k).
  { intros k. unfold sc1.
    rewrite (proj1 (log_states_actions entries _ k)).
    apply action_of_log. }
  destruct (fade_out_loop d entries entries_NoDup sc1) as [Hact Htim].
  assert (Hik : AnimationType_eqb idle key = false).
  { apply not_true_iff_false. intros E.
    apply AnimationType_eqb_eq in E. congruence. }
  assert (Hki : AnimationType_eqb key idle = false).
  { apply not_true_iff_false. intros E.
    apply AnimationType_eqb_eq in E. congruence. }
  assert (Hin : existsb (AnimationType_eqb key) entries = true).
  { destruct key; reflexivity. }
  assert (His : is_active sc1 key = true).
  { unfold is_active. rewrite Hsc1, Ha. exact Hactive. }
  split.
  - destruct (negb (isRunning idleAction)); scene_simpl;
      rewrite ?Hik, Hact, Hin, Hki, His, Hsc1, Ha; reflexivity.
  - assert (Hq : In (mkTimer (d * 1000) key)
                   (timers (fold_left (fade_out_one_shot d) entries sc1))).
    { rewrite Htim. apply in_or_app. right. apply in_map.
      apply List.filter_In. split.
      - destruct key; cbn; tauto.
      - rewrite Hki, His. reflexivity. }
    destruct (negb (isRunning idleAction)); scene_simpl; exact Hq.
Qed.

(** X18.  Nothing cancels a queued cleanup.  When the background is requested
    while a one-shot clip is active and that clip is requested again
    before the timer runs, the timer is still pending after the restart,
    and when it fires its closure disables, stops and resets the action
    that was just reset, faded in and played. *)
Theorem stale_cleanup_stops_restarted_clip
    (sc : Scene A) (key : AnimationType) (d d' : Q) (idleAction a : A) :
  key <> idle ->
  idleActionRef sc = Some idleAction ->
  action_of sc key = Some a ->
  isRunning a || paused a = true ->
  let sc1 := playAnimation idle d sc in
  let sc2 := playAnimation key d' sc1 in
  let restarted :=
    play (fadeIn d' (setEffectiveWeight 1 (setEffectiveTimeScale 1
            (set_enabled true (reset (fadeOut d a)))))) in
  action_of sc2 key = Some restarted /\
  In (mkTimer (d * 1000) key) (timers sc2) /\
  action_of (fire (mkTimer (d * 1000) key) sc2) key
  = Some (reset (stop (set_paused false (set_enabled false restarted)))).
Proof.
  intros Hne Hidle Ha Hactive. cbv zeta.
  destruct (idle_request_on_active sc d idleAction a key Hidle Hne Ha Hactive)
    as [Hfaded Hqueued].
  destruct (one_shot_request (playAnimation idle d sc) key d' (fadeOut d a)
              Hne Hfaded) as (Hplayed & _ & _ & Htimers).
  cbv zeta in Hplayed, Htimers.
  split; [exact Hplayed|]. split; [rewrite Htimers; exact Hqueued|].
  unfold fire. cbn [timer_key]. scene_simpl.
  rewrite AnimationType_eqb_refl, Hplayed. reflexivity.
Qed.

(** *** Registration *)

Lemma reg_update_action (sc : Scene A) (key : AnimationType) (f : A -> A)
    (k : AnimationType) :
  action_of (update_action sc key f) k = None <-> action_of sc k = None.
Proof.
  rewrite action_of_update_action.
  destruct (AnimationType_eqb key k); [|reflexivity].
  destruct (action_of sc k); cbn; split; congruence.
Qed.

Lemma reg_fade_out (d : Q) (sc : Scene A) (key k : AnimationType) :
  action_of (fade_out_one_shot d sc key) k = None <-> action_of sc k = None.
Proof.
  rewrite action_of_fade_out.
  destruct (_ && _); [|reflexivity].
  destruct (action_of sc k); cbn; split; congruence.
Qed.

Lemma reg_fade_loop (d : Q) (keys : list AnimationType) :
  forall (sc : Scene A) (k : AnimationType),
    action_of (fold_left (fade_out_one_shot d) keys sc) k = None
    <-> action_of sc k = None.
Proof.
  induction keys as [|key keys IH]; intros sc k; [reflexivity|].
  cbn [fold_left]. rewrite IH. apply reg_fade_out.
Qed.

(** X16.  No operation of the controller registers or unregisters an action:
    requests, triggers and cleanup timers find the same actions present
    and absent as before them. *)
Theorem registration_is_fixed (sc : Scene A) (k : AnimationType) :
  (forall type d,
     action_of (playAnimation type d sc) k = None
     <-> action_of sc k = None) /\
  (forall trigger,
     action_of (onAnimationTrigger trigger sc) k = None
     <-> action_of sc k = None) /\
  (forall t, action_of (fire t sc) k = None <-> action_of sc k = None).
Proof.
  assert (Hplay : forall (sc0 : Scene A) type d,
            action_of (playAnimation type d sc0) k = None
            <-> action_of sc0 k = None).
  { intros sc0 type d. unfold playAnimation.
    destruct (action_of sc0 type) as [newAction|]; [|reflexivity].
    set (sc1 := fold_left log_state entries
                  (log (TransitionStart type) sc0)).
    assert (Hsc1 : action_of sc1 k = action_of sc0 k).
    { unfold sc1. rewrite (proj1 (log_states_actions entries _ k)).
      apply action_of_log. }
    rewrite <- Hsc1.
    destruct type.
    - destruct (negb (isRunning newAction));
        rewrite action_of_log, !reg_update_action, action_of_log,
          !reg_update_action, ?action_of_log, ?reg_update_action,
          ?action_of_log;
        apply reg_fade_loop.
    - rewrite action_of_log, !reg_update_action, action_of_log,
        !reg_update_action, action_of_log.
      destruct (idleActionRef sc1) as [i|]; [destruct (isRunning i)|];
        rewrite ?reg_update_action, ?action_of_log; reflexivity.
    - rewrite action_of_log, !reg_update_action, action_of_log,
        !reg_update_action, action_of_log.
      destruct (idleActionRef sc1) as [i|]; [destruct (isRunning i)|];
        rewrite ?reg_update_action, ?action_of_log; reflexivity.
    - rewrite action_of_log, !reg_update_action, action_of_log,
        !reg_update_action, action_of_log.
      destruct (idleActionRef sc1) as [i|]; [destruct (isRunning i)|];
        rewrite ?reg_update_action, ?action_of_log; reflexivity. }
  split; [exact (Hplay sc)|]. split.
  - intros [trigger|]; [|reflexivity]. unfold onAnimationTrigger.
    destruct (negb (playAnimationRef sc)); [reflexivity|].
    destruct (animationMap _) as [type| |].
    + rewrite Hplay. rewrite action_of_log. reflexivity.
    + rewrite action_of_log. reflexivity.
    + rewrite !action_of_log. reflexivity.
  - intros t. unfold fire. rewrite action_of_log. apply reg_update_action.
Qed.

End BlendMore.

Section BlendMoreExamples.

Import Blend.

Lemma stale_cleanup_stops_restarted_clip_witness :
  option_map calls
    (greetingActionRef
       (fire (mkTimer ((1 # 2) * 1000) greeting)
          (playAnimation greeting (1 # 2)
             (playAnimation idle (1 # 2) busy_scene))))
  = option_map
      (fun a => calls a
                ++ [CallFadeOut (1 # 2);
                    CallReset; CallEnabled true; CallTimeScale 1;
                    CallWeight 1; CallFadeIn (1 # 2); CallPlay;
                    CallEnabled false; CallPaused false; CallStop;
                    CallReset])
      (greetingActionRef busy_scene).
Proof.
  destruct (greetingActionRef busy_scene) as [a|] eqn:Ha;
    [|discriminate Ha].
  destruct (idleActionRef busy_scene) as [i|] eqn:Hi; [|discriminate Hi].
  assert (Hactive : isRunning a || paused a = true)
    by (injection Ha as <-; reflexivity).
  destruct (stale_cleanup_stops_restarted_clip busy_scene greeting
              (1 # 2) (1 # 2) i a ltac:(discriminate) Hi Ha Hactive)
    as (_ & _ & Hfired).
  cbv zeta in Hfired. change (greetingActionRef ?s) with (action_of s greeting).
  rewrite Hfired. injection Ha as <-. reflexivity.
Defined.

Lemma playAnimation_one_shot_witness :
  option_map calls
    (northernSoulSpinActionRef (playAnimation northernSoulSpin (1 # 2)
                                  busy_scene))
  = Some [CallReset; CallEnabled true; CallTimeScale 1; CallWeight 1;
          CallFadeIn (1 # 2); CallPlay] /\
  timers (playAnimation northernSoulSpin (1 # 2) busy_scene) = [].
Proof.
  destruct (playAnimation_one_shot busy_scene northernSoulSpin (1 # 2)
              (mkRecorder false false []))
    as (Hnew & _ & _ & Htimers).
  - discriminate.
  - reflexivity.
  - split; [|exact Htimers].
    change (northernSoulSpinActionRef ?x) with (action_of x northernSoulSpin).
    rewrite Hnew. reflexivity.
Defined.

End BlendMoreExamples.

(** ** Expression weights: what a frame leaves alone *)

Section AnimateMore.

Import Animate.

Lemma apply_calls_app (l1 l2 : list (string * Q)) (m : gmap string Q) :
  apply_calls (l1 ++ l2) m = apply_calls l2 (apply_calls l1 m).
Proof. unfold apply_calls. apply fold_left_app. Qed.

Lemma apply_calls_other (calls : list (string * Q)) (name : string) :
  forall m : gmap string Q,
    Forall (fun call => fst call <> name) calls ->
    apply_calls calls m !! name = m !! name.
Proof.
  induction calls as [|[k w] calls IH]; intros m Hall; [reflexivity|].
  apply List.Forall_cons_iff in Hall as [Hk Hall].
  cbn [apply_calls fold_left] in *. fold (apply_calls calls (setValue k w m)).
  rewrite (IH _ Hall). unfold setValue. cbn [fst snd].
  apply lookup_insert_ne. exact Hk.
Qed.

(** X19.  A frame writes the blink weight only when the blink value is
    positive: at 0 the weight written by an earlier frame stays.  Apart
    from the five visemes and the blink no expression is written, the
    one called 'neutral' included. *)
Theorem animate_leaves_other_expressions
    (frequencyData : option (list byte)) (now : Z) (t : Blink.Tick)
    (av : Avatar) (name : string) :
  ~ In name ["aa"; "ee"; "ih"; "oh"; "ou"]%string ->
  expressions (animate frequencyData now t av) !! name
  = if String.eqb name "blink" && Qltb 0 (blinked frequencyData now t av)
    then Some (blinked frequencyData now t av)
    else expressions av !! name.
Proof.
  intros Hname. rewrite animate_expressions. unfold expression_calls.
  set (s := smoothed frequencyData now av).
  set (b := blinked frequencyData now t av).
  rewrite !apply_calls_app.
  assert (Hzero : forall m,
            apply_calls (map (fun v => (viseme_name v, 0)) allVisemes) m
              !! name = m !! name).
  { intros m. apply apply_calls_other. cbn.
    repeat constructor; cbn; intros E; apply Hname; subst name; cbn; tauto. }
  assert (Hheld : forall m,
            apply_calls
              (if negb (VisemeType_eqb (viseme s) neutral)
                  && Qltb (1 # 10) (intensity s)
               then [(viseme_name (viseme s), intensity s)] else []) m
              !! name = m !! name).
  { intros m. apply apply_calls_other.
    destruct (negb _ && _) eqn:Hc; [|constructor].
    apply andb_true_iff in Hc as [Hc _].
    constructor; [|constructor]. cbn. intros E. apply Hname.
    subst name. destruct (viseme s); cbn in *; try tauto. discriminate. }
  destruct (Qltb 0 b) eqn:Hb.
  - cbn [apply_calls fold_left fst snd]. unfold setValue.
    destruct (String.eqb_spec name "blink") as [->|Hne]; cbn [andb].
    + apply lookup_insert_eq.
    + rewrite lookup_insert_ne by congruence.
      fold (apply_calls
              (if negb (VisemeType_eqb (viseme s) neutral)
                  && Qltb (1 # 10) (intensity s)
               then [(viseme_name (viseme s), intensity s)] else [])
              (apply_calls (map (fun v => (viseme_name v, 0)) allVisemes)
                 (expressions av))).
      rewrite Hheld. apply Hzero.
  - rewrite andb_false_r. cbn [apply_calls fold_left].
    fold (apply_calls
            (if negb (VisemeType_eqb (viseme s) neutral)
                && Qltb (1 # 10) (intensity s)
             then [(viseme_name (viseme s), intensity s)] else [])
            (apply_calls (map (fun v => (viseme_name v, 0)) allVisemes)
               (expressions av))).
    rewrite Hheld. apply Hzero.
Qed.

Lemma animate_leaves_other_expressions_witness :
  expressions (animate (Some frame_soft) 1016 soft_tick after_silence)
    !! "blink"%string
  = None.
Proof.
  rewrite (animate_leaves_other_expressions (Some frame_soft) 1016 soft_tick
             after_silence "blink").
  - vm_compute. reflexivity.
  - cbn. intuition discriminate.
Defined.

End AnimateMore.

(** ** Retargeter: the returned tracks *)

Section RetargetMore.

Import Retarget.

Context `{QuaternionOps}.

Lemma convert_track_output (asset : Asset) (vrm : VRM) (scale : num)
    (st : Loop) (t : KeyframeTrack) :
  exists vals,
    new_tracks (snd (convert_track asset vrm scale st t))
    = new_tracks st
      ++ (if is_bound vrm t && is_rotation t
          then [mkTrack (new_name vrm t) (kind t) (times t) vals]
          else if is_bound vrm t && is_translation t
          then [mkTrack (new_name vrm t) (kind t) (times t)
                  (scale_vector (isVRM0 vrm) scale (values t))]
          else []).
Proof.
  unfold convert_track, is_bound, is_rotation, is_translation, new_name.
  destruct (vrmNodeName vrm t) as [nodeName|]; cbn [andb fst snd].
  - destruct (kind t) eqn:Hk; cbn [snd new_tracks].
    + eexists. reflexivity.
    + exists []. reflexivity.
    + exists []. rewrite app_nil_r. reflexivity.
  - exists []. rewrite app_nil_r. reflexivity.
Qed.

Lemma convert_tracks_output (asset : Asset) (vrm : VRM) (scale : num) :
  forall (trs : list KeyframeTrack) (st : Loop),
    let out := new_tracks (snd (convert_tracks asset vrm scale st trs)) in
    map heading out
    = map heading (new_tracks st)
      ++ map (fun t => (new_name vrm t, kind t, times t))
           (List.filter
              (fun t => is_bound vrm t && (is_rotation t || is_translation t))
              trs) /\
    map values (List.filter is_translation out)
    = map values (List.filter is_translation (new_tracks st))
      ++ map (fun t => scale_vector (isVRM0 vrm) scale (values t))
           (List.filter (fun t => is_bound vrm t && is_translation t) trs).
Proof.
  induction trs as [|t rest IH]; intros st; cbv zeta.
  - cbn. rewrite !app_nil_r. split; reflexivity.
  - cbn [convert_tracks].
    destruct (convert_track_output asset vrm scale st t) as [vals Hout].
    destruct (convert_track asset vrm scale st t) as [t' st1].
    specialize (IH st1). cbv zeta in IH.
    destruct (convert_tracks asset vrm scale st1 rest) as [rest' st2].
    cbn [fst snd] in *. destruct IH as [IHh IHv].
    rewrite IHh, IHv, Hout. clear IHh IHv Hout.
    cbn [List.filter].
    unfold is_rotation, is_translation.
    destruct (is_bound vrm t), (kind t) eqn:Hk; cbn [andb orb];
      rewrite ?Hk, ?List.filter_app, ?map_app, ?app_nil_r, <- ?app_assoc;
      cbn; rewrite ?Hk; split; reflexivity.
Qed.

(** X21.  The returned clip holds one track for every rotation or translation
    track of the donor clip whose joint is bound to a bone of the
    target, in the donor's order, renamed to the bone's node and with
    the donor's times; the tracks of unbound joints are dropped.  Its
    translation tracks hold the donor's values times the hips scale,
    with the sign of the first and third component flipped for a VRM 0
    target. *)
Theorem returned_tracks_are_bound_tracks
    (asset : Asset) (vrm : VRM) (clip : AnimationClip) :
  findByName (animations asset) "mixamo.com" = Some clip ->
  exists out,
    fst (loadMixamoAnimation asset vrm) = Returned out /\
    clip_name out = "vrmAnimation"%string /\
    map heading (tracks out)
    = map (fun t => (new_name vrm t, kind t, times t))
        (List.filter
           (fun t => is_bound vrm t && (is_rotation t || is_translation t))
           (tracks clip)) /\
    map values (List.filter is_translation (tracks out))
    = map (fun t => scale_vector (isVRM0 vrm)
                      (hipsPositionScale asset vrm) (values t))
        (List.filter (fun t => is_bound vrm t && is_translation t)
           (tracks clip)).
Proof.
  intros Hclip. unfold loadMixamoAnimation. rewrite Hclip.
  pose proof (convert_tracks_output asset vrm (hipsPositionScale asset vrm)
                (tracks clip) (mkLoop [] identity identity)) as [Hh Hv].
  cbv zeta in Hh, Hv.
  destruct (convert_tracks asset vrm _ _ (tracks clip)) as [donor' st].
  cbn [fst snd] in *. eexists. split; [reflexivity|].
  split; [reflexivity|]. split; [exact Hh | exact Hv].
Qed.

End RetargetMore.

Section RetargetMoreExamples.

Import Retarget.

Lemma returned_tracks_are_bound_tracks_witness :
  exists out,
    fst (loadMixamoAnimation donor_with_unbound vrm1) = Returned out /\
    map name (tracks out)
    = ["Normalized_Hips.position"; "Normalized_Hips.quaternion"]%string.
Proof.
  destruct (returned_tracks_are_bound_tracks donor_with_unbound vrm1
              (mkClip "mixamo.com" 2
                 [mkTrack "mixamorigHips.position" VectorKeyframeTrack [0; 1]
                    [Fin 0; Fin 100; Fin 0; Fin 0; Fin 50; Fin 0];
                  mkTrack "mixamorigLeftHandThumb4.quaternion"
                    QuaternionKeyframeTrack [0]
                    [Fin 0; Fin 0; Fin 0; Fin 1];
                  mkTrack "mixamorigHips.quaternion" QuaternionKeyframeTrack
                    [0] [Fin 0; Fin 0; Fin 0; Fin 1]]) eq_refl)
    as (out & Hout & _ & Hhead & _).
  exists out. split; [exact Hout|].
  apply (f_equal (map (fun x => fst (fst x)))) in Hhead.
  rewrite map_map in Hhead. cbn [heading fst] in Hhead.
  exact Hhead.
Defined.

End RetargetMoreExamples.

(** ** Text-driven visemes: which frame is showing *)

Section TextVisemeProps.

Import TextViseme.

Lemma frames_loop_time (frames : list VisemeFrame) (elapsedMs : Q) :
  forall t t' : Q,
    t == t' -> frames_loop frames elapsedMs t = frames_loop frames elapsedMs t'.
Proof.
  induction frames as [|f rest IH]; intros t t' Ht; [reflexivity|].
  cbn [frames_loop].
  assert (Hb : Qltb elapsedMs (t + duration f)
               = Qltb elapsedMs (t' + duration f)).
  { unfold Qltb. f_equal.
    destruct (Qle_bool (t + duration f) elapsedMs) eqn:E1,
             (Qle_bool (t' + duration f) elapsedMs) eqn:E2;
      try reflexivity.
    - apply Qle_bool_iff in E1. apply not_true_iff_false in E2.
      exfalso. apply E2. apply Qle_bool_iff. rewrite <- Ht. exact E1.
    - apply Qle_bool_iff in E2. apply not_true_iff_false in E1.
      exfalso. apply E1. apply Qle_bool_iff. rewrite Ht. exact E2. }
  rewrite Hb. clear Hb.
  destruct (Qltb elapsedMs (t' + duration f)); [reflexivity|].
  apply IH. rewrite Ht. reflexivity.
Qed.

Lemma total_duration_nonneg (frames : list VisemeFrame) :
  Forall (fun f => 0 <= duration f) frames -> 0 <= total_duration frames.
Proof.
  induction frames as [|f rest IH]; intros Hall.
  - cbn. lra.
  - apply List.Forall_cons_iff in Hall as [Hf Hall]. specialize (IH Hall).
    cbn [total_duration fold_right] in *.
    fold (total_duration rest). lra.
Qed.

Lemma frames_loop_finished (frames : list VisemeFrame) (elapsedMs : Q) :
  forall t : Q,
    Forall (fun f => 0 <= duration f) frames ->
    (frames_loop frames elapsedMs t = None
     <-> frames = [] \/ t + total_duration frames <= elapsedMs).
Proof.
  induction frames as [|f rest IH]; intros t Hall.
  - cbn. tauto.
  - apply List.Forall_cons_iff in Hall as [Hf Hall].
    pose proof (total_duration_nonneg rest Hall) as Hrest.
    cbn [frames_loop total_duration fold_right]. fold (total_duration rest).
    destruct (Qltb elapsedMs (t + duration f)) eqn:Hlt.
    + apply Qltb_lt in Hlt. split; [discriminate|].
      intros [Hnil|Hle]; [discriminate|]. exfalso. lra.
    + apply Qltb_ge in Hlt. rewrite (IH _ Hall). split.
      * intros [->|Hle]; right; cbn; lra.
      * intros [Hnil|Hle]; [discriminate|]. right. lra.
Qed.

(** X22.  With no negative duration, [getCurrentViseme] returns null exactly
    when there is no frame or the elapsed time has reached the summed
    duration of the frames. *)
Theorem getCurrentViseme_null_iff_played
    (frames : list VisemeFrame) (elapsedMs : Q) :
  Forall (fun f => 0 <= duration f) frames ->
  (getCurrentViseme frames elapsedMs = None
   <-> frames = [] \/ total_duration frames <= elapsedMs).
Proof.
  intros Hall. unfold getCurrentViseme.
  rewrite (frames_loop_finished frames elapsedMs 0 Hall).
  split; (intros [Hnil|Hle]; [left; exact Hnil | right; lra]).
Qed.

Lemma frames_loop_skips (pre : list VisemeFrame) (elapsedMs : Q) :
  forall (t : Q) (rest : list VisemeFrame),
    Forall (fun f => 0 <= duration f) pre ->
    t + total_duration pre <= elapsedMs ->
    frames_loop (pre ++ rest) elapsedMs t
    = frames_loop rest elapsedMs (t + total_duration pre).
Proof.
  induction pre as [|f pre IH]; intros t rest Hall Hle.
  - cbn. apply frames_loop_time. lra.
  - apply List.Forall_cons_iff in Hall as [Hf Hall].
    pose proof (total_duration_nonneg pre Hall) as Hpre.
    cbn [app frames_loop total_duration fold_right] in *.
    fold (total_duration pre) in *.
    assert (Hge : Qltb elapsedMs (t + duration f) = false)
      by (apply Qltb_ge; lra).
    rewrite Hge, IH by (try assumption; lra).
    apply frames_loop_time. lra.
Qed.

(** X23.  The frame shown at an elapsed time is the one whose time span holds
    it: when the frames before a frame have no negative duration and sum
    to at most the elapsed time, and adding the frame's own duration
    exceeds it, that frame's viseme and intensity are returned, whatever
    follows. *)
Theorem getCurrentViseme_active_frame
    (pre post : list VisemeFrame) (frame : VisemeFrame) (elapsedMs : Q) :
  Forall (fun f => 0 <= duration f) pre ->
  total_duration pre <= elapsedMs ->
  elapsedMs < total_duration pre + duration frame ->
  getCurrentViseme (pre ++ frame :: post) elapsedMs
  = Some (mkEstimate (frame_viseme frame) (frame_intensity frame)).
Proof.
  intros Hall Hle Hlt. unfold getCurrentViseme.
  rewrite frames_loop_skips by (try assumption; lra).
  cbn [frames_loop].
  assert (Hin : Qltb elapsedMs (0 + total_duration pre + duration frame)
                = true) by (apply Qltb_lt; lra).
  rewrite Hin. reflexivity.
Qed.

Lemma getCurrentViseme_null_iff_played_witness :
  getCurrentViseme two_syllables 1000 = None
  <-> two_syllables = [] \/ total_duration two_syllables <= 1000.
Proof.
  apply (getCurrentViseme_null_iff_played two_syllables 1000).
  repeat constructor; cbn; discriminate.
Defined.

Lemma getCurrentViseme_active_frame_witness :
  getCurrentViseme two_syllables 400 = Some (mkEstimate oh (9 # 10)).
Proof.
  apply (getCurrentViseme_active_frame
           [mkFrame aa 400 (4 # 5)] [mkFrame neutral 200 0]
           (mkFrame oh 400 (9 # 10)) 400).
  - repeat constructor; cbn; discriminate.
  - vm_compute. discriminate.
  - vm_compute. reflexivity.
Defined.

End TextVisemeProps.
